(** * Memory utilities (src/c/memory_utils.c): block pool, guarded buffers,
      bounded string copy and constant-time comparison.

    The C code is embedded as pure functions that pass the global
    [g_memory_pool] explicitly.  Integers of a fixed width are values of [Z]
    whose wrap-around is written out; pointers are machine addresses.

    Layout used by the model (the usual one for this struct):
    - [size_t] and pointers are [SIZE_BITS] = 64 bits wide;
    - [sizeof(MemoryBlock)] = 65: 64 data bytes and a one-byte [bool];
    - a [uint32_t] is stored least significant byte first. *)

From stdpp Require Import base option list numbers strings.
From Stdlib Require Import ZArith Lia.

Local Open Scope Z_scope.

(** ** Constants *)

Definition POOL_BLOCK_SIZE : Z := 64.
Definition POOL_NUM_BLOCKS : Z := 32.
Definition GUARD_PATTERN : Z := 0xDEADBEEF.

Definition SIZE_BITS : Z := 64.
Definition SIZE_MOD : Z := 2 ^ SIZE_BITS.
Definition SIZE_MAX : Z := SIZE_MOD - 1.
Definition UINT32_MOD : Z := 2 ^ 32.
Definition GUARD_WIDTH : Z := 4.          (* sizeof(uint32_t) *)

Definition NULL : Z := 0.

(** Address of the static object [g_memory_pool].  Any address that is not
    null and leaves the object inside the address space behaves the same. *)
Definition POOL_BASE : Z := 0x10000.

(** sizeof(MemoryBlock) *)
Definition BLOCK_STRIDE : Z := POOL_BLOCK_SIZE + 1.

(** ** Data model *)

Record MemoryBlock : Type := mkBlock {
  data : list Z;          (* uint8_t data[POOL_BLOCK_SIZE] *)
  in_use : bool
}.

Record MemoryPool : Type := mkPool {
  blocks : list MemoryBlock;   (* MemoryBlock blocks[POOL_NUM_BLOCKS] *)
  allocated_count : Z;         (* uint32_t *)
  peak_usage : Z               (* uint32_t *)
}.

Definition zero_data : list Z := replicate (Z.to_nat POOL_BLOCK_SIZE) 0.

(** [static MemoryPool g_memory_pool = {0};] *)
Definition g_memory_pool : MemoryPool :=
  mkPool (replicate (Z.to_nat POOL_NUM_BLOCKS) (mkBlock zero_data false)) 0 0.

(** [&g_memory_pool.blocks[i].data[0]] *)
Definition block_data_addr (i : nat) : Z := POOL_BASE + Z.of_nat i * BLOCK_STRIDE.

(** What the C types guarantee about a pool value. *)
Definition is_byte (v : Z) : Prop := 0 <= v < 256.

Record pool_wf (p : MemoryPool) : Prop := mkWf {
  wf_blocks : length (blocks p) = Z.to_nat POOL_NUM_BLOCKS;
  wf_data : Forall (fun b => length (data b) = Z.to_nat POOL_BLOCK_SIZE) (blocks p);
  wf_count : 0 <= allocated_count p < UINT32_MOD;
  wf_peak : 0 <= peak_usage p < UINT32_MOD
}.

(** Number of blocks whose in-use flag is set. *)
Fixpoint count_in_use (bs : list MemoryBlock) : Z :=
  match bs with
  | [] => 0
  | b :: bs' => (if in_use b then 1 else 0) + count_in_use bs'
  end.

(** The pool invariant of the data model. *)
Definition pool_inv (p : MemoryPool) : Prop :=
  allocated_count p = count_in_use (blocks p) /\
  0 <= allocated_count p <= POOL_NUM_BLOCKS.

(** ** Block pool *)

(** The return statements of [pool_alloc], in source order. *)
Inductive alloc_exit : Type :=
  | AllocInvalidSize              (* return NULL;  // Invalid size *)
  | AllocBlock (i : nat)          (* return g_memory_pool.blocks[i].data; *)
  | AllocExhausted.               (* return NULL;  // Pool exhausted *)

(** The scan [for (i = 0; i < POOL_NUM_BLOCKS; i++) if (!blocks[i].in_use)],
    started at index [i] on the blocks from [i] on. *)
Fixpoint alloc_scan (bs : list MemoryBlock) (i : nat) : option nat :=
  match bs with
  | [] => None
  | b :: bs' => if negb (in_use b) then Some i else alloc_scan bs' (S i)
  end.

Definition pool_alloc_exit (p : MemoryPool) (size : Z) : alloc_exit :=
  if (size =? 0) || (size >? POOL_BLOCK_SIZE) then AllocInvalidSize
  else match alloc_scan (blocks p) 0 with
       | Some i => AllocBlock i
       | None => AllocExhausted
       end.

(** The body of the [if] inside the allocation loop. *)
Definition take_block (p : MemoryPool) (i : nat) : MemoryPool :=
  let count := (allocated_count p + 1) mod UINT32_MOD in
  mkPool (<[i := mkBlock zero_data true]> (blocks p))
         count
         (if count >? peak_usage p then count else peak_usage p).

Definition pool_alloc (p : MemoryPool) (size : Z) : MemoryPool * Z :=
  match pool_alloc_exit p size with
  | AllocInvalidSize => (p, NULL)
  | AllocBlock i => (take_block p i, block_data_addr i)
  | AllocExhausted => (p, NULL)
  end.

(** The ways out of [pool_free]. *)
Inductive free_exit : Type :=
  | FreeNull                      (* ptr == NULL: return false *)
  | FreeReleased (i : nat)        (* return true *)
  | FreeDoubleFree (i : nat)      (* break;  // Double free detected *)
  | FreeInvalidPointer.           (* loop ran out: return false *)

Fixpoint free_scan (bs : list MemoryBlock) (i : nat) (ptr : Z) : free_exit :=
  match bs with
  | [] => FreeInvalidPointer
  | b :: bs' =>
      let block_start := block_data_addr i in
      let block_end := block_start + POOL_BLOCK_SIZE in
      if (block_start <=? ptr) && (ptr <? block_end) then
        if in_use b then FreeReleased i else FreeDoubleFree i
      else free_scan bs' (S i) ptr
  end.

Definition pool_free_exit (p : MemoryPool) (ptr : Z) : free_exit :=
  if ptr =? NULL then FreeNull else free_scan (blocks p) 0 ptr.

Definition release_block (p : MemoryPool) (i : nat) : MemoryPool :=
  mkPool (<[i := mkBlock zero_data false]> (blocks p))
         ((allocated_count p - 1) mod UINT32_MOD)
         (peak_usage p).

Definition pool_free (p : MemoryPool) (ptr : Z) : MemoryPool * bool :=
  match pool_free_exit p ptr with
  | FreeReleased i => (release_block p i, true)
  | FreeNull | FreeDoubleFree _ | FreeInvalidPointer => (p, false)
  end.

(** [pool_get_stats]: each out-parameter is written when it is not null.  The
    arguments say which of the three pointers are non-null; the pool is only
    read. *)
Definition pool_get_stats (p : MemoryPool) (current peak total : bool)
  : option Z * option Z * option Z :=
  (if current then Some (allocated_count p) else None,
   if peak then Some (peak_usage p) else None,
   if total then Some POOL_NUM_BLOCKS else None).

Definition pool_reset (p : MemoryPool) : MemoryPool :=
  mkPool (map (fun _ => mkBlock zero_data false) (blocks p)) 0 (peak_usage p).

(** One call of the pool interface. *)
Inductive pool_op : Type :=
  | OpAlloc (size : Z)
  | OpFree (ptr : Z)
  | OpStats (current peak total : bool)
  | OpReset.

(** What the caller gets back. *)
Inductive pool_result : Type :=
  | RetPtr (ptr : Z)
  | RetBool (ok : bool)
  | RetStats (out : option Z * option Z * option Z)
  | RetVoid.

Definition pool_call (p : MemoryPool) (op : pool_op) : MemoryPool * pool_result :=
  match op with
  | OpAlloc size => let '(p', ptr) := pool_alloc p size in (p', RetPtr ptr)
  | OpFree ptr => let '(p', ok) := pool_free p ptr in (p', RetBool ok)
  | OpStats current peak total => (p, RetStats (pool_get_stats p current peak total))
  | OpReset => (pool_reset p, RetVoid)
  end.

Definition pool_step (p : MemoryPool) (op : pool_op) : MemoryPool := fst (pool_call p op).

Definition pool_run (p : MemoryPool) (ops : list pool_op) : MemoryPool :=
  foldl pool_step p ops.

(** ** Byte-addressed view of the blocks *)

(** Pointer arithmetic on [SIZE_BITS]-bit addresses. *)
Definition ptr_add (a k : Z) : Z := (a + k) mod SIZE_MOD.

(** The block index and data offset an address denotes, when it lies in the
    data array of some block.  The in-use flags, the counters and everything
    outside [g_memory_pool] are not addressable in this model. *)
Definition locate (addr : Z) : option (nat * nat) :=
  let rel := addr - POOL_BASE in
  if (0 <=? rel) && (rel <? POOL_NUM_BLOCKS * BLOCK_STRIDE)
     && (rel `mod` BLOCK_STRIDE <? POOL_BLOCK_SIZE)
  then Some (Z.to_nat (rel `div` BLOCK_STRIDE), Z.to_nat (rel `mod` BLOCK_STRIDE))
  else None.

(** [*(uint8_t * )addr]; [None] when the access leaves the data arrays. *)
Definition load8 (p : MemoryPool) (addr : Z) : option Z :=
  '(i, j) ← locate addr;
  b ← blocks p !! i;
  data b !! j.

(** [*(uint8_t * )addr = v] *)
Definition store8 (p : MemoryPool) (addr v : Z) : option MemoryPool :=
  '(i, j) ← locate addr;
  b ← blocks p !! i;
  _ ← data b !! j;
  Some (mkPool (<[i := mkBlock (<[j := v `mod` 256]> (data b)) (in_use b)]> (blocks p))
               (allocated_count p) (peak_usage p)).

(** [*(uint32_t * )addr], least significant byte first. *)
Definition load32 (p : MemoryPool) (addr : Z) : option Z :=
  b0 ← load8 p addr;
  b1 ← load8 p (ptr_add addr 1);
  b2 ← load8 p (ptr_add addr 2);
  b3 ← load8 p (ptr_add addr 3);
  Some (b0 + 256 * b1 + 65536 * b2 + 16777216 * b3).

(** [*(uint32_t * )addr = v] *)
Definition store32 (p : MemoryPool) (addr v : Z) : option MemoryPool :=
  p ← store8 p addr v;
  p ← store8 p (ptr_add addr 1) (v `div` 256);
  p ← store8 p (ptr_add addr 2) (v `div` 65536);
  store8 p (ptr_add addr 3) (v `div` 16777216).

(** A caller writing single bytes through a payload pointer:
    [((uint8_t * )h)[off] = v] for each [(off, v)] in order. *)
Fixpoint write_bytes (p : MemoryPool) (h : Z) (ws : list (Z * Z)) : option MemoryPool :=
  match ws with
  | [] => Some p
  | (off, v) :: ws' => p' ← store8 p (ptr_add h off) v; write_bytes p' h ws'
  end.

(** ** Guarded buffers *)

Definition create_guarded_buffer (p : MemoryPool) (size : Z) : option (MemoryPool * Z) :=
  if size =? 0 then Some (p, NULL)
  else
    let total_size := (GUARD_WIDTH + size + GUARD_WIDTH) `mod` SIZE_MOD in
    let '(p1, memory) := pool_alloc p total_size in
    if memory =? NULL then Some (p1, NULL)
    else
      let buffer := memory in
      p2 ← store32 p1 buffer GUARD_PATTERN;            (* buffer->guard_start *)
      let payload := ptr_add buffer GUARD_WIDTH in     (* buffer->data *)
      let guard_end := ptr_add payload size in
      p3 ← store32 p2 guard_end GUARD_PATTERN;
      Some (p3, payload).

Definition check_buffer_integrity (p : MemoryPool) (ptr size : Z) : option bool :=
  if (ptr =? NULL) || (size =? 0) then Some false
  else
    let buffer := ptr_add ptr (- GUARD_WIDTH) in
    let guard_end := ptr_add ptr size in
    guard_start ← load32 p buffer;
    if guard_start =? GUARD_PATTERN
    then g ← load32 p guard_end; Some (g =? GUARD_PATTERN)
    else Some false.

(** The result is the pool and whether the corruption warning was printed. *)
Definition free_guarded_buffer (p : MemoryPool) (ptr size : Z) : option (MemoryPool * bool) :=
  if ptr =? NULL then Some (p, false)
  else
    let buffer := ptr_add ptr (- GUARD_WIDTH) in
    ok ← check_buffer_integrity p ptr size;
    if ok : bool then Some (fst (pool_free p buffer), false)
    else Some (p, true).

(** The byte of the sentinel that lies [k] bytes into a marker. *)
Definition guard_byte (k : Z) : Z := (GUARD_PATTERN `div` 256 ^ k) `mod` 256.

(** The address is one of a data byte of some block. *)
Definition mapped (p : MemoryPool) (a : Z) : Prop := is_Some (load8 p a).

(** The four bytes from [a] on hold the sentinel. *)
Definition marker_at (p : MemoryPool) (a : Z) : Prop :=
  forall k, 0 <= k < 4 -> load8 p (a + k) = Some (guard_byte k).

(** A live guarded buffer: [h] is the payload pointer of a buffer of [size]
    bytes laid out from the start of some block, with both markers intact. *)
Record guarded (p : MemoryPool) (h size : Z) : Prop := mkGuarded {
  guarded_block : exists i, (i < Z.to_nat POOL_NUM_BLOCKS)%nat /\
                            h = block_data_addr i + GUARD_WIDTH;
  guarded_size : 0 < size <= POOL_BLOCK_SIZE - 2 * GUARD_WIDTH;
  guarded_mapped : forall off, - GUARD_WIDTH <= off < size + GUARD_WIDTH -> mapped p (h + off);
  guarded_start : marker_at p (h - GUARD_WIDTH);
  guarded_end : marker_at p (h + size)
}.

(** The position inside its marker of a payload offset in a marker. *)
Definition marker_index (size off : Z) : Z :=
  if off <? 0 then off + GUARD_WIDTH else off - size.

(** ** Bounded string copy *)

(** [mem[i]] for a C array given by its bytes. *)
Definition byte_at (mem : list Z) (i : nat) : Z := default 0 (mem !! i).

(** The copy loop of [safe_strcpy]: [n] is the number of iterations left
    before [i] reaches [dest_size - 1]. *)
Fixpoint strcpy_loop (n : nat) (i : nat) (dest src : list Z) : list Z * nat :=
  match n with
  | O => (dest, i)
  | S n' =>
      if byte_at src i =? 0 then (dest, i)
      else strcpy_loop n' (S i) (<[i := byte_at src i]> dest) src
  end.

(** [dest] and [src] are [None] for a null pointer and otherwise the bytes
    found there; the two arrays do not overlap.  The result is the return
    value and the bytes at [dest]. *)
Definition safe_strcpy (dest : option (list Z)) (dest_size : Z) (src : option (list Z))
  : Z * option (list Z) :=
  match dest, src with
  | Some d, Some s =>
      if dest_size =? 0 then (-1, dest)
      else
        let '(d', i) := strcpy_loop (Z.to_nat (dest_size - 1)) 0 d s in
        (if byte_at s i =? 0 then 0 else 1, Some (<[i := 0]> d'))
  | _, _ => (-1, dest)
  end.

(** A C string: the bytes [s], none of them zero, and the terminator. *)
Definition c_string (s : list Z) : list Z := s ++ [0].

(** The bytes of a string literal, without the terminator. *)
Definition bytes_of_string (s : string) : list Z :=
  (fun c => Z.of_N (Ascii.N_of_ascii c)) <$> String.list_ascii_of_string s.

Definition hello_world : list Z := bytes_of_string "Hello, World!"%string.
Definition hello_comma : list Z := bytes_of_string "Hello, "%string.

(** ** Bounded string concatenation *)

(** The scan for the end of the destination string in [safe_strcat]:
    [while (dest_len < dest_size && dest[dest_len] != 0) dest_len++], with
    [n] the number of iterations left before [dest_len] reaches [dest_size]. *)
Fixpoint strlen_loop (n : nat) (dest_len : nat) (dest : list Z) : nat :=
  match n with
  | O => dest_len
  | S n' =>
      if byte_at dest dest_len =? 0 then dest_len
      else strlen_loop n' (S dest_len) dest
  end.

(** The append loop of [safe_strcat]; [n] is the number of iterations left
    before [dest_len + i] reaches [dest_size - 1]. *)
Fixpoint strcat_loop (n : nat) (i : nat) (dest_len : nat) (dest src : list Z)
  : list Z * nat :=
  match n with
  | O => (dest, i)
  | S n' =>
      if byte_at src i =? 0 then (dest, i)
      else strcat_loop n' (S i) dest_len (<[(dest_len + i)%nat := byte_at src i]> dest) src
  end.

(** Same conventions as [safe_strcpy]. *)
Definition safe_strcat (dest : option (list Z)) (dest_size : Z) (src : option (list Z))
  : Z * option (list Z) :=
  match dest, src with
  | Some d, Some s =>
      if dest_size =? 0 then (-1, dest)
      else
        let dest_len := strlen_loop (Z.to_nat dest_size) 0 d in
        if Z.of_nat dest_len >=? dest_size then (-1, dest)
        else
          let '(d', i) :=
            strcat_loop (Z.to_nat (dest_size - 1 - Z.of_nat dest_len)) 0 dest_len d s in
          (if byte_at s i =? 0 then 0 else 1, Some (<[(dest_len + i)%nat := 0]> d'))
  | _, _ => (-1, dest)
  end.

(** ** Secure clear *)

(** The loop of [secure_memclear], from index [i] for [n] more iterations. *)
Fixpoint memclear_loop (n : nat) (i : nat) (mem : list Z) : list Z :=
  match n with
  | O => mem
  | S n' => memclear_loop n' (S i) (<[i := 0]> mem)
  end.

(** [ptr] is [None] for a null pointer and otherwise the bytes found there;
    the result is the bytes found there after the call. *)
Definition secure_memclear (ptr : option (list Z)) (size : Z) : option (list Z) :=
  match ptr with
  | None => None
  | Some mem =>
      if size =? 0 then Some mem
      else Some (memclear_loop (Z.to_nat size) 0 mem)
  end.

(** ** Constant-time comparison *)

(** The loop of [secure_memcmp], from index [i] for [n] more iterations;
    [result] is a [uint8_t]. *)
Fixpoint memcmp_loop (n : nat) (i : nat) (bytes1 bytes2 : list Z) (result : Z) : Z :=
  match n with
  | O => result
  | S n' =>
      memcmp_loop n' (S i) bytes1 bytes2
        (Z.lor result (Z.lxor (byte_at bytes1 i) (byte_at bytes2 i)) `mod` 256)
  end.

Definition secure_memcmp (ptr1 ptr2 : option (list Z)) (size : Z) : bool :=
  match ptr1, ptr2 with
  | Some bytes1, Some bytes2 => memcmp_loop (Z.to_nat size) 0 bytes1 bytes2 0 =? 0
  | _, _ => false
  end.

(** The accumulator as the specification words it: the OR over the first
    [n] positions of the XOR of the two bytes there. *)
Definition or_of_xors (n : nat) (a b : list Z) : Z :=
  foldr Z.lor 0 (zip_with Z.lxor (take n a) (take n b)).

(** ** Stack and circular queue (src/c/data_structures.c)

    The fields of [Stack] and [Queue] carry the name of their struct as a
    prefix, since [data] is already a field of [MemoryBlock].  Out-parameters
    are returned: [None] when the function returns false and writes nothing,
    [Some v] when it returns true after [*value = v]. *)

(** [a[i]] for an [int32_t] array given by its elements. *)
Definition elem_at (a : list Z) (i : Z) : Z := default 0 (a !! Z.to_nat i).

Definition STACK_MAX_SIZE : Z := 128.

Record Stack : Type := mkStack {
  stack_data : list Z;      (* int32_t data[STACK_MAX_SIZE] *)
  stack_top : Z             (* int top *)
}.

Definition stack_init (stack : Stack) : Stack := mkStack (stack_data stack) (-1).

Definition stack_is_empty (stack : Stack) : bool := stack_top stack =? -1.

Definition stack_is_full (stack : Stack) : bool := stack_top stack =? STACK_MAX_SIZE - 1.

Definition stack_push (stack : Stack) (value : Z) : Stack * bool :=
  if stack_is_full stack then (stack, false)
  else
    let top := stack_top stack + 1 in
    (mkStack (<[Z.to_nat top := value]> (stack_data stack)) top, true).

Definition stack_pop (stack : Stack) : Stack * option Z :=
  if stack_is_empty stack then (stack, None)
  else (mkStack (stack_data stack) (stack_top stack - 1),
        Some (elem_at (stack_data stack) (stack_top stack))).

Definition stack_peek (stack : Stack) : option Z :=
  if stack_is_empty stack then None
  else Some (elem_at (stack_data stack) (stack_top stack)).

Definition stack_size (stack : Stack) : Z := stack_top stack + 1.

(** What the C types and [stack_init] guarantee. *)
Definition stack_wf (stack : Stack) : Prop :=
  length (stack_data stack) = Z.to_nat STACK_MAX_SIZE /\
  -1 <= stack_top stack < STACK_MAX_SIZE.

(** The elements on the stack, bottom first. *)
Definition stack_contents (stack : Stack) : list Z :=
  take (Z.to_nat (stack_top stack + 1)) (stack_data stack).

Definition QUEUE_MAX_SIZE : Z := 64.

Record Queue : Type := mkQueue {
  queue_data : list Z;      (* int32_t data[QUEUE_MAX_SIZE] *)
  queue_front : Z;          (* int front *)
  queue_rear : Z;           (* int rear *)
  queue_count : Z           (* int count *)
}.

Definition queue_init (queue : Queue) : Queue := mkQueue (queue_data queue) 0 (-1) 0.

Definition queue_is_empty (queue : Queue) : bool := queue_count queue =? 0.

Definition queue_is_full (queue : Queue) : bool := queue_count queue =? QUEUE_MAX_SIZE.

(** [%] is C's remainder, [Z.rem]. *)
Definition queue_enqueue (queue : Queue) (value : Z) : Queue * bool :=
  if queue_is_full queue then (queue, false)
  else
    let rear := Z.rem (queue_rear queue + 1) QUEUE_MAX_SIZE in
    (mkQueue (<[Z.to_nat rear := value]> (queue_data queue))
             (queue_front queue) rear (queue_count queue + 1), true).

Definition queue_dequeue (queue : Queue) : Queue * option Z :=
  if queue_is_empty queue then (queue, None)
  else (mkQueue (queue_data queue)
                (Z.rem (queue_front queue + 1) QUEUE_MAX_SIZE)
                (queue_rear queue) (queue_count queue - 1),
        Some (elem_at (queue_data queue) (queue_front queue))).

Definition queue_peek (queue : Queue) : option Z :=
  if queue_is_empty queue then None
  else Some (elem_at (queue_data queue) (queue_front queue)).

Definition queue_size (queue : Queue) : Z := queue_count queue.

(** The invariant [queue_init] sets up and the operations keep: [rear] is the
    slot before [front + count], around the buffer. *)
Definition queue_wf (queue : Queue) : Prop :=
  length (queue_data queue) = Z.to_nat QUEUE_MAX_SIZE /\
  0 <= queue_front queue < QUEUE_MAX_SIZE /\
  -1 <= queue_rear queue < QUEUE_MAX_SIZE /\
  0 <= queue_count queue <= QUEUE_MAX_SIZE /\
  (queue_rear queue + 1) `mod` QUEUE_MAX_SIZE
  = (queue_front queue + queue_count queue) `mod` QUEUE_MAX_SIZE.

(** The elements in the queue, oldest first. *)
Definition queue_contents (queue : Queue) : list Z :=
  (fun k => elem_at (queue_data queue)
              ((queue_front queue + Z.of_nat k) `mod` QUEUE_MAX_SIZE))
  <$> seq 0 (Z.to_nat (queue_count queue)).

(** ** Linked list over a static node pool (src/c/data_structures.c)

    A [Node *] is null or points at a node of the list's own pool, so it is
    an [option] of the node's index.  The fields of [LinkedList] are prefixed
    with [ll_]. *)

Definition NODE_POOL_SIZE : Z := 32.

Record Node : Type := mkNode {
  node_data : Z;                (* int32_t data *)
  node_next : option nat        (* struct Node *next *)
}.

Record LinkedList : Type := mkList {
  ll_pool : list Node;          (* Node pool[NODE_POOL_SIZE] *)
  ll_used : list bool;          (* bool used[NODE_POOL_SIZE] *)
  ll_head : option nat;         (* Node *head *)
  ll_size : Z                   (* int size *)
}.

(** [pool[i]] *)
Definition node_at (pool : list Node) (i : nat) : Node :=
  default (mkNode 0 None) (pool !! i).

(** The scan of [allocate_node], from index [i] on the flags from [i] on. *)
Fixpoint used_scan (used : list bool) (i : nat) : option nat :=
  match used with
  | [] => None
  | u :: used' => if negb u then Some i else used_scan used' (S i)
  end.

Definition allocate_node (list : LinkedList) : LinkedList * option nat :=
  match used_scan (ll_used list) 0 with
  | Some i =>
      (mkList (ll_pool list) (<[i := true]> (ll_used list)) (ll_head list) (ll_size list),
       Some i)
  | None => (list, None)
  end.

Definition free_node (list : LinkedList) (node : nat) : LinkedList :=
  let index := Z.of_nat node in
  if (0 <=? index) && (index <? NODE_POOL_SIZE)
  then mkList (ll_pool list) (<[node := false]> (ll_used list)) (ll_head list) (ll_size list)
  else list.

Definition list_init (list : LinkedList) : LinkedList :=
  mkList (ll_pool list) (replicate (Z.to_nat NODE_POOL_SIZE) false) None 0.

Definition list_insert_front (list : LinkedList) (value : Z) : LinkedList * bool :=
  match allocate_node list with
  | (list1, None) => (list1, false)
  | (list1, Some new_node) =>
      (mkList (<[new_node := mkNode value (ll_head list1)]> (ll_pool list1))
              (ll_used list1) (Some new_node) (ll_size list1 + 1), true)
  end.

Definition list_remove_front (list : LinkedList) : LinkedList * option Z :=
  match ll_head list with
  | None => (list, None)
  | Some temp =>
      let value := node_data (node_at (ll_pool list) temp) in
      let list1 := mkList (ll_pool list) (ll_used list)
                          (node_next (node_at (ll_pool list) temp)) (ll_size list) in
      let list2 := free_node list1 temp in
      (mkList (ll_pool list2) (ll_used list2) (ll_head list2) (ll_size list2 - 1),
       Some value)
  end.





Definition list_size (list : LinkedList) : Z := ll_size list.

(** The nodes reached from [start] by following [next] are exactly [cs]. *)
Fixpoint is_chain (pool : list Node) (start : option nat) (cs : list nat) : Prop :=
  match cs with
  | [] => start = None
  | c :: cs' =>
      start = Some c /\
      exists n, pool !! c = Some n /\ is_chain pool (node_next n) cs'
  end.

(** A list in the state the operations keep it in: the chain from [head]
    visits each node once, and the used flags mark exactly its nodes. *)
Record list_wf (ll : LinkedList) (cs : list nat) : Prop := mkListWf {
  lwf_pool : length (ll_pool ll) = Z.to_nat NODE_POOL_SIZE;
  lwf_used : length (ll_used ll) = Z.to_nat NODE_POOL_SIZE;
  lwf_chain : is_chain (ll_pool ll) (ll_head ll) cs;
  lwf_nodup : NoDup cs;
  lwf_flags : forall i, ll_used ll !! i = Some true <-> i ∈ cs;
  lwf_size : ll_size ll = Z.of_nat (length cs)
}.

(** The values stored along a chain. *)
Definition chain_values (pool : list Node) (cs : list nat) : list Z :=
  (fun c => node_data (node_at pool c)) <$> cs.

(** The list holds the values [vs], first element first. *)
Definition list_represents (ll : LinkedList) (vs : list Z) : Prop :=
  exists cs, list_wf ll cs /\ chain_values (ll_pool ll) cs = vs.


(** The loops of [test_stack] and [test_queue]: push (enqueue) every value
    of a list, ignoring the return value, and pop (dequeue) until the
    structure is empty, collecting the values in the order they come out.
    [fuel] bounds the iterations of the draining loop; [None] is out of fuel. *)
Definition stack_push_all (stack : Stack) (values : list Z) : Stack :=
  foldl (fun st v => fst (stack_push st v)) stack values.

Fixpoint stack_drain (fuel : nat) (stack : Stack) : option (list Z * Stack) :=
  if stack_is_empty stack then Some ([], stack)
  else
    match fuel with
    | O => None
    | S fuel' =>
        let '(stack', value) := stack_pop stack in
        '(out, final) ← stack_drain fuel' stack';
        Some (match value with Some v => v :: out | None => out end, final)
    end.

Definition queue_enqueue_all (queue : Queue) (values : list Z) : Queue :=
  foldl (fun q v => fst (queue_enqueue q v)) queue values.

Fixpoint queue_drain (fuel : nat) (queue : Queue) : option (list Z * Queue) :=
  if queue_is_empty queue then Some ([], queue)
  else
    match fuel with
    | O => None
    | S fuel' =>
        let '(queue', value) := queue_dequeue queue in
        '(out, final) ← queue_drain fuel' queue';
        Some (match value with Some v => v :: out | None => out end, final)
    end.

(** ** Compile-time primality test (src/cpp/template_metaprogramming.hpp)

    Template parameters are arguments, and the chain of instantiations
    [is_prime_helper<N, Divisor>], [is_prime_helper<N, Divisor - 1>], ... is a
    recursion on the divisor.  [is_prime] asserts [N > 0], so the helper is
    only ever instantiated with [Divisor >= 1]; the case [Divisor = 0] of the
    recursion below is not reached from it. *)
Fixpoint is_prime_helper (N : Z) (Divisor : nat) : bool :=
  match Divisor with
  | O => true
  | S d =>
      if Z.of_nat Divisor =? 1 then true
      else negb (Z.rem N (Z.of_nat Divisor) =? 0) && is_prime_helper N d
  end.

Definition is_prime (N : Z) : bool :=
  if N =? 1 then false
  else if N =? 2 then true
  else is_prime_helper N (Z.to_nat (N - 1)).

(** * Properties *)

(** ** Counting blocks in use *)

Lemma count_in_use_bounds (bs : list MemoryBlock) :
  0 <= count_in_use bs <= Z.of_nat (length bs).
Proof.
  induction bs as [|b bs IH]; simpl; [lia|].
  destruct (in_use b); lia.
Qed.

Lemma count_in_use_insert (bs : list MemoryBlock) (i : nat) (b b' : MemoryBlock) :
  bs !! i = Some b ->
  count_in_use (<[i := b']> bs) =
  count_in_use bs - (if in_use b then 1 else 0) + (if in_use b' then 1 else 0).
Proof.
  revert i. induction bs as [|x bs IH]; intros [|i] Hi; simpl in *; try discriminate.
  - injection Hi as ->. lia.
  - rewrite (IH _ Hi). lia.
Qed.

Lemma count_in_use_all (bs : list MemoryBlock) :
  Forall (fun b => in_use b = true) bs -> count_in_use bs = Z.of_nat (length bs).
Proof.
  induction 1 as [|b bs Hb _ IH]; simpl; [reflexivity|].
  rewrite Hb, IH. lia.
Qed.

Lemma count_in_use_cleared (bs : list MemoryBlock) :
  count_in_use (map (fun _ => mkBlock zero_data false) bs) = 0.
Proof. induction bs as [|b bs IH]; simpl; [reflexivity|]. rewrite IH. reflexivity. Qed.

(** ** The allocation scan *)

Lemma alloc_scan_Some (bs : list MemoryBlock) (i k : nat) :
  alloc_scan bs i = Some k ->
  (i <= k)%nat /\
  (exists b, bs !! (k - i)%nat = Some b /\ in_use b = false) /\
  (forall j b, (j < k - i)%nat -> bs !! j = Some b -> in_use b = true).
Proof.
  revert i. induction bs as [|x bs IH]; intros i H; simpl in H; [discriminate|].
  destruct (in_use x) eqn:Hx; simpl in H.
  - destruct (IH _ H) as (Hle & (b & Hb & Hfree) & Hbefore).
    split; [lia|]. split.
    + exists b. split; [|exact Hfree].
      replace (k - i)%nat with (S (k - S i)) by lia. exact Hb.
    + intros [|j] c Hj Hc; simpl in Hc.
      * injection Hc as <-. exact Hx.
      * apply (Hbefore j c); [lia|exact Hc].
  - injection H as <-. split; [lia|]. split.
    + exists x. rewrite Nat.sub_diag. split; [reflexivity|exact Hx].
    + intros j c Hj. lia.
Qed.

Lemma alloc_scan_None (bs : list MemoryBlock) (i : nat) :
  alloc_scan bs i = None <-> Forall (fun b => in_use b = true) bs.
Proof.
  revert i. induction bs as [|x bs IH]; intros i; simpl.
  - split; [constructor|reflexivity].
  - destruct (in_use x) eqn:Hx; simpl.
    + rewrite IH. split; [intros H; constructor; assumption|].
      intros H. inversion H; assumption.
    + split; [discriminate|]. intros H. inversion H; congruence.
Qed.

Lemma alloc_scan_lt (bs : list MemoryBlock) (k : nat) :
  alloc_scan bs 0 = Some k -> (k < length bs)%nat.
Proof.
  intros H. destruct (alloc_scan_Some _ _ _ H) as (_ & (b & Hb & _) & _).
  rewrite Nat.sub_0_r in Hb. eapply lookup_lt_Some; exact Hb.
Qed.

(** ** The release scan *)

Lemma block_ranges_disjoint (i j : nat) (ptr : Z) :
  block_data_addr i <= ptr < block_data_addr i + POOL_BLOCK_SIZE ->
  block_data_addr j <= ptr < block_data_addr j + POOL_BLOCK_SIZE ->
  i = j.
Proof. unfold block_data_addr, BLOCK_STRIDE, POOL_BLOCK_SIZE. lia. Qed.

Lemma free_scan_hit (bs : list MemoryBlock) (i k : nat) (b : MemoryBlock) (ptr : Z) :
  (i <= k)%nat ->
  bs !! (k - i)%nat = Some b ->
  block_data_addr k <= ptr < block_data_addr k + POOL_BLOCK_SIZE ->
  free_scan bs i ptr = if in_use b then FreeReleased k else FreeDoubleFree k.
Proof.
  revert i. induction bs as [|x bs IH]; intros i Hik Hb Hptr; [discriminate|].
  simpl.
  destruct ((block_data_addr i <=? ptr) && (ptr <? block_data_addr i + POOL_BLOCK_SIZE))
    eqn:Hin.
  - apply andb_true_iff in Hin as [H1 H2].
    apply Z.leb_le in H1. apply Z.ltb_lt in H2.
    assert (i = k) as -> by (eapply block_ranges_disjoint; eauto).
    rewrite Nat.sub_diag in Hb. injection Hb as ->. reflexivity.
  - assert (i <> k) as Hne.
    { intros ->. apply andb_false_iff in Hin as [H|H];
        [apply Z.leb_gt in H|apply Z.ltb_ge in H]; lia. }
    apply IH; [lia| |exact Hptr].
    replace (k - i)%nat with (S (k - S i)) in Hb by lia. exact Hb.
Qed.

Lemma free_scan_found (bs : list MemoryBlock) (i k : nat) (ptr : Z) :
  free_scan bs i ptr = FreeReleased k \/ free_scan bs i ptr = FreeDoubleFree k ->
  (i <= k)%nat /\
  block_data_addr k <= ptr < block_data_addr k + POOL_BLOCK_SIZE /\
  exists b, bs !! (k - i)%nat = Some b /\
            in_use b = (if free_scan bs i ptr is FreeReleased _ then true else false).
Proof.
  revert i. induction bs as [|x bs IH]; intros i H; simpl in *.
  - destruct H; discriminate.
  - destruct ((block_data_addr i <=? ptr) && (ptr <? block_data_addr i + POOL_BLOCK_SIZE))
      eqn:Hin.
    + apply andb_true_iff in Hin as [H1 H2].
      apply Z.leb_le in H1. apply Z.ltb_lt in H2.
      destruct (in_use x) eqn:Hx; destruct H as [H|H]; try discriminate;
        injection H as <-; (split; [lia|]); (split; [lia|]);
        exists x; rewrite Nat.sub_diag; split; reflexivity || exact Hx.
    + destruct (IH _ H) as (Hle & Hr & b & Hb & Hu).
      split; [lia|]. split; [exact Hr|]. exists b. split; [|exact Hu].
      replace (k - i)%nat with (S (k - S i)) by lia. exact Hb.
Qed.

Lemma free_scan_miss (bs : list MemoryBlock) (i : nat) (ptr : Z) :
  (forall k, (i <= k < i + length bs)%nat ->
             ~ (block_data_addr k <= ptr < block_data_addr k + POOL_BLOCK_SIZE)) ->
  free_scan bs i ptr = FreeInvalidPointer.
Proof.
  revert i. induction bs as [|x bs IH]; intros i H; simpl; [reflexivity|].
  destruct ((block_data_addr i <=? ptr) && (ptr <? block_data_addr i + POOL_BLOCK_SIZE))
    eqn:Hin.
  - apply andb_true_iff in Hin as [H1 H2].
    apply Z.leb_le in H1. apply Z.ltb_lt in H2.
    exfalso. apply (H i); simpl; lia.
  - apply IH. intros k Hk. apply H. simpl. lia.
Qed.

(** ** Well-formedness is kept by the pool interface *)

Lemma zero_data_length : length zero_data = Z.to_nat POOL_BLOCK_SIZE.
Proof. reflexivity. Qed.

Lemma uint32_mod_range (z : Z) : 0 <= z `mod` UINT32_MOD < UINT32_MOD.
Proof. apply Z.mod_pos_bound. reflexivity. Qed.

Lemma blocks_insert_wf (bs : list MemoryBlock) (i : nat) (b : MemoryBlock) :
  Forall (fun b => length (data b) = Z.to_nat POOL_BLOCK_SIZE) bs ->
  length (data b) = Z.to_nat POOL_BLOCK_SIZE ->
  Forall (fun b => length (data b) = Z.to_nat POOL_BLOCK_SIZE) (<[i := b]> bs).
Proof.
  intros Hbs Hb. apply Forall_insert; assumption.
Qed.

Lemma take_block_wf (p : MemoryPool) (i : nat) : pool_wf p -> pool_wf (take_block p i).
Proof.
  intros [Hl Hd Hc Hp]. unfold take_block. split; simpl.
  - rewrite length_insert. exact Hl.
  - apply blocks_insert_wf; [exact Hd|apply zero_data_length].
  - apply uint32_mod_range.
  - pose proof (uint32_mod_range (allocated_count p + 1)).
    destruct (_ >? _); lia.
Qed.

Lemma release_block_wf (p : MemoryPool) (i : nat) : pool_wf p -> pool_wf (release_block p i).
Proof.
  intros [Hl Hd Hc Hp]. unfold release_block. split; simpl.
  - rewrite length_insert. exact Hl.
  - apply blocks_insert_wf; [exact Hd|apply zero_data_length].
  - apply uint32_mod_range.
  - exact Hp.
Qed.

Lemma pool_reset_wf (p : MemoryPool) : pool_wf p -> pool_wf (pool_reset p).
Proof.
  intros [Hl Hd Hc Hp]. unfold pool_reset. split; simpl.
  - rewrite length_map. exact Hl.
  - apply Forall_map. apply Forall_forall. intros; apply zero_data_length.
  - unfold UINT32_MOD. lia.
  - exact Hp.
Qed.

Lemma g_memory_pool_wf : pool_wf g_memory_pool.
Proof.
  split.
  - reflexivity.
  - apply Forall_replicate. reflexivity.
  - simpl. unfold UINT32_MOD. lia.
  - simpl. unfold UINT32_MOD. lia.
Qed.

Lemma pool_alloc_wf (p : MemoryPool) (size : Z) : pool_wf p -> pool_wf (fst (pool_alloc p size)).
Proof.
  intros H. unfold pool_alloc. destruct (pool_alloc_exit p size); simpl;
    auto using take_block_wf.
Qed.

Lemma pool_free_wf (p : MemoryPool) (ptr : Z) : pool_wf p -> pool_wf (fst (pool_free p ptr)).
Proof.
  intros H. unfold pool_free. destruct (pool_free_exit p ptr); simpl;
    auto using release_block_wf.
Qed.

Lemma pool_step_unfold (p : MemoryPool) (op : pool_op) :
  pool_step p op =
  match op with
  | OpAlloc size => fst (pool_alloc p size)
  | OpFree ptr => fst (pool_free p ptr)
  | OpStats _ _ _ => p
  | OpReset => pool_reset p
  end.
Proof.
  unfold pool_step, pool_call. destruct op as [size|ptr| |]; try reflexivity.
  - destruct (pool_alloc p size); reflexivity.
  - destruct (pool_free p ptr); reflexivity.
Qed.

Lemma pool_step_wf (p : MemoryPool) (op : pool_op) : pool_wf p -> pool_wf (pool_step p op).
Proof.
  rewrite pool_step_unfold.
  destruct op; auto using pool_alloc_wf, pool_free_wf, pool_reset_wf.
Qed.

Lemma pool_run_wf (p : MemoryPool) (ops : list pool_op) : pool_wf p -> pool_wf (pool_run p ops).
Proof.
  revert p. induction ops as [|op ops IH]; intros p H; simpl; [exact H|].
  apply IH, pool_step_wf, H.
Qed.

(** ** The invariant, one operation at a time *)

Lemma take_block_inv (p : MemoryPool) (i : nat) (b : MemoryBlock) :
  pool_wf p -> pool_inv p ->
  blocks p !! i = Some b -> in_use b = false ->
  pool_inv (take_block p i) /\
  allocated_count (take_block p i) = allocated_count p + 1.
Proof.
  intros Hwf [Hc Hr] Hb Hfree.
  pose proof (count_in_use_insert _ _ _ (mkBlock zero_data true) Hb) as Hins.
  rewrite Hfree in Hins. simpl in Hins.
  pose proof (count_in_use_bounds (<[i := mkBlock zero_data true]> (blocks p))) as Hbd.
  rewrite length_insert, (wf_blocks _ Hwf) in Hbd.
  assert (allocated_count p + 1 <= POOL_NUM_BLOCKS) as Hle.
  { rewrite Hc. unfold POOL_NUM_BLOCKS in *. simpl in Hbd. lia. }
  assert ((allocated_count p + 1) `mod` UINT32_MOD = allocated_count p + 1) as Hmod.
  { apply Z.mod_small. unfold UINT32_MOD, POOL_NUM_BLOCKS in *. lia. }
  unfold pool_inv, take_block. simpl. rewrite Hmod, Hins. lia.
Qed.

Lemma release_block_inv (p : MemoryPool) (i : nat) (b : MemoryBlock) :
  pool_wf p -> pool_inv p ->
  blocks p !! i = Some b -> in_use b = true ->
  pool_inv (release_block p i) /\
  allocated_count (release_block p i) = allocated_count p - 1.
Proof.
  intros Hwf [Hc Hr] Hb Hused.
  pose proof (count_in_use_insert _ _ _ (mkBlock zero_data false) Hb) as Hins.
  rewrite Hused in Hins. simpl in Hins.
  pose proof (count_in_use_bounds (<[i := mkBlock zero_data false]> (blocks p))) as Hbd.
  assert ((allocated_count p - 1) `mod` UINT32_MOD = allocated_count p - 1) as Hmod.
  { apply Z.mod_small. unfold UINT32_MOD, POOL_NUM_BLOCKS in *. lia. }
  unfold pool_inv, release_block. simpl. rewrite Hmod, Hins. lia.
Qed.

Lemma pool_reset_inv (p : MemoryPool) : pool_inv (pool_reset p).
Proof.
  unfold pool_inv, pool_reset. simpl. rewrite count_in_use_cleared.
  unfold POOL_NUM_BLOCKS. lia.
Qed.

Lemma pool_alloc_exit_block (p : MemoryPool) (size : Z) (i : nat) :
  pool_alloc_exit p size = AllocBlock i ->
  size <> 0 /\ size <= POOL_BLOCK_SIZE /\ alloc_scan (blocks p) 0 = Some i.
Proof.
  unfold pool_alloc_exit.
  destruct ((size =? 0) || (size >? POOL_BLOCK_SIZE)) eqn:Hsz; [discriminate|].
  apply orb_false_iff in Hsz as [H0 H1].
  apply Z.eqb_neq in H0. rewrite Z.gtb_ltb in H1. apply Z.ltb_ge in H1.
  destruct (alloc_scan (blocks p) 0); [|discriminate].
  intros [= ->]. auto.
Qed.

Lemma pool_alloc_inv (p : MemoryPool) (size : Z) :
  pool_wf p -> pool_inv p -> pool_inv (fst (pool_alloc p size)).
Proof.
  intros Hwf Hinv. unfold pool_alloc.
  destruct (pool_alloc_exit p size) as [|i|] eqn:He; simpl; try exact Hinv.
  apply pool_alloc_exit_block in He as (_ & _ & Hs).
  destruct (alloc_scan_Some _ _ _ Hs) as (_ & (b & Hb & Hfree) & _).
  rewrite Nat.sub_0_r in Hb.
  apply (take_block_inv p i b Hwf Hinv Hb Hfree).
Qed.

Lemma pool_free_inv (p : MemoryPool) (ptr : Z) :
  pool_wf p -> pool_inv p -> pool_inv (fst (pool_free p ptr)).
Proof.
  intros Hwf Hinv. unfold pool_free.
  destruct (pool_free_exit p ptr) as [|i|i|] eqn:He; simpl; try exact Hinv.
  unfold pool_free_exit in He. destruct (ptr =? NULL); [discriminate|].
  destruct (free_scan_found (blocks p) 0 i ptr (or_introl He)) as (_ & _ & b & Hb & Hu).
  rewrite He in Hu. rewrite Nat.sub_0_r in Hb.
  apply (release_block_inv p i b Hwf Hinv Hb Hu).
Qed.

Lemma pool_step_inv (p : MemoryPool) (op : pool_op) :
  pool_wf p -> pool_inv p -> pool_inv (pool_step p op).
Proof.
  intros Hwf Hinv. rewrite pool_step_unfold.
  destruct op; auto using pool_alloc_inv, pool_free_inv, pool_reset_inv.
Qed.

Lemma g_memory_pool_inv : pool_inv g_memory_pool.
Proof. split; [reflexivity|]. simpl. unfold POOL_NUM_BLOCKS. lia. Qed.

Lemma pool_run_inv (p : MemoryPool) (ops : list pool_op) :
  pool_wf p -> pool_inv p -> pool_inv (pool_run p ops).
Proof.
  revert p. induction ops as [|op ops IH]; intros p Hwf Hinv; simpl; [exact Hinv|].
  apply IH; [apply pool_step_wf, Hwf|apply pool_step_inv; assumption].
Qed.

(** ** Addresses and single-byte accesses *)

Lemma ptr_add_small (a k : Z) : 0 <= a + k < SIZE_MOD -> ptr_add a k = a + k.
Proof. intros H. unfold ptr_add. apply Z.mod_small, H. Qed.

Lemma locate_block (i j : nat) :
  (i < Z.to_nat POOL_NUM_BLOCKS)%nat -> (j < Z.to_nat POOL_BLOCK_SIZE)%nat ->
  locate (block_data_addr i + Z.of_nat j) = Some (i, j).
Proof.
  intros Hi Hj. unfold locate, block_data_addr, BLOCK_STRIDE, POOL_NUM_BLOCKS,
    POOL_BLOCK_SIZE, POOL_BASE in *.
  replace (65536 + Z.of_nat i * (64 + 1) + Z.of_nat j - 65536)
    with (Z.of_nat j + Z.of_nat i * 65) by lia.
  rewrite Z_mod_plus_full, Z_div_plus_full by lia.
  rewrite Z.mod_small, Z.div_small by lia.
  rewrite !Nat2Z.id, Z.add_0_l, Nat2Z.id.
  replace (0 <=? Z.of_nat j + Z.of_nat i * 65) with true by (symmetry; apply Z.leb_le; lia).
  replace (Z.of_nat j + Z.of_nat i * 65 <? 32 * (64 + 1)) with true
    by (symmetry; apply Z.ltb_lt; lia).
  replace (Z.of_nat j <? 64) with true by (symmetry; apply Z.ltb_lt; lia).
  reflexivity.
Qed.

Lemma locate_inv (a : Z) (i j : nat) :
  locate a = Some (i, j) ->
  a = block_data_addr i + Z.of_nat j /\
  (i < Z.to_nat POOL_NUM_BLOCKS)%nat /\ (j < Z.to_nat POOL_BLOCK_SIZE)%nat.
Proof.
  unfold locate, block_data_addr, BLOCK_STRIDE, POOL_NUM_BLOCKS, POOL_BLOCK_SIZE, POOL_BASE.
  destruct (_ && _) eqn:Hc; [|discriminate].
  apply andb_true_iff in Hc as [Hc H3]. apply andb_true_iff in Hc as [H1 H2].
  apply Z.leb_le in H1. apply Z.ltb_lt in H2. apply Z.ltb_lt in H3.
  intros [= <- <-].
  pose proof (Z.div_mod (a - 65536) (64 + 1) ltac:(lia)) as Hdm.
  pose proof (Z.mod_pos_bound (a - 65536) (64 + 1) ltac:(lia)) as Hm.
  assert (0 <= (a - 65536) `div` (64 + 1) < 32) as Hd.
  { split; [apply Z.div_pos; lia|apply Z.div_lt_upper_bound; lia]. }
  rewrite !Z2Nat.id by lia. lia.
Qed.

Lemma locate_inj (a a' : Z) (ij : nat * nat) :
  locate a = Some ij -> locate a' = Some ij -> a = a'.
Proof.
  destruct ij as [i j]. intros H H'.
  apply locate_inv in H as [-> _]. apply locate_inv in H' as [-> _]. reflexivity.
Qed.

(** What a successful byte store does to the pool. *)
Lemma store8_inv (p p' : MemoryPool) (a v : Z) :
  store8 p a v = Some p' ->
  exists i j b,
    locate a = Some (i, j) /\ blocks p !! i = Some b /\ (j < length (data b))%nat /\
    p' = mkPool (<[i := mkBlock (<[j := v `mod` 256]> (data b)) (in_use b)]> (blocks p))
                (allocated_count p) (peak_usage p).
Proof.
  unfold store8. destruct (locate a) as [[i j]|] eqn:Hl; simpl; [|discriminate].
  destruct (blocks p !! i) as [b|] eqn:Hb; simpl; [|discriminate].
  destruct (data b !! j) as [old|] eqn:Hj; simpl; [|discriminate].
  intros [= <-]. exists i, j, b. repeat split; auto.
  eapply lookup_lt_Some; exact Hj.
Qed.

Lemma store8_mapped (p : MemoryPool) (a v : Z) :
  is_Some (load8 p a) -> is_Some (store8 p a v).
Proof.
  unfold load8, store8. destruct (locate a) as [[i j]|]; simpl; [|intros [? [=]]].
  destruct (blocks p !! i) as [b|]; simpl; [|intros [? [=]]].
  destruct (data b !! j); simpl; [eauto|intros [? [=]]].
Qed.

Lemma load8_store8 (p p' : MemoryPool) (a v a' : Z) :
  store8 p a v = Some p' ->
  load8 p' a' = if decide (a' = a) then Some (v `mod` 256) else load8 p a'.
Proof.
  intros H. apply store8_inv in H as (i & j & b & Hl & Hb & Hj & ->).
  pose proof (lookup_lt_Some _ _ _ Hb) as Hi.
  unfold load8. simpl. case_decide as Heq.
  - subst a'. rewrite Hl. simpl. rewrite list_lookup_insert_eq by exact Hi. simpl.
    apply list_lookup_insert_eq, Hj.
  - destruct (locate a') as [[i' j']|] eqn:Hl'; simpl; [|reflexivity].
    destruct (decide (i' = i)) as [->|Hne].
    + rewrite list_lookup_insert_eq by exact Hi. rewrite Hb. simpl.
      apply list_lookup_insert_ne. intros <-. apply Heq.
      eapply locate_inj; eauto.
    + rewrite list_lookup_insert_ne by congruence. reflexivity.
Qed.

Lemma store8_counters (p p' : MemoryPool) (a v : Z) :
  store8 p a v = Some p' ->
  allocated_count p' = allocated_count p /\ peak_usage p' = peak_usage p /\
  in_use <$> blocks p' = in_use <$> blocks p.
Proof.
  intros H. apply store8_inv in H as (i & j & b & Hl & Hb & Hj & ->). simpl.
  repeat split. rewrite list_fmap_insert. simpl.
  apply list_insert_id. rewrite list_lookup_fmap, Hb. reflexivity.
Qed.

Lemma store8_wf (p p' : MemoryPool) (a v : Z) :
  store8 p a v = Some p' -> pool_wf p -> pool_wf p'.
Proof.
  intros H [Hl Hd Hc Hp]. apply store8_inv in H as (i & j & b & _ & Hb & Hj & ->).
  split; simpl; auto.
  - rewrite length_insert. exact Hl.
  - apply Forall_insert; [exact Hd|]. simpl. rewrite length_insert.
    eapply Forall_lookup_1 in Hd; [exact Hd|exact Hb].
Qed.

(** ** Word accesses *)

Lemma SIZE_MOD_eq : SIZE_MOD = 18446744073709551616.
Proof. reflexivity. Qed.

Ltac unfold_layout :=
  unfold block_data_addr, BLOCK_STRIDE, POOL_BLOCK_SIZE, POOL_NUM_BLOCKS, POOL_BASE,
    GUARD_WIDTH, NULL in *;
  rewrite ?SIZE_MOD_eq in *.

Lemma store8_keeps_mapped (p p' : MemoryPool) (a v a' : Z) :
  store8 p a v = Some p' -> mapped p a' -> mapped p' a'.
Proof.
  intros H Hm. unfold mapped. rewrite (load8_store8 _ _ _ _ a' H).
  case_decide; [eauto|exact Hm].
Qed.

Lemma four_cases (k : Z) : 0 <= k < 4 -> k = 0 \/ k = 1 \/ k = 2 \/ k = 3.
Proof. lia. Qed.

Lemma store32_spec (p : MemoryPool) (a v : Z) :
  0 <= a -> a + 3 < SIZE_MOD ->
  (forall k, 0 <= k < 4 -> mapped p (a + k)) ->
  exists p',
    store32 p a v = Some p' /\
    (forall k, 0 <= k < 4 -> load8 p' (a + k) = Some ((v `div` 256 ^ k) `mod` 256)) /\
    (forall a', ~ (a <= a' < a + 4) -> load8 p' a' = load8 p a') /\
    allocated_count p' = allocated_count p /\ peak_usage p' = peak_usage p /\
    in_use <$> blocks p' = in_use <$> blocks p /\
    (pool_wf p -> pool_wf p').
Proof.
  intros Ha0 Ha3 Hm. unfold store32.
  rewrite !ptr_add_small by lia.
  destruct (store8_mapped p a v) as [p1 H1].
  { rewrite <- (Z.add_0_r a). apply Hm. lia. }
  destruct (store8_mapped p1 (a + 1) (v `div` 256)) as [p2 H2].
  { eapply store8_keeps_mapped; [exact H1|apply Hm; lia]. }
  destruct (store8_mapped p2 (a + 2) (v `div` 65536)) as [p3 H3].
  { eapply store8_keeps_mapped; [exact H2|].
    eapply store8_keeps_mapped; [exact H1|apply Hm; lia]. }
  destruct (store8_mapped p3 (a + 3) (v `div` 16777216)) as [p4 H4].
  { eapply store8_keeps_mapped; [exact H3|].
    eapply store8_keeps_mapped; [exact H2|].
    eapply store8_keeps_mapped; [exact H1|apply Hm; lia]. }
  rewrite H1. simpl. rewrite H2. simpl. rewrite H3. simpl. rewrite H4.
  exists p4. split; [reflexivity|].
  pose proof (fun a' => load8_store8 _ _ _ _ a' H1) as L1.
  pose proof (fun a' => load8_store8 _ _ _ _ a' H2) as L2.
  pose proof (fun a' => load8_store8 _ _ _ _ a' H3) as L3.
  pose proof (fun a' => load8_store8 _ _ _ _ a' H4) as L4.
  split; [|split].
  - intros k Hk. rewrite L4, L3, L2, L1.
    destruct (four_cases k Hk) as [-> | [-> | [-> | ->]]];
      repeat (case_decide; try lia); rewrite ?Z.add_0_r in *;
      try reflexivity; try congruence.
    rewrite Z.pow_0_r, Z.div_1_r. reflexivity.
  - intros a' Ha'. rewrite L4, L3, L2, L1.
    repeat (case_decide; try lia). reflexivity.
  - destruct (store8_counters _ _ _ _ H1) as (Hc1 & Hp1 & Hu1).
    destruct (store8_counters _ _ _ _ H2) as (Hc2 & Hp2 & Hu2).
    destruct (store8_counters _ _ _ _ H3) as (Hc3 & Hp3 & Hu3).
    destruct (store8_counters _ _ _ _ H4) as (Hc4 & Hp4 & Hu4).
    split; [congruence|]. split; [congruence|]. split; [congruence|].
    intros Hwf. eauto using store8_wf.
Qed.

Lemma load32_bytes (p : MemoryPool) (a b0 b1 b2 b3 : Z) :
  0 <= a -> a + 3 < SIZE_MOD ->
  load8 p a = Some b0 -> load8 p (a + 1) = Some b1 ->
  load8 p (a + 2) = Some b2 -> load8 p (a + 3) = Some b3 ->
  load32 p a = Some (b0 + 256 * b1 + 65536 * b2 + 16777216 * b3).
Proof.
  intros Ha0 Ha3 H0 H1 H2 H3. unfold load32.
  rewrite !ptr_add_small by lia. rewrite H0, H1, H2, H3. reflexivity.
Qed.

(** ** Markers *)

Lemma marker_load32 (p : MemoryPool) (a : Z) :
  0 <= a -> a + 3 < SIZE_MOD -> marker_at p a -> load32 p a = Some GUARD_PATTERN.
Proof.
  intros Ha0 Ha3 Hm.
  rewrite (load32_bytes p a (guard_byte 0) (guard_byte 1) (guard_byte 2) (guard_byte 3));
    try assumption; try (apply Hm; lia).
  - reflexivity.
  - rewrite <- (Z.add_0_r a). apply Hm. lia.
Qed.

Lemma guard_byte_0 : guard_byte 0 = 0xEF.
Proof. reflexivity. Qed.

Lemma guard_byte_1 : guard_byte 1 = 0xBE.
Proof. reflexivity. Qed.

Lemma guard_byte_2 : guard_byte 2 = 0xAD.
Proof. reflexivity. Qed.

Lemma guard_byte_3 : guard_byte 3 = 0xDE.
Proof. reflexivity. Qed.

(** One byte of a marker differs from the sentinel: the word read there is
    not the sentinel. *)
Lemma tampered_load32 (p : MemoryPool) (a k x : Z) :
  0 <= a -> a + 3 < SIZE_MOD ->
  0 <= k < 4 -> 0 <= x < 256 -> x <> guard_byte k ->
  load8 p (a + k) = Some x ->
  (forall k', 0 <= k' < 4 -> k' <> k -> load8 p (a + k') = Some (guard_byte k')) ->
  exists g, load32 p a = Some g /\ g <> GUARD_PATTERN.
Proof.
  intros Ha0 Ha3 Hk Hx Hne Hload Hrest.
  assert (forall k', 0 <= k' < 4 ->
            load8 p (a + k') = Some (if decide (k' = k) then x else guard_byte k')) as Hall.
  { intros k' Hk'. case_decide; [subst; exact Hload|apply Hrest; assumption]. }
  pose proof (Hall 0 ltac:(lia)) as H0. rewrite Z.add_0_r in H0.
  eexists. split.
  - apply load32_bytes; [assumption|assumption|exact H0|apply Hall; lia..].
  - change GUARD_PATTERN with 3735928559.
    destruct (four_cases k Hk) as [-> | [-> | [-> | ->]]];
      repeat (case_decide; try lia); rewrite ?guard_byte_0, ?guard_byte_1,
        ?guard_byte_2, ?guard_byte_3 in *; lia.
Qed.

(** ** Guarded buffers: creation *)

Lemma take_block_load8 (p : MemoryPool) (i : nat) (j : Z) :
  (i < length (blocks p))%nat -> (i < Z.to_nat POOL_NUM_BLOCKS)%nat ->
  0 <= j < POOL_BLOCK_SIZE ->
  load8 (take_block p i) (block_data_addr i + j) = Some 0.
Proof.
  intros Hi Hi' Hj. unfold load8.
  rewrite <- (Z2Nat.id j) by lia.
  rewrite locate_block by (unfold POOL_BLOCK_SIZE in *; lia). simpl.
  rewrite list_lookup_insert_eq by exact Hi. simpl.
  apply lookup_replicate_2. unfold POOL_BLOCK_SIZE in *. lia.
Qed.

Lemma create_guarded_buffer_spec (p : MemoryPool) (size : Z) :
  pool_wf p -> 0 < size <= POOL_BLOCK_SIZE - 2 * GUARD_WIDTH ->
  match alloc_scan (blocks p) 0 with
  | None => create_guarded_buffer p size = Some (p, NULL)
  | Some i =>
      exists p', create_guarded_buffer p size = Some (p', block_data_addr i + GUARD_WIDTH) /\
                 guarded p' (block_data_addr i + GUARD_WIDTH) size /\
                 pool_wf p' /\
                 allocated_count p' = allocated_count (take_block p i) /\
                 peak_usage p' = peak_usage (take_block p i) /\
                 in_use <$> blocks p' = in_use <$> blocks (take_block p i)
  end.
Proof.
  intros Hwf Hsize. unfold create_guarded_buffer.
  assert ((size =? 0) = false) as -> by (apply Z.eqb_neq; lia).
  assert ((GUARD_WIDTH + size + GUARD_WIDTH) `mod` SIZE_MOD = size + 8) as ->.
  { unfold_layout. rewrite Z.mod_small by lia. lia. }
  unfold pool_alloc, pool_alloc_exit.
  assert (((size + 8 =? 0) || (size + 8 >? POOL_BLOCK_SIZE)) = false) as ->.
  { apply orb_false_iff. split; [apply Z.eqb_neq; lia|].
    rewrite Z.gtb_ltb. apply Z.ltb_ge. unfold_layout. lia. }
  destruct (alloc_scan (blocks p) 0) as [i|] eqn:Hscan; [|reflexivity].
  pose proof (alloc_scan_lt _ _ Hscan) as Hi.
  pose proof (wf_blocks _ Hwf) as Hlen.
  assert ((block_data_addr i =? NULL) = false) as ->.
  { apply Z.eqb_neq. unfold_layout. lia. }
  assert (Z.of_nat i < 32) as Hi32 by (unfold POOL_NUM_BLOCKS in Hlen; lia).
  (* buffer->guard_start = GUARD_PATTERN *)
  destruct (store32_spec (take_block p i) (block_data_addr i) GUARD_PATTERN)
    as (p2 & H2 & Hset2 & Hkeep2 & Hc2 & Hp2 & Hu2 & Hwf2).
  { unfold_layout. lia. }
  { unfold_layout. lia. }
  { intros k Hk. unfold mapped. rewrite take_block_load8; eauto; [lia|].
    unfold POOL_BLOCK_SIZE. lia. }
  rewrite H2. simpl.
  assert (ptr_add (block_data_addr i) GUARD_WIDTH = block_data_addr i + GUARD_WIDTH) as ->.
  { apply ptr_add_small. unfold_layout. lia. }
  assert (ptr_add (block_data_addr i + GUARD_WIDTH) size
          = block_data_addr i + GUARD_WIDTH + size) as ->.
  { apply ptr_add_small. unfold_layout. lia. }
  assert (forall j, 0 <= j < POOL_BLOCK_SIZE -> mapped p2 (block_data_addr i + j)) as Hm2.
  { intros j Hj. unfold mapped.
    destruct (decide (0 <= j < 4)) as [Hin|Hout].
    - rewrite (Hset2 j Hin). eauto.
    - rewrite Hkeep2 by lia. rewrite take_block_load8; eauto. lia. }
  (* *guard_end = GUARD_PATTERN *)
  destruct (store32_spec p2 (block_data_addr i + GUARD_WIDTH + size) GUARD_PATTERN)
    as (p3 & H3 & Hset3 & Hkeep3 & Hc3 & Hp3 & Hu3 & Hwf3).
  { unfold_layout. lia. }
  { unfold_layout. lia. }
  { intros k Hk. rewrite <- !Z.add_assoc. apply Hm2. unfold_layout. lia. }
  rewrite H3. simpl. exists p3. split; [reflexivity|].
  split; [|split; [auto using take_block_wf|]].
  2:{ split; [rewrite Hc3; exact Hc2|]. split; [rewrite Hp3; exact Hp2|].
      rewrite Hu3. exact Hu2. }
  split.
  - exists i. split; [lia|reflexivity].
  - exact Hsize.
  - intros off Hoff. unfold mapped.
    destruct (decide (size <= off < size + 4)) as [Hin|Hout].
    + replace (block_data_addr i + GUARD_WIDTH + off)
        with (block_data_addr i + GUARD_WIDTH + size + (off - size)) by lia.
      rewrite Hset3 by lia. eauto.
    + rewrite Hkeep3 by (unfold_layout; lia).
      rewrite <- Z.add_assoc. apply Hm2. unfold_layout. lia.
  - intros k Hk. rewrite Hkeep3 by (unfold_layout; lia).
    replace (block_data_addr i + GUARD_WIDTH - GUARD_WIDTH + k)
      with (block_data_addr i + k) by lia.
    apply Hset2, Hk.
  - intros k Hk. apply Hset3, Hk.
Qed.

(** ** Guarded buffers: the integrity check *)

Lemma guarded_bounds (p : MemoryPool) (h size : Z) :
  guarded p h size ->
  POOL_BASE + GUARD_WIDTH <= h /\ h + size + GUARD_WIDTH < SIZE_MOD /\ 0 < size.
Proof.
  intros [(i & Hi & ->) Hsize _ _ _]. unfold_layout. lia.
Qed.

Lemma guarded_check (p : MemoryPool) (h size : Z) :
  guarded p h size -> check_buffer_integrity p h size = Some true.
Proof.
  intros G. pose proof (guarded_bounds _ _ _ G) as (Hlo & Hhi & Hpos).
  destruct G as [_ _ _ Hstart Hend].
  unfold check_buffer_integrity.
  assert (((h =? NULL) || (size =? 0)) = false) as ->.
  { apply orb_false_iff. split; apply Z.eqb_neq; unfold_layout; lia. }
  rewrite !ptr_add_small by (unfold_layout; lia).
  replace (h + - GUARD_WIDTH) with (h - GUARD_WIDTH) by lia.
  rewrite (marker_load32 p (h - GUARD_WIDTH))
    by (try exact Hstart; unfold_layout; lia). simpl.
  rewrite (marker_load32 p (h + size)) by (try exact Hend; unfold_layout; lia).
  reflexivity.
Qed.

(** A write inside the payload leaves the buffer as it was around it. *)
Lemma guarded_write_inside (p : MemoryPool) (h size off v : Z) :
  guarded p h size -> 0 <= off < size ->
  exists p', store8 p (ptr_add h off) v = Some p' /\ guarded p' h size.
Proof.
  intros G Hoff. pose proof (guarded_bounds _ _ _ G) as (Hlo & Hhi & Hpos).
  destruct G as [Hblock Hsize Hmap Hstart Hend].
  rewrite ptr_add_small by (unfold_layout; lia).
  destruct (store8_mapped p (h + off) v) as [p' Hp'].
  { apply Hmap. unfold_layout. lia. }
  exists p'. split; [exact Hp'|]. split; auto.
  - intros o Ho. eapply store8_keeps_mapped; eauto.
  - intros k Hk. rewrite (load8_store8 _ _ _ _ _ Hp').
    case_decide; [unfold_layout; lia|]. apply Hstart, Hk.
  - intros k Hk. rewrite (load8_store8 _ _ _ _ _ Hp').
    case_decide; [lia|]. apply Hend, Hk.
Qed.

Lemma guarded_write_bytes (ws : list (Z * Z)) (p : MemoryPool) (h size : Z) :
  guarded p h size -> Forall (fun w => 0 <= w.1 < size) ws ->
  exists p', write_bytes p h ws = Some p' /\ guarded p' h size.
Proof.
  revert p. induction ws as [|[off v] ws IH]; intros p G Hws; simpl.
  - exists p. split; [reflexivity|exact G].
  - inversion Hws as [|? ? Hw Hws']; subst. simpl in Hw.
    destruct (guarded_write_inside p h size off v G Hw) as (p1 & H1 & G1).
    rewrite H1. simpl. apply IH; assumption.
Qed.

(** A write into a marker that changes the byte there is detected. *)
Lemma guarded_write_marker (p : MemoryPool) (h size off v : Z) :
  guarded p h size ->
  - GUARD_WIDTH <= off < 0 \/ size <= off < size + GUARD_WIDTH ->
  v `mod` 256 <> guard_byte (marker_index size off) ->
  exists q, store8 p (ptr_add h off) v = Some q /\
            check_buffer_integrity q h size = Some false.
Proof.
  intros G Hoff Hv. pose proof (guarded_bounds _ _ _ G) as (Hlo & Hhi & Hpos).
  destruct G as [Hblock Hsize Hmap Hstart Hend].
  rewrite ptr_add_small by (unfold_layout; lia).
  destruct (store8_mapped p (h + off) v) as [q Hq].
  { apply Hmap. unfold_layout. lia. }
  exists q. split; [exact Hq|].
  pose proof (fun a => load8_store8 _ _ _ _ a Hq) as L.
  pose proof (Z.mod_pos_bound v 256 ltac:(lia)) as Hbyte.
  unfold check_buffer_integrity.
  assert (((h =? NULL) || (size =? 0)) = false) as ->.
  { apply orb_false_iff. split; apply Z.eqb_neq; unfold_layout; lia. }
  rewrite !ptr_add_small by (unfold_layout; lia).
  replace (h + - GUARD_WIDTH) with (h - GUARD_WIDTH) by lia.
  unfold marker_index in Hv.
  destruct Hoff as [Hoff|Hoff].
  - (* the start marker *)
    assert ((off <? 0) = true) as Hneg by (apply Z.ltb_lt; lia). rewrite Hneg in Hv.
    destruct (tampered_load32 q (h - GUARD_WIDTH) (off + GUARD_WIDTH) (v `mod` 256))
      as (g & Hg & Hne); try assumption; try (unfold_layout; lia).
    + rewrite L. case_decide; [reflexivity|unfold_layout; lia].
    + intros k' Hk' Hkk. rewrite L. case_decide; [unfold_layout; lia|].
      apply Hstart, Hk'.
    + rewrite Hg. simpl. apply Z.eqb_neq in Hne. rewrite Hne. reflexivity.
  - (* the end marker *)
    assert ((off <? 0) = false) as Hneg by (apply Z.ltb_ge; lia). rewrite Hneg in Hv.
    assert (marker_at q (h - GUARD_WIDTH)) as Hstart'.
    { intros k Hk. rewrite L. case_decide; [unfold_layout; lia|]. apply Hstart, Hk. }
    rewrite (marker_load32 q (h - GUARD_WIDTH))
      by (try exact Hstart'; unfold_layout; lia). simpl.
    destruct (tampered_load32 q (h + size) (off - size) (v `mod` 256))
      as (g & Hg & Hne); try assumption; try (unfold_layout; lia).
    + rewrite L. case_decide; [reflexivity|lia].
    + intros k' Hk' Hkk. rewrite L. case_decide; [lia|]. apply Hend, Hk'.
    + rewrite Hg. simpl. apply Z.eqb_neq in Hne. rewrite Hne. reflexivity.
Qed.

(** The check answers true only when both words it reads are the sentinel. *)
Lemma check_true_only_if (p : MemoryPool) (ptr size : Z) :
  check_buffer_integrity p ptr size = Some true ->
  ptr <> NULL /\ size <> 0 /\
  load32 p (ptr_add ptr (- GUARD_WIDTH)) = Some GUARD_PATTERN /\
  load32 p (ptr_add ptr size) = Some GUARD_PATTERN.
Proof.
  unfold check_buffer_integrity.
  destruct ((ptr =? NULL) || (size =? 0)) eqn:Hnull; [discriminate|].
  apply orb_false_iff in Hnull as [Hp Hs].
  apply Z.eqb_neq in Hp. apply Z.eqb_neq in Hs.
  destruct (load32 p (ptr_add ptr (- GUARD_WIDTH))) as [g1|]; simpl; [|discriminate].
  destruct (g1 =? GUARD_PATTERN) eqn:H1; [|discriminate].
  apply Z.eqb_eq in H1. subst g1.
  destruct (load32 p (ptr_add ptr size)) as [g2|]; simpl; [|discriminate].
  intros [= H2]. apply Z.eqb_eq in H2. subst g2. auto.
Qed.

(** * The block pool *)

Lemma pool_alloc_exit_invalid (p : MemoryPool) (size : Z) :
  pool_alloc_exit p size = AllocInvalidSize <-> size = 0 \/ size > POOL_BLOCK_SIZE.
Proof.
  unfold pool_alloc_exit.
  destruct ((size =? 0) || (size >? POOL_BLOCK_SIZE)) eqn:Hsz.
  - apply orb_true_iff in Hsz as [H|H].
    + apply Z.eqb_eq in H. tauto.
    + rewrite Z.gtb_ltb in H. apply Z.ltb_lt in H. split; [lia|reflexivity].
  - apply orb_false_iff in Hsz as [H0 H1].
    apply Z.eqb_neq in H0. rewrite Z.gtb_ltb in H1. apply Z.ltb_ge in H1.
    destruct (alloc_scan (blocks p) 0); (split; [discriminate|lia]).
Qed.

Lemma pool_alloc_exit_exhausted (p : MemoryPool) (size : Z) :
  pool_alloc_exit p size = AllocExhausted <->
  ~ (size = 0 \/ size > POOL_BLOCK_SIZE) /\ Forall (fun b => in_use b = true) (blocks p).
Proof.
  pose proof (pool_alloc_exit_invalid p size) as Hinv.
  pose proof (alloc_scan_None (blocks p) 0) as Hnone.
  unfold pool_alloc_exit in *.
  destruct ((size =? 0) || (size >? POOL_BLOCK_SIZE)).
  - split; [discriminate|]. intros [H _]. exfalso. apply H, Hinv. reflexivity.
  - destruct (alloc_scan (blocks p) 0) as [k|].
    + split; [discriminate|]. intros [_ H]. apply Hnone in H. discriminate H.
    + split; [|reflexivity]. intros _. split; [|apply Hnone; reflexivity].
      intros H. apply Hinv in H. discriminate H.
Qed.

(** C3: [pool_alloc] leaves by its invalid-size return exactly when
    [size == 0] or [size > 64], and by its exhausted return exactly when the
    size is valid and every block is in use; both return NULL and leave the
    pool as it was.  Otherwise it returns the data address of the first block
    (lowest index) whose in-use flag is clear, that block becomes in use with
    all 64 bytes zero, the other blocks are untouched, [allocated_count] grows
    by one and [peak_usage] becomes the new count when that is larger. *)
Theorem pool_alloc_contract (p : MemoryPool) (size : Z) :
  pool_wf p -> pool_inv p ->
  (pool_alloc_exit p size = AllocInvalidSize <-> size = 0 \/ size > POOL_BLOCK_SIZE) /\
  (pool_alloc_exit p size = AllocExhausted <->
     ~ (size = 0 \/ size > POOL_BLOCK_SIZE) /\
     Forall (fun b => in_use b = true) (blocks p)) /\
  (pool_alloc_exit p size = AllocInvalidSize \/ pool_alloc_exit p size = AllocExhausted ->
     pool_alloc p size = (p, NULL)) /\
  (~ (size = 0 \/ size > POOL_BLOCK_SIZE) ->
   ~ Forall (fun b => in_use b = true) (blocks p) ->
     exists i, pool_alloc_exit p size = AllocBlock i) /\
  (forall i, pool_alloc_exit p size = AllocBlock i ->
     (exists b, blocks p !! i = Some b /\ in_use b = false) /\
     (forall j b, (j < i)%nat -> blocks p !! j = Some b -> in_use b = true) /\
     snd (pool_alloc p size) = block_data_addr i /\
     blocks (fst (pool_alloc p size)) = <[i := mkBlock zero_data true]> (blocks p) /\
     zero_data = replicate 64 0 /\
     allocated_count (fst (pool_alloc p size)) = allocated_count p + 1 /\
     peak_usage (fst (pool_alloc p size)) =
       (if allocated_count p + 1 >? peak_usage p
        then allocated_count p + 1 else peak_usage p)).
Proof.
  intros Hwf Hinv.
  split; [apply pool_alloc_exit_invalid|].
  split; [apply pool_alloc_exit_exhausted|].
  split; [unfold pool_alloc; intros [-> | ->]; reflexivity|].
  split.
  - intros Hvalid Hsome.
    destruct (pool_alloc_exit p size) as [|i|] eqn:He; [| exists i; reflexivity |].
    + exfalso. apply Hvalid. apply (proj1 (pool_alloc_exit_invalid p size)), He.
    + exfalso. apply Hsome. apply (proj1 (pool_alloc_exit_exhausted p size)) in He. tauto.
  - intros i He. unfold pool_alloc. rewrite He. simpl.
    apply pool_alloc_exit_block in He as (_ & _ & Hs).
    destruct (alloc_scan_Some _ _ _ Hs) as (_ & (b & Hb & Hfree) & Hbefore).
    rewrite Nat.sub_0_r in Hb, Hbefore.
    destruct (take_block_inv p i b Hwf Hinv Hb Hfree) as [_ Hcount].
    unfold take_block in Hcount. simpl in Hcount. rewrite Hcount.
    repeat split; eauto.
Qed.

Lemma pool_alloc_contract_witness :
  pool_wf g_memory_pool /\ pool_inv g_memory_pool /\
  pool_alloc_exit g_memory_pool 32 = AllocBlock 0 /\
  snd (pool_alloc g_memory_pool 32) = block_data_addr 0 /\
  allocated_count (fst (pool_alloc g_memory_pool 32)) = 1.
Proof.
  split; [exact g_memory_pool_wf|]. split; [exact g_memory_pool_inv|].
  split; [reflexivity|].
  destruct (pool_alloc_contract g_memory_pool 32 g_memory_pool_wf g_memory_pool_inv)
    as (_ & _ & _ & _ & H).
  destruct (H 0%nat eq_refl) as (_ & _ & Hptr & _ & _ & Hcount & _).
  split; [exact Hptr|exact Hcount].
Defined.

Lemma pool_free_on_free_block (p : MemoryPool) (ptr : Z) (i : nat) (b : MemoryBlock) :
  blocks p !! i = Some b -> in_use b = false ->
  block_data_addr i <= ptr < block_data_addr i + POOL_BLOCK_SIZE ->
  pool_free_exit p ptr = FreeDoubleFree i /\ pool_free p ptr = (p, false).
Proof.
  intros Hb Hfree Hptr.
  assert (pool_free_exit p ptr = FreeDoubleFree i) as He.
  { unfold pool_free_exit.
    assert ((ptr =? NULL) = false) as -> by (apply Z.eqb_neq; unfold_layout; lia).
    rewrite (free_scan_hit (blocks p) 0 i b ptr); [rewrite Hfree; reflexivity|lia| |exact Hptr].
    rewrite Nat.sub_0_r. exact Hb. }
  split; [exact He|]. unfold pool_free. rewrite He. reflexivity.
Qed.

(** C4: when the handle lies in the data range of a block whose in-use flag
    is clear, [pool_free] leaves through its double-free [break], returns
    false and hands back the very same pool: [allocated_count], [peak_usage],
    the in-use flags and the block contents are those it was given. *)
Theorem pool_free_double_free (p : MemoryPool) (ptr : Z) (i : nat) (b : MemoryBlock) :
  blocks p !! i = Some b -> in_use b = false ->
  block_data_addr i <= ptr < block_data_addr i + POOL_BLOCK_SIZE ->
  pool_free_exit p ptr = FreeDoubleFree i /\
  snd (pool_free p ptr) = false /\
  allocated_count (fst (pool_free p ptr)) = allocated_count p /\
  peak_usage (fst (pool_free p ptr)) = peak_usage p /\
  blocks (fst (pool_free p ptr)) = blocks p.
Proof.
  intros Hb Hfree Hptr.
  destruct (pool_free_on_free_block p ptr i b Hb Hfree Hptr) as [He ->].
  auto.
Qed.

Lemma pool_free_double_free_witness :
  pool_free_exit g_memory_pool (block_data_addr 3 + 10) = FreeDoubleFree 3 /\
  snd (pool_free g_memory_pool (block_data_addr 3 + 10)) = false /\
  blocks (fst (pool_free g_memory_pool (block_data_addr 3 + 10))) = blocks g_memory_pool.
Proof.
  destruct (pool_free_double_free g_memory_pool (block_data_addr 3 + 10) 3
              (mkBlock zero_data false)) as (He & Hr & _ & _ & Hb).
  - reflexivity.
  - reflexivity.
  - unfold block_data_addr, POOL_BLOCK_SIZE. lia.
  - auto.
Defined.

(** C5: the pool invariant ([allocated_count] is the number of blocks in use
    and lies in [0, 32]) holds of the initial pool, is kept by every call of
    allocate, release, stats and reset, and so holds after any sequence of
    calls from the initial pool. *)
Theorem pool_invariant_preserved :
  pool_inv g_memory_pool /\
  (forall p op, pool_wf p -> pool_inv p -> pool_inv (pool_step p op)) /\
  (forall ops, pool_inv (pool_run g_memory_pool ops)).
Proof.
  split; [exact g_memory_pool_inv|]. split.
  - intros p op. apply pool_step_inv.
  - intros ops. apply pool_run_inv; [exact g_memory_pool_wf|exact g_memory_pool_inv].
Qed.

Lemma pool_invariant_preserved_witness :
  pool_wf g_memory_pool /\ pool_inv g_memory_pool /\
  pool_inv (pool_step g_memory_pool (OpAlloc 32)).
Proof.
  split; [exact g_memory_pool_wf|]. split; [exact g_memory_pool_inv|].
  destruct pool_invariant_preserved as (_ & Hstep & _).
  exact (Hstep g_memory_pool (OpAlloc 32) g_memory_pool_wf g_memory_pool_inv).
Defined.

Lemma pool_step_peak (p : MemoryPool) (op : pool_op) :
  peak_usage p <= peak_usage (pool_step p op).
Proof.
  rewrite pool_step_unfold. destruct op; simpl; try lia.
  - unfold pool_alloc. destruct (pool_alloc_exit p size); simpl; try lia.
    destruct (_ >? _) eqn:H; [|lia].
    rewrite Z.gtb_ltb in H. apply Z.ltb_lt in H. lia.
  - unfold pool_free. destruct (pool_free_exit p ptr); simpl; lia.
Qed.

(** C6: no pool operation lowers [peak_usage], so it never decreases along
    any sequence of operations from any state; [pool_reset] sets
    [allocated_count] to zero and leaves [peak_usage] as it was. *)
Theorem peak_usage_monotone :
  (forall p op, peak_usage p <= peak_usage (pool_step p op)) /\
  (forall ops p, peak_usage p <= peak_usage (pool_run p ops)) /\
  (forall p, allocated_count (pool_reset p) = 0 /\
             peak_usage (pool_reset p) = peak_usage p).
Proof.
  split; [exact pool_step_peak|]. split.
  - induction ops as [|op ops IH]; intros p; simpl; [lia|].
    etrans; [apply (pool_step_peak p op)|apply IH].
  - intros p. split; reflexivity.
Qed.

(** C10: the failures of the pool interface cannot be told apart by the
    value returned.  [pool_alloc] returns NULL for an invalid size and for an
    exhausted pool alike; [pool_free] returns false for a null handle, for a
    handle outside every block's data range and for a double free alike.  The
    pool is returned as it was in each of these cases. *)
Theorem pool_failures_indistinguishable (p : MemoryPool) :
  (forall size, size = 0 \/ size > POOL_BLOCK_SIZE -> pool_alloc p size = (p, NULL)) /\
  (forall size, Forall (fun b => in_use b = true) (blocks p) ->
                pool_alloc p size = (p, NULL)) /\
  pool_free p NULL = (p, false) /\
  (forall ptr,
     (forall k, (k < length (blocks p))%nat ->
                ~ (block_data_addr k <= ptr < block_data_addr k + POOL_BLOCK_SIZE)) ->
     pool_free p ptr = (p, false)) /\
  (forall ptr i b,
     blocks p !! i = Some b -> in_use b = false ->
     block_data_addr i <= ptr < block_data_addr i + POOL_BLOCK_SIZE ->
     pool_free p ptr = (p, false)).
Proof.
  split; [|split; [|split; [|split]]].
  - intros size Hsz. apply (proj2 (pool_alloc_exit_invalid p size)) in Hsz.
    unfold pool_alloc. rewrite Hsz. reflexivity.
  - intros size Hall. unfold pool_alloc.
    destruct (pool_alloc_exit p size) as [|i|] eqn:He; try reflexivity.
    apply pool_alloc_exit_block in He as (_ & _ & Hs).
    apply (alloc_scan_None (blocks p) 0) in Hall. congruence.
  - reflexivity.
  - intros ptr Hout. unfold pool_free, pool_free_exit.
    destruct (ptr =? NULL); [reflexivity|].
    rewrite free_scan_miss; [reflexivity|]. intros k Hk. apply Hout. lia.
  - intros ptr i b Hb Hfree Hptr.
    apply (pool_free_on_free_block p ptr i b Hb Hfree Hptr).
Qed.

Lemma pool_failures_indistinguishable_witness :
  pool_alloc g_memory_pool 0 = (g_memory_pool, NULL) /\
  pool_alloc g_memory_pool 65 = (g_memory_pool, NULL) /\
  pool_alloc (pool_run g_memory_pool (replicate 32 (OpAlloc 8))) 8
    = (pool_run g_memory_pool (replicate 32 (OpAlloc 8)), NULL) /\
  pool_free g_memory_pool NULL = (g_memory_pool, false) /\
  pool_free g_memory_pool 1 = (g_memory_pool, false) /\
  pool_free g_memory_pool (block_data_addr 0) = (g_memory_pool, false).
Proof.
  destruct (pool_failures_indistinguishable g_memory_pool)
    as (Hinvalid & _ & Hnull & Hout & Hdouble).
  destruct (pool_failures_indistinguishable
              (pool_run g_memory_pool (replicate 32 (OpAlloc 8))))
    as (_ & Hfull & _).
  split; [apply Hinvalid; left; reflexivity|].
  split; [apply Hinvalid; right; reflexivity|].
  split; [apply Hfull; vm_compute; repeat constructor|].
  split; [exact Hnull|].
  split.
  - apply Hout. intros k Hk. unfold block_data_addr, BLOCK_STRIDE, POOL_BLOCK_SIZE, POOL_BASE.
    lia.
  - apply (Hdouble (block_data_addr 0) 0%nat (mkBlock zero_data false)).
    + reflexivity.
    + reflexivity.
    + unfold block_data_addr, POOL_BLOCK_SIZE. lia.
Defined.

(** * Guarded buffers *)

(** Sizes too large for a block whose sum with the two marker widths does not
    wrap around are refused, and the pool is left as it was. *)
Lemma create_guarded_buffer_too_large (p : MemoryPool) (size : Z) :
  POOL_BLOCK_SIZE - 2 * GUARD_WIDTH < size <= SIZE_MAX - 2 * GUARD_WIDTH ->
  create_guarded_buffer p size = Some (p, NULL).
Proof.
  intros Hsize. unfold create_guarded_buffer.
  assert ((size =? 0) = false) as -> by (apply Z.eqb_neq; unfold_layout; lia).
  unfold pool_alloc.
  rewrite (proj2 (pool_alloc_exit_invalid p _)); [reflexivity|].
  unfold SIZE_MAX in Hsize. unfold_layout.
  destruct (decide (size = 18446744073709551616 - 8)) as [->|Hne].
  - left. reflexivity.
  - right. rewrite Z.mod_small by lia. lia.
Qed.

(** C1 (as amended): for a payload size whose sum with the two marker widths
    does not wrap around ([0 < size <= SIZE_MAX - 8]), creation returns; when
    it returns a handle, the integrity check is true right after creation and
    after any sequence of byte writes at payload offsets in [0, size); from
    any such state, a byte write into either marker (offsets [-4, 0) and
    [size, size + 4)) that changes the byte stored there makes the check
    false.  For every pool, pointer and size, the check is true only if the
    word before the payload and the word at payload offset [size] both equal
    0xDEADBEEF. *)
Theorem guarded_buffer_integrity (p : MemoryPool) (size : Z) :
  pool_wf p -> 0 < size <= SIZE_MAX - 2 * GUARD_WIDTH ->
  (exists p' h,
     create_guarded_buffer p size = Some (p', h) /\
     (h <> NULL ->
      check_buffer_integrity p' h size = Some true /\
      forall ws, Forall (fun w => 0 <= w.1 < size) ws ->
        exists q,
          write_bytes p' h ws = Some q /\
          check_buffer_integrity q h size = Some true /\
          forall off v,
            - GUARD_WIDTH <= off < 0 \/ size <= off < size + GUARD_WIDTH ->
            v `mod` 256 <> guard_byte (marker_index size off) ->
            exists q', store8 q (ptr_add h off) v = Some q' /\
                       check_buffer_integrity q' h size = Some false)) /\
  (forall q ptr sz,
     check_buffer_integrity q ptr sz = Some true ->
     load32 q (ptr_add ptr (- GUARD_WIDTH)) = Some GUARD_PATTERN /\
     load32 q (ptr_add ptr sz) = Some GUARD_PATTERN).
Proof.
  intros Hwf Hrange. split.
  - destruct (decide (size <= POOL_BLOCK_SIZE - 2 * GUARD_WIDTH)) as [Hfit|Hbig].
    2:{ exists p, NULL. split; [apply create_guarded_buffer_too_large; lia|].
        intros H. exfalso. apply H. reflexivity. }
    assert (0 < size <= POOL_BLOCK_SIZE - 2 * GUARD_WIDTH) as Hsize by lia.
    pose proof (create_guarded_buffer_spec p size Hwf Hsize) as Hc.
    destruct (alloc_scan (blocks p) 0) as [i|].
    + destruct Hc as (p' & Hcreate & G & _).
      exists p', (block_data_addr i + GUARD_WIDTH). split; [exact Hcreate|].
      intros _. split; [apply guarded_check, G|].
      intros ws Hws.
      destruct (guarded_write_bytes ws p' _ size G Hws) as (q & Hq & Gq).
      exists q. split; [exact Hq|]. split; [apply guarded_check, Gq|].
      intros off v Hoff Hv. apply (guarded_write_marker q _ size off v Gq Hoff Hv).
    + exists p, NULL. split; [exact Hc|]. intros H. exfalso. apply H. reflexivity.
  - intros q ptr sz H. apply check_true_only_if in H. tauto.
Qed.

Lemma guarded_buffer_integrity_witness :
  pool_wf g_memory_pool /\ 0 < 16 <= SIZE_MAX - 2 * GUARD_WIDTH /\
  exists p' h, create_guarded_buffer g_memory_pool 16 = Some (p', h).
Proof.
  split; [exact g_memory_pool_wf|].
  assert (0 < 16 <= SIZE_MAX - 2 * GUARD_WIDTH) as Hsize
    by (unfold SIZE_MAX, GUARD_WIDTH; rewrite SIZE_MOD_eq; lia).
  split; [exact Hsize|].
  destruct (guarded_buffer_integrity g_memory_pool 16 g_memory_pool_wf Hsize)
    as [(p' & h & Hcreate & _) _].
  exists p', h. exact Hcreate.
Defined.

(** C1 as stated fails: a write that touches byte [size] (the first byte of
    the end marker) or byte [-1] (the last byte of the start marker) and
    stores the value the sentinel already has there is not detected. *)
Lemma marker_write_undetected :
  exists p h q1 q2,
    create_guarded_buffer g_memory_pool 16 = Some (p, h) /\ h <> NULL /\
    store8 p (ptr_add h 16) 0xEF = Some q1 /\
    check_buffer_integrity q1 h 16 = Some true /\
    store8 p (ptr_add h (-1)) 0xDE = Some q2 /\
    check_buffer_integrity q2 h 16 = Some true.
Proof.
  do 4 eexists.
  split; [vm_compute; reflexivity|].
  split; [discriminate|].
  split; [vm_compute; reflexivity|].
  split; [vm_compute; reflexivity|].
  split; [vm_compute; reflexivity|].
  vm_compute; reflexivity.
Qed.

(** * Releasing a guarded buffer *)

Lemma free_guarded_buffer_corrupted (p : MemoryPool) (ptr size : Z) :
  check_buffer_integrity p ptr size = Some false ->
  free_guarded_buffer p ptr size = Some (p, negb (ptr =? NULL)).
Proof.
  intros H. unfold free_guarded_buffer. destruct (ptr =? NULL); [reflexivity|].
  rewrite H. reflexivity.
Qed.

Lemma free_guarded_buffer_intact (p : MemoryPool) (ptr size : Z) :
  check_buffer_integrity p ptr size = Some true ->
  free_guarded_buffer p ptr size =
  Some (fst (pool_free p (ptr_add ptr (- GUARD_WIDTH))), false).
Proof.
  intros H. unfold free_guarded_buffer.
  destruct (check_true_only_if _ _ _ H) as (Hnull & _).
  apply Z.eqb_neq in Hnull. rewrite Hnull, H. reflexivity.
Qed.

Lemma pool_free_in_use (p : MemoryPool) (ptr : Z) (i : nat) (b : MemoryBlock) :
  pool_wf p -> pool_inv p ->
  blocks p !! i = Some b -> in_use b = true ->
  block_data_addr i <= ptr < block_data_addr i + POOL_BLOCK_SIZE ->
  pool_free p ptr = (release_block p i, true) /\
  blocks (release_block p i) !! i = Some (mkBlock zero_data false) /\
  allocated_count (release_block p i) = allocated_count p - 1 /\
  peak_usage (release_block p i) = peak_usage p.
Proof.
  intros Hwf Hinv Hb Hused Hptr.
  assert (pool_free_exit p ptr = FreeReleased i) as He.
  { unfold pool_free_exit.
    assert ((ptr =? NULL) = false) as -> by (apply Z.eqb_neq; unfold_layout; lia).
    rewrite (free_scan_hit (blocks p) 0 i b);
      [rewrite Hused; reflexivity|lia| |exact Hptr].
    rewrite Nat.sub_0_r. exact Hb. }
  unfold pool_free. rewrite He. split; [reflexivity|].
  split; [|split; [apply (release_block_inv p i b Hwf Hinv Hb Hused)|reflexivity]].
  simpl. apply list_lookup_insert_eq. eapply lookup_lt_Some; exact Hb.
Qed.

Lemma pool_reset_all_free (p : MemoryPool) :
  Forall (fun b => b = mkBlock zero_data false) (blocks (pool_reset p)).
Proof.
  unfold pool_reset. simpl. apply Forall_map, Forall_forall. reflexivity.
Qed.

(** C2 (as amended): [free_guarded_buffer] decides by the integrity check.
    When the check fails the pool comes back exactly as it was (the warning
    is printed unless the pointer is null), so the guarded free never returns
    a corrupted buffer to the pool.  When the check passes it calls
    [pool_free] on the block start; for the handle of a block in use this
    clears the in-use flag, zero-fills the block and decrements
    [allocated_count].  The pool's own operations do not consult the markers:
    [pool_free] on a pointer into a block in use releases it, and
    [pool_reset] frees every block, whatever the integrity check says. *)
Theorem free_guarded_buffer_contract (p : MemoryPool) (ptr size : Z) :
  (check_buffer_integrity p ptr size = Some false ->
     free_guarded_buffer p ptr size = Some (p, negb (ptr =? NULL))) /\
  (check_buffer_integrity p ptr size = Some true ->
     free_guarded_buffer p ptr size =
       Some (fst (pool_free p (ptr_add ptr (- GUARD_WIDTH))), false)) /\
  (forall i b,
     pool_wf p -> pool_inv p ->
     ptr = block_data_addr i + GUARD_WIDTH ->
     blocks p !! i = Some b -> in_use b = true ->
     (check_buffer_integrity p ptr size = Some true ->
      exists p',
        free_guarded_buffer p ptr size = Some (p', false) /\
        blocks p' !! i = Some (mkBlock zero_data false) /\
        allocated_count p' = allocated_count p - 1 /\
        peak_usage p' = peak_usage p) /\
     snd (pool_free p ptr) = true /\
     blocks (fst (pool_free p ptr)) !! i = Some (mkBlock zero_data false)) /\
  Forall (fun b => b = mkBlock zero_data false) (blocks (pool_reset p)).
Proof.
  split; [apply free_guarded_buffer_corrupted|].
  split; [apply free_guarded_buffer_intact|].
  split; [|apply pool_reset_all_free].
  intros i b Hwf Hinv -> Hb Hused.
  pose proof (lookup_lt_Some _ _ _ Hb) as Hi. rewrite (wf_blocks _ Hwf) in Hi.
  split.
  - intros Hcheck. rewrite (free_guarded_buffer_intact _ _ _ Hcheck).
    assert (ptr_add (block_data_addr i + GUARD_WIDTH) (- GUARD_WIDTH) = block_data_addr i)
      as ->.
    { rewrite ptr_add_small; unfold_layout; lia. }
    destruct (pool_free_in_use p (block_data_addr i) i b Hwf Hinv Hb Hused)
      as (-> & Hblk & Hcnt & Hpeak); [unfold POOL_BLOCK_SIZE; lia|].
    eexists. split; [reflexivity|]. simpl. auto.
  - destruct (pool_free_in_use p (block_data_addr i + GUARD_WIDTH) i b Hwf Hinv Hb Hused)
      as (-> & Hblk & _); [unfold POOL_BLOCK_SIZE, GUARD_WIDTH; lia|].
    split; [reflexivity|exact Hblk].
Qed.

Lemma free_guarded_buffer_contract_witness :
  exists p h p',
    create_guarded_buffer g_memory_pool 16 = Some (p, h) /\
    check_buffer_integrity p h 16 = Some true /\
    free_guarded_buffer p h 16 = Some (p', false) /\
    blocks p' !! 0%nat = Some (mkBlock zero_data false) /\
    allocated_count p' = 0.
Proof.
  pose proof (create_guarded_buffer_spec g_memory_pool 16 g_memory_pool_wf) as Hc.
  assert (0 < 16 <= POOL_BLOCK_SIZE - 2 * GUARD_WIDTH) as Hsize
    by (unfold POOL_BLOCK_SIZE, GUARD_WIDTH; lia).
  specialize (Hc Hsize). change (alloc_scan (blocks g_memory_pool) 0) with (Some 0%nat) in Hc.
  destruct Hc as (p & Hcreate & G & Hwf & Hcount & _ & Hflags).
  assert (exists b, blocks p !! 0%nat = Some b /\ in_use b = true) as (b & Hb & Hused).
  { assert ((in_use <$> blocks p) !! 0%nat = Some true) as H
      by (rewrite Hflags; reflexivity).
    rewrite list_lookup_fmap in H. destruct (blocks p !! 0%nat) as [b|]; [|discriminate].
    exists b. split; [reflexivity|]. injection H as H. exact H. }
  assert (pool_inv p) as Hinv.
  { split.
    - rewrite Hcount. transitivity (count_in_use (blocks (take_block g_memory_pool 0)));
        [reflexivity|].
      clear -Hflags. revert Hflags.
      generalize (blocks (take_block g_memory_pool 0)) as l2.
      induction (blocks p) as [|x l1 IH]; intros [|y l2] H; simpl in *;
        try discriminate; [reflexivity|].
      injection H as Hxy H. rewrite Hxy, (IH l2 H). reflexivity.
    - rewrite Hcount. vm_compute. split; discriminate. }
  pose proof (guarded_check _ _ _ G) as Hcheck.
  destruct (free_guarded_buffer_contract p (block_data_addr 0 + GUARD_WIDTH) 16)
    as (_ & _ & Hfree & _).
  destruct (Hfree 0%nat b Hwf Hinv eq_refl Hb Hused) as (Hfree' & _).
  destruct (Hfree' Hcheck) as (p' & Hf & Hblk & Hcnt & _).
  exists p, (block_data_addr 0 + GUARD_WIDTH), p'.
  split; [exact Hcreate|]. split; [exact Hcheck|]. split; [exact Hf|].
  split; [exact Hblk|]. rewrite Hcnt, Hcount. reflexivity.
Defined.

(** C2 as stated fails in its last clause: the pool's own release and reset
    do not look at the markers, and either of them returns the block of a
    corrupted guarded buffer to the free pool. *)
Lemma corrupted_buffer_released_by_pool :
  exists p h q,
    create_guarded_buffer g_memory_pool 16 = Some (p, h) /\
    store8 p (ptr_add h 16) 0 = Some q /\
    check_buffer_integrity q h 16 = Some false /\
    in_use <$> blocks q !! 0%nat = Some true /\
    snd (pool_free q h) = true /\
    in_use <$> blocks (fst (pool_free q h)) !! 0%nat = Some false /\
    in_use <$> blocks (pool_reset q) !! 0%nat = Some false.
Proof.
  do 3 eexists.
  split; [vm_compute; reflexivity|].
  split; [vm_compute; reflexivity|].
  repeat split; vm_compute; reflexivity.
Qed.

(** C9 fails on the code at [size = SIZE_MAX]: the sum
    [sizeof(uint32_t) + size + sizeof(uint32_t)] wraps around to 7, the pool
    accepts the request, block 0 is taken and [allocated_count] becomes 1,
    and a handle is returned.  The two markers then overlap, so the integrity
    check of the fresh buffer is already false. *)
Theorem create_guarded_buffer_size_wraps :
  56 < SIZE_MAX /\
  exists p h,
    create_guarded_buffer g_memory_pool SIZE_MAX = Some (p, h) /\
    h = block_data_addr 0 + GUARD_WIDTH /\ h <> NULL /\
    in_use <$> blocks p !! 0%nat = Some true /\
    allocated_count p = 1 /\ peak_usage p = 1 /\
    p <> g_memory_pool /\
    check_buffer_integrity p h SIZE_MAX = Some false.
Proof.
  split; [reflexivity|]. do 2 eexists.
  split; [vm_compute; reflexivity|].
  split; [reflexivity|]. split; [discriminate|].
  split; [reflexivity|]. split; [reflexivity|]. split; [reflexivity|].
  split; [discriminate|]. vm_compute. reflexivity.
Qed.

(** * Bounded string copy *)

Lemma byte_at_c_string_lt (s : list Z) (i : nat) (c : Z) :
  s !! i = Some c -> byte_at (c_string s) i = c.
Proof.
  intros H. unfold byte_at, c_string. rewrite (lookup_app_l_Some _ _ _ _ H). reflexivity.
Qed.

Lemma byte_at_c_string_end (s : list Z) : byte_at (c_string s) (length s) = 0.
Proof.
  unfold byte_at, c_string. rewrite lookup_app_r by lia.
  rewrite Nat.sub_diag. reflexivity.
Qed.

(** The loop copies [src[k]] for [k] from [i] up to the terminator or the
    [n]-th iteration, whichever comes first, and touches nothing else. *)
Lemma strcpy_loop_spec (s : list Z) (n : nat) :
  forall (i : nat) (d : list Z),
    Forall (fun c => c <> 0) s ->
    (i <= length s)%nat -> (i + n <= length d)%nat ->
    exists d',
      strcpy_loop n i d (c_string s) = (d', (length s `min` (i + n))%nat) /\
      length d' = length d /\
      forall k, d' !! k =
                if decide (i <= k < length s `min` (i + n))%nat then s !! k else d !! k.
Proof.
  induction n as [|n IH]; intros i d Hs Hi Hd; simpl.
  - exists d. rewrite Nat.add_0_r, Nat.min_r by lia.
    split; [reflexivity|]. split; [reflexivity|].
    intros k. case_decide; [lia|reflexivity].
  - destruct (decide (i = length s)) as [->|Hne].
    + rewrite byte_at_c_string_end. simpl.
      exists d. rewrite Nat.min_l by lia.
      split; [reflexivity|]. split; [reflexivity|].
      intros k. case_decide; [lia|reflexivity].
    + destruct (lookup_lt_is_Some_2 s i ltac:(lia)) as [c Hc].
      rewrite (byte_at_c_string_lt _ _ _ Hc).
      assert (c <> 0) as Hc0.
      { eapply Forall_lookup_1 in Hs; [exact Hs|exact Hc]. }
      apply Z.eqb_neq in Hc0. rewrite Hc0.
      destruct (IH (S i) (<[i := c]> d) Hs ltac:(lia)) as (d' & Hloop & Hlen & Hlook).
      { rewrite length_insert. lia. }
      exists d'. replace (i + S n)%nat with (S i + n)%nat by lia.
      split; [exact Hloop|]. split; [rewrite Hlen; apply length_insert|].
      intros k. rewrite Hlook.
      destruct (decide (k = i)) as [->|Hk].
      * rewrite list_lookup_insert_eq by lia.
        repeat case_decide; try lia. symmetry. exact Hc.
      * rewrite list_lookup_insert_ne by congruence.
        repeat case_decide; try lia; reflexivity.
Qed.

(** The outcome of a copy with valid arguments. *)
Lemma safe_strcpy_copy (d : list Z) (cap : Z) (s : list Z) :
  0 < cap <= Z.of_nat (length d) -> Forall (fun c => c <> 0) s ->
  let n := (length s `min` Z.to_nat (cap - 1))%nat in
  safe_strcpy (Some d) cap (Some (c_string s)) =
    (if Z.of_nat (length s) <? cap then 0 else 1,
     Some (take n s ++ 0 :: drop (S n) d)).
Proof.
  intros Hcap Hs n. unfold safe_strcpy.
  assert ((cap =? 0) = false) as -> by (apply Z.eqb_neq; lia).
  destruct (strcpy_loop_spec s (Z.to_nat (cap - 1)) 0 d Hs ltac:(lia) ltac:(lia))
    as (d' & Hloop & Hlen & Hlook).
  simpl in Hloop. rewrite Hloop. fold n. fold n in Hlook.
  assert (n <= length s)%nat as Hn1 by (unfold n; lia).
  assert (n < length d)%nat as Hn2 by (unfold n; lia).
  f_equal.
  - destruct (Z.of_nat (length s) <? cap) eqn:Hlt.
    + apply Z.ltb_lt in Hlt. assert (n = length s) as -> by (unfold n; lia).
      rewrite byte_at_c_string_end. reflexivity.
    + apply Z.ltb_ge in Hlt.
      destruct (lookup_lt_is_Some_2 s n ltac:(unfold n; lia)) as [c Hc].
      rewrite (byte_at_c_string_lt _ _ _ Hc).
      assert (c <> 0) as Hc0.
      { eapply Forall_lookup_1 in Hs; [exact Hs|exact Hc]. }
      apply Z.eqb_neq in Hc0. rewrite Hc0. reflexivity.
  - f_equal. apply list_eq. intros k.
    destruct (decide (k < n)%nat) as [Hk|Hk].
    + rewrite list_lookup_insert_ne by lia. rewrite Hlook.
      case_decide; [|lia].
      rewrite lookup_app_l by (rewrite length_take; lia).
      rewrite lookup_take_lt by lia. reflexivity.
    + rewrite lookup_app_r by (rewrite length_take; lia).
      rewrite length_take, Nat.min_l by lia.
      destruct (decide (k = n)) as [->|Hkn].
      * rewrite list_lookup_insert_eq by lia. rewrite Nat.sub_diag. reflexivity.
      * rewrite list_lookup_insert_ne by congruence. rewrite Hlook.
        case_decide; [lia|].
        replace (k - n)%nat with (S (k - S n)) by lia. simpl.
        rewrite lookup_drop. f_equal. lia.
Qed.

Lemma safe_strcpy_invalid (dest : option (list Z)) (cap : Z) (src : option (list Z)) :
  fst (safe_strcpy dest cap src) = -1 <-> dest = None \/ src = None \/ cap = 0.
Proof.
  unfold safe_strcpy.
  destruct dest as [d|]; [|simpl; tauto].
  destruct src as [s|]; [|simpl; tauto].
  destruct (cap =? 0) eqn:Hcap.
  - apply Z.eqb_eq in Hcap. simpl. tauto.
  - apply Z.eqb_neq in Hcap.
    destruct (strcpy_loop _ _ _ _) as [d' i]. simpl.
    split.
    + destruct (_ =? 0); discriminate.
    + intros [H|[H|H]]; [discriminate|discriminate|contradiction].
Qed.

(** C7: [safe_strcpy] returns -1 (invalid arguments) exactly when [dest] or
    [src] is null or the capacity is 0.  Otherwise, for a source string [s]
    and a destination of at least [capacity] bytes, it copies the first
    [n = min (strlen s) (capacity - 1)] bytes, writes the terminator at
    index [n] and leaves every byte after it (so every byte from [capacity]
    on) as it was; it returns 0 when [strlen s < capacity] and 1 (truncated)
    otherwise.  With capacity 8 and "Hello, World!" the result is 1 and
    "Hello, " with a terminator; with capacity 14 it is 0 and the whole
    string with its terminator. *)
Theorem safe_strcpy_contract :
  (forall dest cap src,
     fst (safe_strcpy dest cap src) = -1 <-> dest = None \/ src = None \/ cap = 0) /\
  (forall d cap s,
     0 < cap <= Z.of_nat (length d) -> Forall (fun c => c <> 0) s ->
     let n := (length s `min` Z.to_nat (cap - 1))%nat in
     Z.of_nat n <= cap - 1 /\
     safe_strcpy (Some d) cap (Some (c_string s)) =
       (if Z.of_nat (length s) <? cap then 0 else 1,
        Some (take n s ++ 0 :: drop (S n) d))) /\
  (forall rest,
     safe_strcpy (Some (replicate 8 0xAA ++ rest)) 8 (Some (c_string hello_world))
     = (1, Some (hello_comma ++ 0 :: rest))) /\
  safe_strcpy (Some (replicate 14 0xAA)) 14 (Some (c_string hello_world))
  = (0, Some (hello_world ++ [0])).
Proof.
  split; [exact safe_strcpy_invalid|].
  split; [|split; [intros rest|]; reflexivity].
  intros d cap s Hcap Hs n. split; [unfold n; lia|].
  apply safe_strcpy_copy; assumption.
Qed.

Lemma safe_strcpy_contract_witness :
  safe_strcpy (Some (replicate 32 0xAA)) 8 (Some (c_string hello_world))
  = (1, Some (hello_comma ++ 0 :: replicate 24 0xAA)).
Proof.
  destruct safe_strcpy_contract as (_ & Hcopy & _).
  destruct (Hcopy (replicate 32 0xAA) 8 hello_world) as [_ H].
  - simpl. lia.
  - repeat constructor; discriminate.
  - exact H.
Defined.

(** * Constant-time comparison *)

Lemma is_byte_log2 (a : Z) : is_byte a <-> 0 <= a /\ Z.log2 a < 8.
Proof.
  unfold is_byte. split; intros [H0 H1]; (split; [exact H0|]).
  - destruct (decide (a = 0)) as [->|Hne]; [reflexivity|].
    apply Z.log2_lt_pow2; lia.
  - destruct (decide (a = 0)) as [->|Hne]; [lia|].
    change 256 with (2 ^ 8). apply Z.log2_lt_pow2; lia.
Qed.

Lemma is_byte_lxor (a b : Z) : is_byte a -> is_byte b -> is_byte (Z.lxor a b).
Proof.
  rewrite !is_byte_log2. intros [Ha0 Ha] [Hb0 Hb]. split.
  - apply Z.lxor_nonneg. tauto.
  - pose proof (Z.log2_lxor a b Ha0 Hb0). lia.
Qed.

Lemma is_byte_lor (a b : Z) : is_byte a -> is_byte b -> is_byte (Z.lor a b).
Proof.
  rewrite !is_byte_log2. intros [Ha0 Ha] [Hb0 Hb]. split.
  - apply Z.lor_nonneg. tauto.
  - rewrite Z.log2_lor by assumption. lia.
Qed.

Lemma is_byte_at (l : list Z) (i : nat) : Forall is_byte l -> is_byte (byte_at l i).
Proof.
  intros Hl. unfold byte_at. destruct (l !! i) as [x|] eqn:Hx; simpl.
  - eapply Forall_lookup_1 in Hl; [exact Hl|exact Hx].
  - unfold is_byte. lia.
Qed.

(** The accumulator after the loop is the OR of what it was with the XORs of
    all [n] positions from [i] on: no position is skipped. *)
Lemma memcmp_loop_spec (a b : list Z) (n : nat) :
  forall (i : nat) (r : Z),
    Forall is_byte a -> Forall is_byte b -> is_byte r ->
    (i + n <= length a)%nat -> (i + n <= length b)%nat ->
    memcmp_loop n i a b r =
    Z.lor r (foldr Z.lor 0 (zip_with Z.lxor (take n (drop i a)) (take n (drop i b)))).
Proof.
  induction n as [|n IH]; intros i r Ha Hb Hr Hla Hlb; simpl.
  - symmetry. apply Z.lor_0_r.
  - destruct (lookup_lt_is_Some_2 a i ltac:(lia)) as [x Hx].
    destruct (lookup_lt_is_Some_2 b i ltac:(lia)) as [y Hy].
    rewrite (drop_S _ _ _ Hx), (drop_S _ _ _ Hy). simpl.
    assert (byte_at a i = x) as -> by (unfold byte_at; rewrite Hx; reflexivity).
    assert (byte_at b i = y) as -> by (unfold byte_at; rewrite Hy; reflexivity).
    assert (is_byte x) as Hbx by (eapply Forall_lookup_1 in Ha; eauto).
    assert (is_byte y) as Hby by (eapply Forall_lookup_1 in Hb; eauto).
    pose proof (is_byte_lor _ _ Hr (is_byte_lxor _ _ Hbx Hby)) as Hacc.
    rewrite (Z.mod_small (Z.lor r (Z.lxor x y)) 256) by exact Hacc.
    rewrite (IH (S i) _ Ha Hb Hacc) by lia.
    rewrite Z.lor_assoc. reflexivity.
Qed.

Lemma or_of_xors_zero (l1 l2 : list Z) :
  length l1 = length l2 ->
  foldr Z.lor 0 (zip_with Z.lxor l1 l2) = 0 <-> l1 = l2.
Proof.
  revert l2. induction l1 as [|x l1 IH]; intros [|y l2] Hlen; simpl in *;
    try discriminate.
  - tauto.
  - rewrite Z.lor_eq_0_iff, Z.lxor_eq_0_iff, (IH l2) by congruence.
    split; [intros [-> ->]; reflexivity|]. intros [= -> ->]. auto.
Qed.

Lemma memcmp_loop_same (x : list Z) (n : nat) :
  forall i, memcmp_loop n i x x 0 = 0.
Proof.
  induction n as [|n IH]; intros i; simpl; [reflexivity|].
  rewrite Z.lxor_nilpotent. simpl. apply IH.
Qed.

(** C8: on two regions of at least [size] bytes, the accumulator
    [secure_memcmp] ends with is the OR of the XORs of all [size] positions
    (the loop has no exit before its bound), and the result is true exactly
    when that is zero, that is exactly when the regions agree on their first
    [size] bytes.  Comparing a region with itself is true for every region
    and every [size]. *)
Theorem secure_memcmp_contract :
  (forall a b size,
     Forall is_byte a -> Forall is_byte b ->
     0 <= size <= Z.of_nat (length a) -> size <= Z.of_nat (length b) ->
     memcmp_loop (Z.to_nat size) 0 a b 0 = or_of_xors (Z.to_nat size) a b /\
     secure_memcmp (Some a) (Some b) size = (or_of_xors (Z.to_nat size) a b =? 0) /\
     (secure_memcmp (Some a) (Some b) size = true <->
      take (Z.to_nat size) a = take (Z.to_nat size) b)) /\
  (forall x n, secure_memcmp (Some x) (Some x) n = true).
Proof.
  split.
  - intros a b size Ha Hb Hsa Hsb.
    assert (memcmp_loop (Z.to_nat size) 0 a b 0 = or_of_xors (Z.to_nat size) a b) as Hloop.
    { rewrite memcmp_loop_spec; try assumption; try lia; [|unfold is_byte; lia].
      rewrite Z.lor_0_l, !drop_0. reflexivity. }
    split; [exact Hloop|]. unfold secure_memcmp. rewrite Hloop.
    split; [reflexivity|].
    rewrite Z.eqb_eq. unfold or_of_xors. apply or_of_xors_zero.
    rewrite !length_take. lia.
  - intros x n. unfold secure_memcmp. rewrite memcmp_loop_same. reflexivity.
Qed.

Lemma secure_memcmp_contract_witness :
  secure_memcmp (Some [1; 2; 3]) (Some [1; 2; 4]) 2 = true <->
  take 2 [1; 2; 3] = take 2 [1; 2; 4].
Proof.
  destruct secure_memcmp_contract as [H _].
  destruct (H [1; 2; 3] [1; 2; 4] 2) as (_ & _ & Hiff).
  - repeat constructor; unfold is_byte; lia.
  - repeat constructor; unfold is_byte; lia.
  - simpl. lia.
  - simpl. lia.
  - exact Hiff.
Defined.

(** * Further properties of the block pool *)

Lemma count_in_use_flags (l1 l2 : list MemoryBlock) :
  in_use <$> l1 = in_use <$> l2 -> count_in_use l1 = count_in_use l2.
Proof.
  revert l2. induction l1 as [|x l1 IH]; intros [|y l2] H; simpl in *;
    try discriminate; [reflexivity|].
  injection H as Hxy H. rewrite Hxy, (IH l2 H). reflexivity.
Qed.

Lemma count_in_use_full (bs : list MemoryBlock) :
  count_in_use bs = Z.of_nat (length bs) -> Forall (fun b => in_use b = true) bs.
Proof.
  induction bs as [|b bs IH]; simpl; intros H; constructor.
  - pose proof (count_in_use_bounds bs). destruct (in_use b); [reflexivity|lia].
  - apply IH. pose proof (count_in_use_bounds bs). destruct (in_use b); lia.
Qed.

Lemma block_data_addr_not_null (i : nat) : block_data_addr i <> NULL.
Proof. unfold_layout. lia. Qed.

(** What a non-null result of [pool_alloc] says about the call. *)
Lemma pool_alloc_success (p p' : MemoryPool) (size ptr : Z) :
  pool_alloc p size = (p', ptr) -> ptr <> NULL ->
  exists i b,
    alloc_scan (blocks p) 0 = Some i /\ blocks p !! i = Some b /\ in_use b = false /\
    p' = take_block p i /\ ptr = block_data_addr i.
Proof.
  unfold pool_alloc. intros H Hptr.
  destruct (pool_alloc_exit p size) as [|i|] eqn:He;
    injection H as <- <-; try (exfalso; apply Hptr; reflexivity).
  apply pool_alloc_exit_block in He as (_ & _ & Hs).
  destruct (alloc_scan_Some _ _ _ Hs) as (_ & (b & Hb & Hfree) & _).
  rewrite Nat.sub_0_r in Hb. exists i, b. auto.
Qed.

(** X1: [pool_free] returns true exactly when the pointer lies anywhere in
    the 64 data bytes of a block that is in use, not only at its start; the
    call then clears that block's flag, zero-fills it, decrements
    [allocated_count] modulo 2^32 and leaves every other block and
    [peak_usage] alone. *)
Theorem pool_free_accepts_interior_pointers (p : MemoryPool) (ptr : Z) :
  (snd (pool_free p ptr) = true <->
   exists i b, blocks p !! i = Some b /\ in_use b = true /\
               block_data_addr i <= ptr < block_data_addr i + POOL_BLOCK_SIZE) /\
  (forall i b,
     blocks p !! i = Some b -> in_use b = true ->
     block_data_addr i <= ptr < block_data_addr i + POOL_BLOCK_SIZE ->
     pool_free p ptr =
       (mkPool (<[i := mkBlock zero_data false]> (blocks p))
               ((allocated_count p - 1) `mod` UINT32_MOD) (peak_usage p), true)).
Proof.
  assert (forall i b,
     blocks p !! i = Some b -> in_use b = true ->
     block_data_addr i <= ptr < block_data_addr i + POOL_BLOCK_SIZE ->
     pool_free p ptr = (release_block p i, true)) as Hhit.
  { intros i b Hb Hused Hptr. unfold pool_free, pool_free_exit.
    assert ((ptr =? NULL) = false) as -> by (apply Z.eqb_neq; unfold_layout; lia).
    rewrite (free_scan_hit (blocks p) 0 i b ptr); [rewrite Hused; reflexivity|lia| |exact Hptr].
    rewrite Nat.sub_0_r. exact Hb. }
  split; [|exact Hhit]. split.
  - unfold pool_free, pool_free_exit.
    destruct (ptr =? NULL); [discriminate|].
    destruct (free_scan (blocks p) 0 ptr) as [|i|i|] eqn:He; try discriminate.
    intros _.
    destruct (free_scan_found (blocks p) 0 i ptr (or_introl He)) as (_ & Hr & b & Hb & Hu).
    rewrite He in Hu. rewrite Nat.sub_0_r in Hb. exists i, b. auto.
  - intros (i & b & Hb & Hused & Hptr). rewrite (Hhit i b Hb Hused Hptr). reflexivity.
Qed.

Lemma pool_free_accepts_interior_pointers_witness :
  snd (pool_free (take_block g_memory_pool 0) (block_data_addr 0 + 17)) = true.
Proof.
  destruct (pool_free_accepts_interior_pointers (take_block g_memory_pool 0)
              (block_data_addr 0 + 17)) as [_ H].
  rewrite (H 0%nat (mkBlock zero_data true)).
  - reflexivity.
  - reflexivity.
  - reflexivity.
  - unfold block_data_addr, POOL_BLOCK_SIZE. lia.
Defined.

(** X2: releasing the pointer a successful [pool_alloc] returned succeeds
    and undoes the allocation: [allocated_count] and every in-use flag are
    back to what they were, the block handed out is left zero-filled and the
    other blocks are as before.  Only [peak_usage] keeps the value the
    allocation gave it. *)
Theorem pool_alloc_free_round_trip (p p1 : MemoryPool) (size ptr : Z) :
  pool_wf p -> pool_inv p ->
  pool_alloc p size = (p1, ptr) -> ptr <> NULL ->
  exists i p2,
    ptr = block_data_addr i /\
    pool_free p1 ptr = (p2, true) /\
    allocated_count p2 = allocated_count p /\
    in_use <$> blocks p2 = in_use <$> blocks p /\
    blocks p2 = <[i := mkBlock zero_data false]> (blocks p) /\
    peak_usage p2 = peak_usage p1 /\ peak_usage p <= peak_usage p1.
Proof.
  intros Hwf Hinv Halloc Hptr.
  destruct (pool_alloc_success _ _ _ _ Halloc Hptr) as (i & b & Hs & Hb & Hfree & -> & ->).
  pose proof (lookup_lt_Some _ _ _ Hb) as Hi.
  destruct (take_block_inv p i b Hwf Hinv Hb Hfree) as [Hinv1 Hcount1].
  assert (blocks (take_block p i) !! i = Some (mkBlock zero_data true)) as Hb1.
  { simpl. apply list_lookup_insert_eq, Hi. }
  destruct (pool_free_in_use (take_block p i) (block_data_addr i) i _
              (take_block_wf p i Hwf) Hinv1 Hb1 eq_refl)
    as (Hfree1 & _ & Hcount2 & Hpeak2); [unfold POOL_BLOCK_SIZE; lia|].
  exists i, (release_block (take_block p i) i).
  split; [reflexivity|]. split; [exact Hfree1|].
  split; [lia|].
  assert (blocks (release_block (take_block p i) i)
          = <[i := mkBlock zero_data false]> (blocks p)) as Hblocks.
  { simpl. apply list_insert_insert_eq. }
  split; [|split; [exact Hblocks|split; [exact Hpeak2|]]].
  - rewrite Hblocks, list_fmap_insert. simpl. apply list_insert_id.
    rewrite list_lookup_fmap, Hb. simpl. rewrite Hfree. reflexivity.
  - unfold take_block. simpl. destruct (_ >? _) eqn:Hgt; [|lia].
    rewrite Z.gtb_ltb in Hgt. apply Z.ltb_lt in Hgt. lia.
Qed.

Lemma pool_alloc_free_round_trip_witness :
  exists i p2,
    block_data_addr 0 = block_data_addr i /\
    pool_free (take_block g_memory_pool 0) (block_data_addr 0) = (p2, true) /\
    allocated_count p2 = 0.
Proof.
  destruct (pool_alloc_free_round_trip g_memory_pool (take_block g_memory_pool 0) 24
              (block_data_addr 0) g_memory_pool_wf g_memory_pool_inv eq_refl
              (block_data_addr_not_null 0))
    as (i & p2 & Hptr & Hfree & Hcount & _).
  exists i, p2. auto.
Defined.

(** X3: in a pool that satisfies its invariant, an allocation of a valid
    size fails exactly when [allocated_count] has reached the number of
    blocks. *)
Theorem pool_alloc_fails_iff_full (p : MemoryPool) (size : Z) :
  pool_wf p -> pool_inv p -> 0 < size <= POOL_BLOCK_SIZE ->
  (snd (pool_alloc p size) = NULL <-> allocated_count p = POOL_NUM_BLOCKS).
Proof.
  intros Hwf [Hcount _] Hsize.
  assert (count_in_use (blocks p) = Z.of_nat (length (blocks p)) <->
          allocated_count p = POOL_NUM_BLOCKS) as Hfull.
  { rewrite Hcount, (wf_blocks _ Hwf). unfold POOL_NUM_BLOCKS. simpl. lia. }
  rewrite <- Hfull. unfold pool_alloc.
  destruct (pool_alloc_exit p size) as [|i|] eqn:He; simpl.
  - apply pool_alloc_exit_invalid in He. lia.
  - apply pool_alloc_exit_block in He as (_ & _ & Hs). split.
    + intros H. exfalso. exact (block_data_addr_not_null i H).
    + intros H. apply count_in_use_full in H.
      apply (alloc_scan_None (blocks p) 0) in H. congruence.
  - apply pool_alloc_exit_exhausted in He as [_ Hall].
    split; [intros _; apply count_in_use_all, Hall|reflexivity].
Qed.

Lemma pool_alloc_fails_iff_full_witness :
  snd (pool_alloc g_memory_pool 64) = NULL <-> allocated_count g_memory_pool = POOL_NUM_BLOCKS.
Proof.
  apply (pool_alloc_fails_iff_full g_memory_pool 64 g_memory_pool_wf g_memory_pool_inv).
  unfold POOL_BLOCK_SIZE. lia.
Defined.

Lemma pool_step_counters (p : MemoryPool) (op : pool_op) :
  pool_wf p -> pool_inv p ->
  allocated_count p <= peak_usage p <= POOL_NUM_BLOCKS ->
  allocated_count (pool_step p op) <= peak_usage (pool_step p op) <= POOL_NUM_BLOCKS.
Proof.
  intros Hwf Hinv Hpk. pose proof (pool_step_inv p op Hwf Hinv) as [_ Hrange].
  destruct Hinv as [Hc Hr]. rewrite pool_step_unfold in *.
  destruct op as [size|ptr|c k t|]; simpl in *; try lia.
  - unfold pool_alloc in *. destruct (pool_alloc_exit p size); simpl in *; try lia.
    destruct (_ >? _) eqn:Hgt; [lia|].
    rewrite Z.gtb_ltb in Hgt. apply Z.ltb_ge in Hgt. lia.
  - unfold pool_free in *. destruct (pool_free_exit p ptr) as [|i|i|] eqn:He; simpl in *; try lia.
    unfold pool_free_exit in He. destruct (ptr =? NULL); [discriminate|].
    destruct (free_scan_found (blocks p) 0 i ptr (or_introl He)) as (_ & _ & b & Hb & Hu).
    rewrite He in Hu. rewrite Nat.sub_0_r in Hb.
    destruct (release_block_inv p i b Hwf (conj Hc Hr) Hb Hu) as [_ Hcnt].
    unfold release_block in Hcnt. simpl in Hcnt. lia.
Qed.

(** X4: at any point of any sequence of pool calls from the initial pool,
    the three numbers [pool_get_stats] reports are ordered:
    [0 <= current <= peak <= total = 32].  The ordering is kept by every
    single call from any pool that satisfies it and the pool invariant. *)
Theorem stats_ordered :
  (forall ops, exists current peak total,
     pool_get_stats (pool_run g_memory_pool ops) true true true
       = (Some current, Some peak, Some total) /\
     0 <= current <= peak /\ peak <= total /\ total = 32) /\
  (forall p op,
     pool_wf p -> pool_inv p ->
     allocated_count p <= peak_usage p <= POOL_NUM_BLOCKS ->
     allocated_count (pool_step p op) <= peak_usage (pool_step p op) <= POOL_NUM_BLOCKS).
Proof.
  split; [|exact pool_step_counters].
  intros ops. do 3 eexists. split; [reflexivity|].
  assert (forall p, pool_wf p -> pool_inv p ->
            allocated_count p <= peak_usage p <= POOL_NUM_BLOCKS ->
            pool_inv (pool_run p ops) /\
            allocated_count (pool_run p ops) <= peak_usage (pool_run p ops) <= POOL_NUM_BLOCKS)
    as Hrun.
  { induction ops as [|op ops IH]; intros p Hwf Hinv Hpk; simpl; [auto|].
    apply IH; auto using pool_step_wf, pool_step_inv, pool_step_counters. }
  destruct (Hrun g_memory_pool g_memory_pool_wf g_memory_pool_inv) as [[_ Hr] Hpk].
  { simpl. unfold POOL_NUM_BLOCKS. lia. }
  unfold POOL_NUM_BLOCKS in *. lia.
Qed.

Lemma stats_ordered_witness :
  allocated_count (pool_step g_memory_pool (OpAlloc 8))
  <= peak_usage (pool_step g_memory_pool (OpAlloc 8)) <= POOL_NUM_BLOCKS.
Proof.
  destruct stats_ordered as [_ H].
  apply (H g_memory_pool (OpAlloc 8) g_memory_pool_wf g_memory_pool_inv).
  simpl. unfold POOL_NUM_BLOCKS. lia.
Defined.

Lemma map_const_replicate {A B : Type} (c : B) (l : list A) :
  map (fun _ => c) l = replicate (length l) c.
Proof. induction l as [|x l IH]; simpl; [reflexivity|]. rewrite IH. reflexivity. Qed.

(** X5: [pool_reset] puts the blocks back to their initial state (all free,
    all bytes zero) with [allocated_count] 0, keeping only [peak_usage];
    resetting twice is the same as resetting once, and the first allocation
    of a valid size after a reset returns block 0. *)
Theorem pool_reset_restores (p : MemoryPool) :
  pool_wf p ->
  pool_reset p = mkPool (blocks g_memory_pool) 0 (peak_usage p) /\
  pool_reset (pool_reset p) = pool_reset p /\
  (forall size, 0 < size <= POOL_BLOCK_SIZE ->
     snd (pool_alloc (pool_reset p) size) = block_data_addr 0).
Proof.
  intros Hwf.
  assert (pool_reset p = mkPool (blocks g_memory_pool) 0 (peak_usage p)) as Hreset.
  { unfold pool_reset. rewrite map_const_replicate, (wf_blocks _ Hwf). reflexivity. }
  split; [exact Hreset|]. split.
  - rewrite Hreset. reflexivity.
  - intros size Hsize. rewrite Hreset. unfold pool_alloc, pool_alloc_exit.
    assert (((size =? 0) || (size >? POOL_BLOCK_SIZE)) = false) as ->.
    { apply orb_false_iff. split; [apply Z.eqb_neq; lia|].
      rewrite Z.gtb_ltb. apply Z.ltb_ge. lia. }
    reflexivity.
Qed.

Lemma pool_reset_restores_witness :
  pool_reset (take_block g_memory_pool 0) = mkPool (blocks g_memory_pool) 0 1.
Proof.
  destruct (pool_reset_restores (take_block g_memory_pool 0)
              (take_block_wf _ 0 g_memory_pool_wf)) as [H _].
  exact H.
Defined.

(** X6: the region a successful [pool_alloc] hands out does not overlap the
    data of any block that was already in use, and those blocks keep their
    contents and their flag. *)
Theorem pool_alloc_fresh_region (p p' : MemoryPool) (size ptr : Z) :
  pool_alloc p size = (p', ptr) -> ptr <> NULL ->
  forall j b,
    blocks p !! j = Some b -> in_use b = true ->
    blocks p' !! j = Some b /\
    (ptr + POOL_BLOCK_SIZE <= block_data_addr j \/
     block_data_addr j + POOL_BLOCK_SIZE <= ptr).
Proof.
  intros Halloc Hptr j b Hb Hused.
  destruct (pool_alloc_success _ _ _ _ Halloc Hptr) as (i & c & _ & Hc & Hfree & -> & ->).
  assert (i <> j) as Hne by (intros ->; congruence).
  split.
  - simpl. rewrite list_lookup_insert_ne by exact Hne. exact Hb.
  - unfold_layout. lia.
Qed.

Lemma pool_alloc_fresh_region_witness :
  blocks (take_block (take_block g_memory_pool 0) 1) !! 0%nat
    = Some (mkBlock zero_data true) /\
  (block_data_addr 1 + POOL_BLOCK_SIZE <= block_data_addr 0 \/
   block_data_addr 0 + POOL_BLOCK_SIZE <= block_data_addr 1).
Proof.
  apply (pool_alloc_fresh_region (take_block g_memory_pool 0)
           (take_block (take_block g_memory_pool 0) 1) 16 (block_data_addr 1)).
  - reflexivity.
  - apply block_data_addr_not_null.
  - reflexivity.
  - reflexivity.
Defined.

Lemma alloc_scan_skip_used (k : nat) (l : list MemoryBlock) (i : nat) :
  alloc_scan (replicate k (mkBlock zero_data true) ++ l) i = alloc_scan l (i + k).
Proof.
  revert i. induction k as [|k IH]; intros i; simpl.
  - rewrite Nat.add_0_r. reflexivity.
  - rewrite IH. f_equal. lia.
Qed.

(** The pool after [k] allocations from the initial pool. *)
Lemma pool_run_allocs (sizes : list Z) :
  Forall (fun s => 0 < s <= POOL_BLOCK_SIZE) sizes ->
  (length sizes <= Z.to_nat POOL_NUM_BLOCKS)%nat ->
  pool_run g_memory_pool (OpAlloc <$> sizes) =
  mkPool (replicate (length sizes) (mkBlock zero_data true) ++
          replicate (Z.to_nat POOL_NUM_BLOCKS - length sizes) (mkBlock zero_data false))
         (Z.of_nat (length sizes)) (Z.of_nat (length sizes)).
Proof.
  induction sizes as [|s sizes IH] using rev_ind; intros Hvalid Hlen.
  - reflexivity.
  - apply Forall_app in Hvalid as [Hvalid Hs]. apply Forall_inv in Hs.
    rewrite length_app in *. simpl in *.
    unfold pool_run in *. rewrite fmap_app, foldl_app. simpl.
    rewrite IH by (auto; lia). rewrite pool_step_unfold.
    unfold pool_alloc, pool_alloc_exit. simpl blocks.
    assert (((s =? 0) || (s >? POOL_BLOCK_SIZE)) = false) as ->.
    { apply orb_false_iff. split; [apply Z.eqb_neq; lia|].
      rewrite Z.gtb_ltb. apply Z.ltb_ge. lia. }
    rewrite alloc_scan_skip_used.
    destruct (Z.to_nat POOL_NUM_BLOCKS - length sizes)%nat as [|m] eqn:Hm; [lia|].
    simpl. unfold take_block. simpl.
    assert ((Z.of_nat (length sizes) + 1) `mod` UINT32_MOD = Z.of_nat (length sizes) + 1)
      as ->.
    { apply Z.mod_small. unfold UINT32_MOD, POOL_NUM_BLOCKS in *. lia. }
    assert ((Z.of_nat (length sizes) + 1 >? Z.of_nat (length sizes)) = true) as ->.
    { rewrite Z.gtb_ltb. apply Z.ltb_lt. lia. }
    f_equal; [|lia..].
    replace (length sizes) with (length (replicate (length sizes) (mkBlock zero_data true)) + 0)%nat
      at 1 by (rewrite length_replicate; lia).
    rewrite insert_app_r. simpl.
    replace (length sizes + 1)%nat with (S (length sizes)) by lia.
    rewrite replicate_S_end, <- app_assoc. simpl.
    do 3 f_equal. unfold POOL_NUM_BLOCKS in Hm. lia.
Qed.

(** X7: starting from the initial pool, successive allocations of valid
    sizes take the blocks in index order: after [k <= 32] of them
    [allocated_count = peak_usage = k], the next allocation returns block
    [k], and once all 32 are taken it returns NULL. *)
Theorem pool_fills_in_order (sizes : list Z) (size : Z) :
  Forall (fun s => 0 < s <= POOL_BLOCK_SIZE) sizes ->
  (length sizes <= Z.to_nat POOL_NUM_BLOCKS)%nat ->
  0 < size <= POOL_BLOCK_SIZE ->
  allocated_count (pool_run g_memory_pool (OpAlloc <$> sizes)) = Z.of_nat (length sizes) /\
  peak_usage (pool_run g_memory_pool (OpAlloc <$> sizes)) = Z.of_nat (length sizes) /\
  snd (pool_alloc (pool_run g_memory_pool (OpAlloc <$> sizes)) size) =
    (if decide (length sizes < Z.to_nat POOL_NUM_BLOCKS)%nat
     then block_data_addr (length sizes) else NULL).
Proof.
  intros Hvalid Hlen Hsize. rewrite (pool_run_allocs sizes Hvalid Hlen). simpl.
  split; [reflexivity|]. split; [reflexivity|].
  unfold pool_alloc, pool_alloc_exit. simpl blocks.
  assert (((size =? 0) || (size >? POOL_BLOCK_SIZE)) = false) as ->.
  { apply orb_false_iff. split; [apply Z.eqb_neq; lia|].
    rewrite Z.gtb_ltb. apply Z.ltb_ge. lia. }
  rewrite alloc_scan_skip_used.
  case_decide as Hk.
  - destruct (Z.to_nat POOL_NUM_BLOCKS - length sizes)%nat as [|m] eqn:Hm; [lia|].
    reflexivity.
  - replace (Z.to_nat POOL_NUM_BLOCKS - length sizes)%nat with 0%nat by lia.
    reflexivity.
Qed.

Lemma pool_fills_in_order_witness :
  snd (pool_alloc (pool_run g_memory_pool (OpAlloc <$> [32; 16; 64])) 8) = block_data_addr 3.
Proof.
  destruct (pool_fills_in_order [32; 16; 64] 8) as (_ & _ & H).
  - repeat constructor; unfold POOL_BLOCK_SIZE; lia.
  - unfold POOL_NUM_BLOCKS. simpl length. lia.
  - unfold POOL_BLOCK_SIZE. lia.
  - exact H.
Defined.

(** * Further properties of guarded buffers *)

(** Every byte of the block a guarded buffer was created in: the two markers,
    and zero everywhere else. *)
Lemma create_guarded_buffer_layout (p : MemoryPool) (size : Z) (i : nat) :
  pool_wf p -> 0 < size <= POOL_BLOCK_SIZE - 2 * GUARD_WIDTH ->
  alloc_scan (blocks p) 0 = Some i ->
  exists p',
    create_guarded_buffer p size = Some (p', block_data_addr i + GUARD_WIDTH) /\
    forall j, 0 <= j < POOL_BLOCK_SIZE ->
      load8 p' (block_data_addr i + j) =
      Some (if decide (j < GUARD_WIDTH) then guard_byte j
            else if decide (GUARD_WIDTH + size <= j < 2 * GUARD_WIDTH + size)
                 then guard_byte (j - GUARD_WIDTH - size)
                 else 0).
Proof.
  intros Hwf Hsize Hscan. unfold create_guarded_buffer.
  assert ((size =? 0) = false) as -> by (apply Z.eqb_neq; lia).
  assert ((GUARD_WIDTH + size + GUARD_WIDTH) `mod` SIZE_MOD = size + 8) as ->.
  { unfold_layout. rewrite Z.mod_small by lia. lia. }
  unfold pool_alloc, pool_alloc_exit.
  assert (((size + 8 =? 0) || (size + 8 >? POOL_BLOCK_SIZE)) = false) as ->.
  { apply orb_false_iff. split; [apply Z.eqb_neq; lia|].
    rewrite Z.gtb_ltb. apply Z.ltb_ge. unfold_layout. lia. }
  rewrite Hscan.
  pose proof (alloc_scan_lt _ _ Hscan) as Hi.
  pose proof (wf_blocks _ Hwf) as Hlen.
  assert ((block_data_addr i =? NULL) = false) as ->.
  { apply Z.eqb_neq. unfold_layout. lia. }
  assert (Z.of_nat i < 32) as Hi32 by (unfold POOL_NUM_BLOCKS in Hlen; lia).
  destruct (store32_spec (take_block p i) (block_data_addr i) GUARD_PATTERN)
    as (p2 & H2 & Hset2 & Hkeep2 & _).
  { unfold_layout. lia. }
  { unfold_layout. lia. }
  { intros k Hk. unfold mapped. rewrite take_block_load8; eauto; [lia|].
    unfold POOL_BLOCK_SIZE. lia. }
  rewrite H2. simpl.
  assert (ptr_add (block_data_addr i) GUARD_WIDTH = block_data_addr i + GUARD_WIDTH) as ->.
  { apply ptr_add_small. unfold_layout. lia. }
  assert (ptr_add (block_data_addr i + GUARD_WIDTH) size
          = block_data_addr i + GUARD_WIDTH + size) as ->.
  { apply ptr_add_small. unfold_layout. lia. }
  assert (forall j, 0 <= j < POOL_BLOCK_SIZE ->
            load8 p2 (block_data_addr i + j)
            = Some (if decide (j < GUARD_WIDTH) then guard_byte j else 0)) as Hp2.
  { intros j Hj. case_decide as Hlt.
    - apply Hset2. unfold GUARD_WIDTH in Hlt. lia.
    - rewrite Hkeep2 by (unfold GUARD_WIDTH in Hlt; lia).
      apply take_block_load8; [exact Hi|lia|exact Hj]. }
  destruct (store32_spec p2 (block_data_addr i + GUARD_WIDTH + size) GUARD_PATTERN)
    as (p3 & H3 & Hset3 & Hkeep3 & _).
  { unfold_layout. lia. }
  { unfold_layout. lia. }
  { intros k Hk. unfold mapped. rewrite <- !Z.add_assoc.
    rewrite Hp2 by (unfold_layout; lia). eauto. }
  rewrite H3. simpl. exists p3. split; [reflexivity|].
  intros j Hj.
  destruct (decide (GUARD_WIDTH + size <= j < 2 * GUARD_WIDTH + size)) as [Hin|Hout].
  - replace (block_data_addr i + j)
      with (block_data_addr i + GUARD_WIDTH + size + (j - GUARD_WIDTH - size)) by lia.
    rewrite Hset3 by (unfold GUARD_WIDTH in *; lia).
    case_decide; [unfold GUARD_WIDTH in *; lia|reflexivity].
  - rewrite Hkeep3 by (unfold GUARD_WIDTH in *; lia). apply Hp2, Hj.
Qed.

Lemma release_block_load8 (p : MemoryPool) (i : nat) (j : Z) :
  (i < length (blocks p))%nat -> (i < Z.to_nat POOL_NUM_BLOCKS)%nat ->
  0 <= j < POOL_BLOCK_SIZE ->
  load8 (release_block p i) (block_data_addr i + j) = Some 0.
Proof.
  intros Hi Hi' Hj. unfold load8.
  rewrite <- (Z2Nat.id j) by lia.
  rewrite locate_block by (unfold POOL_BLOCK_SIZE in *; lia). simpl.
  rewrite list_lookup_insert_eq by exact Hi. simpl.
  apply lookup_replicate_2. unfold POOL_BLOCK_SIZE in *. lia.
Qed.

(** A word whose lowest byte is not that of the sentinel is not the
    sentinel. *)
Lemma load32_low_byte (p : MemoryPool) (a b0 b1 b2 b3 : Z) :
  0 <= a -> a + 3 < SIZE_MOD ->
  load8 p a = Some b0 -> load8 p (a + 1) = Some b1 ->
  load8 p (a + 2) = Some b2 -> load8 p (a + 3) = Some b3 ->
  0 <= b0 < 256 -> b0 <> guard_byte 0 ->
  exists g, load32 p a = Some g /\ g <> GUARD_PATTERN.
Proof.
  intros Ha0 Ha3 H0 H1 H2 H3 Hb0 Hne. eexists. split.
  - apply load32_bytes; eassumption.
  - rewrite guard_byte_0 in Hne. change GUARD_PATTERN with 3735928559. lia.
Qed.

(** The pool in which a guarded buffer has just been created. *)
Lemma create_guarded_buffer_pool (p p' : MemoryPool) (size h : Z) :
  pool_wf p -> pool_inv p -> 0 < size <= POOL_BLOCK_SIZE - 2 * GUARD_WIDTH ->
  create_guarded_buffer p size = Some (p', h) -> h <> NULL ->
  exists i b,
    h = block_data_addr i + GUARD_WIDTH /\
    alloc_scan (blocks p) 0 = Some i /\
    blocks p !! i = Some b /\ in_use b = false /\
    guarded p' h size /\ pool_wf p' /\ pool_inv p' /\
    allocated_count p' = allocated_count p + 1 /\
    in_use <$> blocks p' = <[i := true]> (in_use <$> blocks p) /\
    (exists b', blocks p' !! i = Some b' /\ in_use b' = true).
Proof.
  intros Hwf Hinv Hsize Hcreate Hh.
  pose proof (create_guarded_buffer_spec p size Hwf Hsize) as Hspec.
  destruct (alloc_scan (blocks p) 0) as [i|] eqn:Hscan.
  2:{ rewrite Hspec in Hcreate. injection Hcreate as <- <-. exfalso. apply Hh. reflexivity. }
  destruct Hspec as (q & Hq & G & Hwfq & Hcq & _ & Huq).
  rewrite Hq in Hcreate. injection Hcreate as <- <-.
  destruct (alloc_scan_Some _ _ _ Hscan) as (_ & (b & Hb & Hfree) & _).
  rewrite Nat.sub_0_r in Hb.
  pose proof (lookup_lt_Some _ _ _ Hb) as Hi.
  destruct (take_block_inv p i b Hwf Hinv Hb Hfree) as [[Hinv1 Hr1] Hcount1].
  assert (in_use <$> blocks q = <[i := true]> (in_use <$> blocks p)) as Hflags.
  { rewrite Huq. simpl. rewrite list_fmap_insert. reflexivity. }
  exists i, b. split; [reflexivity|]. split; [reflexivity|].
  split; [exact Hb|]. split; [exact Hfree|]. split; [exact G|]. split; [exact Hwfq|].
  split; [|split; [lia|split; [exact Hflags|]]].
  - split; [|lia]. rewrite Hcq, Hinv1. symmetry. apply count_in_use_flags, Huq.
  - assert ((in_use <$> blocks q) !! i = Some true) as Hqi.
    { rewrite Hflags. apply list_lookup_insert_eq. rewrite length_fmap. exact Hi. }
    rewrite list_lookup_fmap in Hqi.
    destruct (blocks q !! i) as [b'|]; [|discriminate].
    exists b'. split; [reflexivity|]. injection Hqi as Hqi. exact Hqi.
Qed.

Lemma free_after_create (p p1 : MemoryPool) (size h : Z) :
  pool_wf p -> pool_inv p -> 0 < size <= POOL_BLOCK_SIZE - 2 * GUARD_WIDTH ->
  create_guarded_buffer p size = Some (p1, h) -> h <> NULL ->
  exists i,
    h = block_data_addr i + GUARD_WIDTH /\
    (i < length (blocks p1))%nat /\ (i < Z.to_nat POOL_NUM_BLOCKS)%nat /\
    free_guarded_buffer p1 h size = Some (release_block p1 i, false) /\
    allocated_count (release_block p1 i) = allocated_count p /\
    in_use <$> blocks (release_block p1 i) = in_use <$> blocks p /\
    blocks (release_block p1 i) !! i = Some (mkBlock zero_data false).
Proof.
  intros Hwf Hinv Hsize Hcreate Hh.
  destruct (create_guarded_buffer_pool _ _ _ _ Hwf Hinv Hsize Hcreate Hh)
    as (i & b & -> & Hscan & Hb & Hfree & G & Hwf1 & Hinv1 & Hcount1 & Hflags1 & b1 & Hb1 & Hused1).
  pose proof (lookup_lt_Some _ _ _ Hb1) as Hi1.
  pose proof Hi1 as Hi32. rewrite (wf_blocks _ Hwf1) in Hi32.
  exists i. split; [reflexivity|]. split; [exact Hi1|]. split; [exact Hi32|].
  rewrite (free_guarded_buffer_intact _ _ _ (guarded_check _ _ _ G)).
  assert (ptr_add (block_data_addr i + GUARD_WIDTH) (- GUARD_WIDTH) = block_data_addr i)
    as ->.
  { rewrite ptr_add_small; unfold_layout; lia. }
  destruct (pool_free_in_use p1 (block_data_addr i) i b1 Hwf1 Hinv1 Hb1 Hused1)
    as (-> & Hblk & Hcnt & _); [unfold POOL_BLOCK_SIZE; lia|].
  split; [reflexivity|]. split; [simpl in *; lia|]. split; [|exact Hblk].
  simpl. rewrite list_fmap_insert, Hflags1, list_insert_insert_eq. simpl.
  apply list_insert_id. rewrite list_lookup_fmap, Hb. simpl. rewrite Hfree. reflexivity.
Qed.

(** X8: creating a guarded buffer and freeing it with the size it was
    created with gives the block back: the free prints no warning,
    [allocated_count] and every in-use flag are what they were before the
    creation, and the block is left zero-filled. *)
Theorem guarded_buffer_round_trip (p p1 : MemoryPool) (size h : Z) :
  pool_wf p -> pool_inv p -> 0 < size <= POOL_BLOCK_SIZE - 2 * GUARD_WIDTH ->
  create_guarded_buffer p size = Some (p1, h) -> h <> NULL ->
  exists i p2,
    h = block_data_addr i + GUARD_WIDTH /\
    free_guarded_buffer p1 h size = Some (p2, false) /\
    allocated_count p2 = allocated_count p /\
    in_use <$> blocks p2 = in_use <$> blocks p /\
    blocks p2 !! i = Some (mkBlock zero_data false).
Proof.
  intros Hwf Hinv Hsize Hcreate Hh.
  destruct (free_after_create _ _ _ _ Hwf Hinv Hsize Hcreate Hh)
    as (i & Hhi & _ & _ & Hfree & Hcount & Hflags & Hblk).
  exists i, (release_block p1 i). auto.
Qed.

Lemma guarded_buffer_round_trip_witness :
  exists p1 h i p2,
    create_guarded_buffer g_memory_pool 16 = Some (p1, h) /\
    h = block_data_addr i + GUARD_WIDTH /\
    free_guarded_buffer p1 h 16 = Some (p2, false) /\
    allocated_count p2 = 0.
Proof.
  destruct (create_guarded_buffer g_memory_pool 16) as [[p1 h]|] eqn:Hcreate;
    [|vm_compute in Hcreate; discriminate].
  assert (h <> NULL) as Hh.
  { vm_compute in Hcreate. injection Hcreate as _ <-. discriminate. }
  destruct (guarded_buffer_round_trip g_memory_pool p1 16 h g_memory_pool_wf
              g_memory_pool_inv) as (i & p2 & Hi & Hfree & Hcount & _); auto.
  { unfold POOL_BLOCK_SIZE, GUARD_WIDTH. lia. }
  exists p1, h, i, p2. auto.
Defined.

(** X9: for a size whose sum with the marker widths does not wrap around,
    [create_guarded_buffer] returns NULL exactly when the size is 0, the size
    exceeds 56, or every block is in use, and then the pool is untouched;
    otherwise every payload byte of the new buffer reads zero. *)
Theorem create_guarded_buffer_result (p : MemoryPool) (size : Z) :
  pool_wf p -> 0 <= size <= SIZE_MAX - 2 * GUARD_WIDTH ->
  exists p' h,
    create_guarded_buffer p size = Some (p', h) /\
    (h = NULL <->
     size = 0 \/ size > POOL_BLOCK_SIZE - 2 * GUARD_WIDTH \/
     Forall (fun b => in_use b = true) (blocks p)) /\
    (h = NULL -> p' = p) /\
    (h <> NULL -> forall off, 0 <= off < size -> load8 p' (h + off) = Some 0).
Proof.
  intros Hwf Hrange.
  destruct (decide (size = 0)) as [->|Hnz].
  { exists p, NULL. split; [reflexivity|]. split; [tauto|]. split; [reflexivity|].
    intros H. exfalso. apply H. reflexivity. }
  destruct (decide (size <= POOL_BLOCK_SIZE - 2 * GUARD_WIDTH)) as [Hfit|Hbig].
  2:{ exists p, NULL. split; [apply create_guarded_buffer_too_large; lia|].
      split; [split; [intros _; right; left; lia|reflexivity]|].
      split; [reflexivity|]. intros H. exfalso. apply H. reflexivity. }
  assert (0 < size <= POOL_BLOCK_SIZE - 2 * GUARD_WIDTH) as Hsize by lia.
  pose proof (create_guarded_buffer_spec p size Hwf Hsize) as Hspec.
  destruct (alloc_scan (blocks p) 0) as [i|] eqn:Hscan.
  - destruct (create_guarded_buffer_layout p size i Hwf Hsize Hscan) as (p' & Hcreate & Hbytes).
    exists p', (block_data_addr i + GUARD_WIDTH). split; [exact Hcreate|].
    assert (block_data_addr i + GUARD_WIDTH <> NULL) as Hh by (unfold_layout; lia).
    split; [|split; [intros H; contradiction|]].
    + split; [intros H; contradiction|].
      intros [H|[H|H]]; [lia|lia|].
      apply (alloc_scan_None (blocks p) 0) in H. congruence.
    + intros _ off Hoff. rewrite <- Z.add_assoc.
      rewrite Hbytes by (unfold_layout; lia).
      repeat case_decide; try reflexivity; unfold GUARD_WIDTH in *; lia.
  - exists p, NULL. split; [exact Hspec|].
    split; [|split; [reflexivity|intros H; exfalso; apply H; reflexivity]].
    split; [|reflexivity]. intros _. right. right.
    apply (alloc_scan_None (blocks p) 0), Hscan.
Qed.

Lemma create_guarded_buffer_result_witness :
  exists p' h, create_guarded_buffer g_memory_pool 56 = Some (p', h).
Proof.
  destruct (create_guarded_buffer_result g_memory_pool 56 g_memory_pool_wf)
    as (p' & h & H & _).
  - unfold SIZE_MAX, GUARD_WIDTH. rewrite SIZE_MOD_eq. lia.
  - exists p', h. exact H.
Defined.

Lemma guard_byte_range (k : Z) : 0 <= guard_byte k < 256.
Proof. unfold guard_byte. apply Z.mod_pos_bound. lia. Qed.

(** X10: on a freshly created guarded buffer, the integrity check with any
    other size between 1 and 56 is false: the word it reads as end marker is
    payload, slack or a shifted part of the real marker.  Freeing with the
    wrong size is therefore refused: the warning is printed and the block
    stays allocated. *)
Theorem guarded_buffer_wrong_size (p p1 : MemoryPool) (size h size' : Z) :
  pool_wf p -> 0 < size <= POOL_BLOCK_SIZE - 2 * GUARD_WIDTH ->
  create_guarded_buffer p size = Some (p1, h) -> h <> NULL ->
  0 < size' <= POOL_BLOCK_SIZE - 2 * GUARD_WIDTH -> size' <> size ->
  check_buffer_integrity p1 h size' = Some false /\
  free_guarded_buffer p1 h size' = Some (p1, true).
Proof.
  intros Hwf Hsize Hcreate Hh Hsize' Hne.
  pose proof (create_guarded_buffer_spec p size Hwf Hsize) as Hspec.
  destruct (alloc_scan (blocks p) 0) as [i|] eqn:Hscan.
  2:{ rewrite Hspec in Hcreate. injection Hcreate as <- <-. exfalso. apply Hh. reflexivity. }
  clear Hspec.
  destruct (create_guarded_buffer_layout p size i Hwf Hsize Hscan) as (q & Hq & Hbytes).
  rewrite Hq in Hcreate. injection Hcreate as <- <-.
  pose proof (alloc_scan_lt _ _ Hscan) as Hi. rewrite (wf_blocks _ Hwf) in Hi.
  assert (check_buffer_integrity q (block_data_addr i + GUARD_WIDTH) size' = Some false)
    as Hcheck.
  { unfold check_buffer_integrity.
    assert (((block_data_addr i + GUARD_WIDTH =? NULL) || (size' =? 0)) = false) as ->.
    { apply orb_false_iff. split; apply Z.eqb_neq; unfold_layout; lia. }
    rewrite !ptr_add_small by (unfold_layout; lia).
    replace (block_data_addr i + GUARD_WIDTH + - GUARD_WIDTH) with (block_data_addr i) by lia.
    rewrite (marker_load32 q (block_data_addr i)); [|unfold_layout; lia..|].
    2:{ intros k Hk. rewrite Hbytes by (unfold POOL_BLOCK_SIZE; lia).
        case_decide; [reflexivity|unfold GUARD_WIDTH in *; lia]. }
    simpl.
    assert (forall k, 0 <= k < 4 -> exists x,
              load8 q (block_data_addr i + GUARD_WIDTH + size' + k) = Some x /\
              0 <= x < 256 /\ (k = 0 -> x <> guard_byte 0)) as Hword.
    { intros k Hk. rewrite <- !Z.add_assoc.
      rewrite Hbytes by (unfold_layout; lia). eexists. split; [reflexivity|].
      case_decide; [unfold GUARD_WIDTH in *; lia|].
      case_decide as Hin.
      - split; [apply guard_byte_range|]. intros ->.
        assert (size' - size = 1 \/ size' - size = 2 \/ size' - size = 3) as Hd
          by (unfold GUARD_WIDTH in *; lia).
        replace (GUARD_WIDTH + (size' + 0) - GUARD_WIDTH - size) with (size' - size) by lia.
        destruct Hd as [-> | [-> | ->]]; discriminate.
      - split; [lia|]. intros _. discriminate. }
    destruct (Hword 0 ltac:(lia)) as (b0 & H0 & Hr0 & Hn0).
    destruct (Hword 1 ltac:(lia)) as (b1 & H1 & _).
    destruct (Hword 2 ltac:(lia)) as (b2 & H2 & _).
    destruct (Hword 3 ltac:(lia)) as (b3 & H3 & _).
    rewrite Z.add_0_r in H0.
    destruct (load32_low_byte q (block_data_addr i + GUARD_WIDTH + size') b0 b1 b2 b3)
      as (g & Hg & Hgne); try assumption; try (unfold_layout; lia);
      try (apply Hn0; reflexivity).
    rewrite Hg. simpl. apply Z.eqb_neq in Hgne. rewrite Hgne. reflexivity. }
  split; [exact Hcheck|].
  rewrite (free_guarded_buffer_corrupted _ _ _ Hcheck).
  apply Z.eqb_neq in Hh. rewrite Hh. reflexivity.
Qed.

Lemma guarded_buffer_wrong_size_witness :
  exists p1 h,
    create_guarded_buffer g_memory_pool 16 = Some (p1, h) /\
    free_guarded_buffer p1 h 17 = Some (p1, true).
Proof.
  destruct (create_guarded_buffer g_memory_pool 16) as [[p1 h]|] eqn:Hcreate;
    [|vm_compute in Hcreate; discriminate].
  assert (h <> NULL) as Hh.
  { vm_compute in Hcreate. injection Hcreate as _ <-. discriminate. }
  destruct (guarded_buffer_wrong_size g_memory_pool p1 16 h 17 g_memory_pool_wf)
    as [_ Hfree]; auto; try (unfold POOL_BLOCK_SIZE, GUARD_WIDTH; lia).
  exists p1, h. auto.
Defined.

(** X11: a second [free_guarded_buffer] on a handle that was already freed
    is refused.  The first free zero-filled the block, so the integrity check
    fails, the warning is printed, [pool_free] is not reached and the pool is
    left exactly as the first free left it. *)
Theorem guarded_buffer_double_free (p p1 p2 : MemoryPool) (size h : Z) (warned : bool) :
  pool_wf p -> pool_inv p -> 0 < size <= POOL_BLOCK_SIZE - 2 * GUARD_WIDTH ->
  create_guarded_buffer p size = Some (p1, h) -> h <> NULL ->
  free_guarded_buffer p1 h size = Some (p2, warned) ->
  warned = false /\
  check_buffer_integrity p2 h size = Some false /\
  free_guarded_buffer p2 h size = Some (p2, true).
Proof.
  intros Hwf Hinv Hsize Hcreate Hh Hfree.
  destruct (free_after_create _ _ _ _ Hwf Hinv Hsize Hcreate Hh)
    as (i & -> & Hi & Hi32 & Hfree' & _).
  rewrite Hfree' in Hfree. injection Hfree as <- <-.
  split; [reflexivity|].
  assert (check_buffer_integrity (release_block p1 i) (block_data_addr i + GUARD_WIDTH) size
          = Some false) as Hcheck.
  { unfold check_buffer_integrity.
    assert (((block_data_addr i + GUARD_WIDTH =? NULL) || (size =? 0)) = false) as ->.
    { apply orb_false_iff. split; apply Z.eqb_neq; unfold_layout; lia. }
    rewrite !ptr_add_small by (unfold_layout; lia).
    replace (block_data_addr i + GUARD_WIDTH + - GUARD_WIDTH) with (block_data_addr i) by lia.
    pose proof (fun j => release_block_load8 p1 i j Hi Hi32) as Hzero.
    pose proof (Hzero 0 ltac:(unfold POOL_BLOCK_SIZE; lia)) as H0. rewrite Z.add_0_r in H0.
    destruct (load32_low_byte (release_block p1 i) (block_data_addr i) 0 0 0 0)
      as (g & Hg & Hgne); try (unfold_layout; lia); try exact H0;
      try (apply Hzero; unfold POOL_BLOCK_SIZE; lia); [discriminate|].
    rewrite Hg. simpl. apply Z.eqb_neq in Hgne. rewrite Hgne. reflexivity. }
  split; [exact Hcheck|].
  rewrite (free_guarded_buffer_corrupted _ _ _ Hcheck).
  assert ((block_data_addr i + GUARD_WIDTH =? NULL) = false) as ->
    by (apply Z.eqb_neq; unfold_layout; lia).
  reflexivity.
Qed.

Lemma guarded_buffer_double_free_witness :
  exists p1 h p2,
    create_guarded_buffer g_memory_pool 16 = Some (p1, h) /\
    free_guarded_buffer p1 h 16 = Some (p2, false) /\
    free_guarded_buffer p2 h 16 = Some (p2, true).
Proof.
  destruct (create_guarded_buffer g_memory_pool 16) as [[p1 h]|] eqn:Hcreate;
    [|vm_compute in Hcreate; discriminate].
  assert (h <> NULL) as Hh.
  { vm_compute in Hcreate. injection Hcreate as _ <-. discriminate. }
  assert (0 < 16 <= POOL_BLOCK_SIZE - 2 * GUARD_WIDTH) as Hsize
    by (unfold POOL_BLOCK_SIZE, GUARD_WIDTH; lia).
  destruct (free_after_create _ _ _ _ g_memory_pool_wf g_memory_pool_inv Hsize Hcreate Hh)
    as (i & _ & _ & _ & Hfree & _).
  destruct (guarded_buffer_double_free g_memory_pool p1 (release_block p1 i) 16 h false
              g_memory_pool_wf g_memory_pool_inv Hsize Hcreate Hh Hfree)
    as (_ & _ & Hagain).
  exists p1, h, (release_block p1 i). auto.
Defined.

(** * Bounded string concatenation *)

Lemma byte_at_lookup (l : list Z) (i : nat) (x : Z) : l !! i = Some x -> byte_at l i = x.
Proof. intros H. unfold byte_at. rewrite H. reflexivity. Qed.

(** The scan stops at the first zero byte, or at [dest_size]. *)
Lemma strlen_loop_terminated (t rest : list Z) (n : nat) :
  forall i,
    Forall (fun c => c <> 0) t -> (i <= length t)%nat ->
    strlen_loop n i (t ++ 0 :: rest) = (length t `min` (i + n))%nat.
Proof.
  induction n as [|n IH]; intros i Ht Hi; simpl.
  - lia.
  - destruct (decide (i = length t)) as [->|Hne].
    + rewrite (byte_at_lookup _ _ 0); [simpl; lia|].
      rewrite lookup_app_r by lia. rewrite Nat.sub_diag. reflexivity.
    + destruct (lookup_lt_is_Some_2 t i ltac:(lia)) as [c Hc].
      rewrite (byte_at_lookup _ _ c) by (apply lookup_app_l_Some, Hc).
      assert (c <> 0) as Hc0 by (eapply Forall_lookup_1 in Ht; eauto).
      apply Z.eqb_neq in Hc0. rewrite Hc0. rewrite IH by (auto; lia). lia.
Qed.

Lemma strlen_loop_unterminated (d : list Z) (n : nat) :
  forall i,
    (i + n <= length d)%nat ->
    (forall k c, (i <= k < i + n)%nat -> d !! k = Some c -> c <> 0) ->
    strlen_loop n i d = (i + n)%nat.
Proof.
  induction n as [|n IH]; intros i Hlen Hnz; simpl.
  - lia.
  - destruct (lookup_lt_is_Some_2 d i ltac:(lia)) as [c Hc].
    rewrite (byte_at_lookup _ _ c Hc).
    assert (c <> 0) as Hc0 by (apply (Hnz i c); [lia|exact Hc]).
    apply Z.eqb_neq in Hc0. rewrite Hc0. rewrite IH; [lia|lia|].
    intros k c' Hk. apply Hnz. lia.
Qed.

Lemma strcat_loop_spec (s : list Z) (dest_len n : nat) :
  forall (i : nat) (d : list Z),
    Forall (fun c => c <> 0) s ->
    (i <= length s)%nat -> (dest_len + i + n <= length d)%nat ->
    exists d',
      strcat_loop n i dest_len d (c_string s) = (d', (length s `min` (i + n))%nat) /\
      length d' = length d /\
      forall k, d' !! k =
                if decide (dest_len + i <= k < dest_len + length s `min` (i + n))%nat
                then s !! (k - dest_len)%nat else d !! k.
Proof.
  induction n as [|n IH]; intros i d Hs Hi Hd; simpl.
  - exists d. rewrite Nat.add_0_r, Nat.min_r by lia.
    split; [reflexivity|]. split; [reflexivity|].
    intros k. case_decide; [lia|reflexivity].
  - destruct (decide (i = length s)) as [->|Hne].
    + rewrite byte_at_c_string_end. simpl.
      exists d. rewrite Nat.min_l by lia.
      split; [reflexivity|]. split; [reflexivity|].
      intros k. case_decide; [lia|reflexivity].
    + destruct (lookup_lt_is_Some_2 s i ltac:(lia)) as [c Hc].
      rewrite (byte_at_c_string_lt _ _ _ Hc).
      assert (c <> 0) as Hc0 by (eapply Forall_lookup_1 in Hs; eauto).
      apply Z.eqb_neq in Hc0. rewrite Hc0.
      destruct (IH (S i) (<[(dest_len + i)%nat := c]> d) Hs ltac:(lia))
        as (d' & Hloop & Hlen & Hlook).
      { rewrite length_insert. lia. }
      exists d'. replace (i + S n)%nat with (S i + n)%nat by lia.
      split; [exact Hloop|]. split; [rewrite Hlen; apply length_insert|].
      intros k. rewrite Hlook.
      destruct (decide (k = dest_len + i)%nat) as [->|Hk].
      * rewrite list_lookup_insert_eq by lia.
        repeat case_decide; try lia.
        replace (dest_len + i - dest_len)%nat with i by lia. symmetry. exact Hc.
      * rewrite list_lookup_insert_ne by congruence.
        repeat case_decide; try lia; reflexivity.
Qed.

(** Appending to a destination that holds the string [t]. *)
Lemma safe_strcat_append (t rest : list Z) (cap : Z) (s : list Z) :
  Forall (fun c => c <> 0) t -> Forall (fun c => c <> 0) s ->
  Z.of_nat (length t) < cap <= Z.of_nat (length (t ++ 0 :: rest)) ->
  let m := (length s `min` Z.to_nat (cap - 1 - Z.of_nat (length t)))%nat in
  safe_strcat (Some (t ++ 0 :: rest)) cap (Some (c_string s)) =
    (if Z.of_nat (length t) + Z.of_nat (length s) <? cap then 0 else 1,
     Some (t ++ take m s ++ 0 :: drop (length t + m + 1) (t ++ 0 :: rest))).
Proof.
  intros Ht Hs Hcap m. unfold safe_strcat.
  assert ((cap =? 0) = false) as -> by (apply Z.eqb_neq; lia).
  rewrite (strlen_loop_terminated t rest _ 0 Ht) by lia.
  rewrite Nat.add_0_l, Nat.min_l by lia.
  assert ((Z.of_nat (length t) >=? cap) = false) as ->.
  { rewrite Z.geb_leb. apply Z.leb_gt. lia. }
  set (d := t ++ 0 :: rest) in *.
  destruct (strcat_loop_spec s (length t) (Z.to_nat (cap - 1 - Z.of_nat (length t))) 0 d Hs
              ltac:(lia) ltac:(lia)) as (d' & Hloop & Hlen & Hlook).
  simpl in Hloop. rewrite Hloop. fold m. fold m in Hlook.
  assert (m <= length s)%nat as Hm1 by (unfold m; lia).
  assert (length t + m < length d)%nat as Hm2 by (unfold m; lia).
  f_equal.
  - destruct (Z.of_nat (length t) + Z.of_nat (length s) <? cap) eqn:Hlt.
    + apply Z.ltb_lt in Hlt. assert (m = length s) as -> by (unfold m; lia).
      rewrite byte_at_c_string_end. reflexivity.
    + apply Z.ltb_ge in Hlt.
      destruct (lookup_lt_is_Some_2 s m ltac:(unfold m; lia)) as [c Hc].
      rewrite (byte_at_c_string_lt _ _ _ Hc).
      assert (c <> 0) as Hc0 by (eapply Forall_lookup_1 in Hs; eauto).
      apply Z.eqb_neq in Hc0. rewrite Hc0. reflexivity.
  - f_equal. apply list_eq. intros k.
    destruct (decide (k < length t)%nat) as [Hk|Hk].
    + rewrite list_lookup_insert_ne by lia. rewrite Hlook.
      case_decide; [lia|]. unfold d. rewrite !lookup_app_l by lia. reflexivity.
    + rewrite (lookup_app_r t) by lia.
      destruct (decide (k < length t + m)%nat) as [Hkm|Hkm].
      * rewrite list_lookup_insert_ne by lia. rewrite Hlook.
        case_decide; [|lia].
        rewrite lookup_app_l by (rewrite length_take; lia).
        rewrite lookup_take_lt by lia. reflexivity.
      * rewrite lookup_app_r by (rewrite length_take; lia).
        rewrite length_take, Nat.min_l by lia.
        destruct (decide (k = length t + m)%nat) as [->|Hkn].
        -- rewrite list_lookup_insert_eq by lia.
           replace (length t + m - length t - m)%nat with 0%nat by lia. reflexivity.
        -- rewrite list_lookup_insert_ne by congruence. rewrite Hlook.
           case_decide; [lia|].
           replace (k - length t - m)%nat with (S (k - length t - m - 1)) by lia. simpl.
           rewrite lookup_drop. f_equal. lia.
Qed.

(** X12: [safe_strcat] returns -1 and leaves the destination as it is when
    [dest] or [src] is null, when the capacity is 0, and when the first
    [capacity] bytes of the destination hold no terminator.  When the
    destination holds a string [t] shorter than the capacity, it appends the
    first [m = min (strlen s) (capacity - 1 - strlen t)] bytes of the source
    after [t], writes the terminator behind them and leaves every later byte
    as it was; it returns 0 when [strlen t + strlen s < capacity] and 1
    (truncated) otherwise. *)
Theorem safe_strcat_contract :
  (forall dest cap src,
     dest = None \/ src = None \/ cap = 0 -> safe_strcat dest cap src = (-1, dest)) /\
  (forall d cap src,
     0 < cap <= Z.of_nat (length d) ->
     Forall (fun c => c <> 0) (take (Z.to_nat cap) d) ->
     safe_strcat (Some d) cap (Some src) = (-1, Some d)) /\
  (forall t rest cap s,
     Forall (fun c => c <> 0) t -> Forall (fun c => c <> 0) s ->
     Z.of_nat (length t) < cap <= Z.of_nat (length (t ++ 0 :: rest)) ->
     let m := (length s `min` Z.to_nat (cap - 1 - Z.of_nat (length t)))%nat in
     Z.of_nat (length t + m) <= cap - 1 /\
     safe_strcat (Some (t ++ 0 :: rest)) cap (Some (c_string s)) =
       (if Z.of_nat (length t) + Z.of_nat (length s) <? cap then 0 else 1,
        Some (t ++ take m s ++ 0 :: drop (length t + m + 1) (t ++ 0 :: rest)))).
Proof.
  split; [|split].
  - intros dest cap src [-> | [-> | ->]].
    + reflexivity.
    + destruct dest; reflexivity.
    + destruct dest, src; reflexivity.
  - intros d cap src Hcap Hnz. unfold safe_strcat.
    assert ((cap =? 0) = false) as -> by (apply Z.eqb_neq; lia).
    rewrite strlen_loop_unterminated; [|lia|].
    + assert ((Z.of_nat (0 + Z.to_nat cap) >=? cap) = true) as ->; [|reflexivity].
      rewrite Z.geb_leb. apply Z.leb_le. lia.
    + intros k c Hk Hc. apply (Forall_lookup_1 _ _ k c) in Hnz; [exact Hnz|].
      rewrite lookup_take_lt by lia. exact Hc.
  - intros t rest cap s Ht Hs Hcap m. split; [unfold m; lia|].
    apply safe_strcat_append; assumption.
Qed.

Lemma safe_strcat_contract_witness :
  safe_strcat (Some (hello_comma ++ 0 :: replicate 24 0xAA)) 10 (Some (c_string hello_world))
  = (1, Some (hello_comma ++ [72; 101] ++ 0 :: replicate 22 0xAA)).
Proof.
  destruct safe_strcat_contract as (_ & _ & H).
  destruct (H hello_comma (replicate 24 0xAA) 10 hello_world) as [_ Heq].
  - repeat constructor; discriminate.
  - repeat constructor; discriminate.
  - simpl. lia.
  - exact Heq.
Defined.

Lemma take_min_length {A : Type} (l : list A) (k : nat) :
  take (length l `min` k)%nat l = take k l.
Proof.
  destruct (decide (k <= length l)%nat).
  - rewrite Nat.min_r by lia. reflexivity.
  - rewrite Nat.min_l by lia. rewrite !take_ge by lia. reflexivity.
Qed.

(** X13: copying [s1] into a buffer and then appending [s2], both with the
    same capacity, leaves the first [capacity - 1] bytes of [s1 ++ s2]
    followed by a terminator, and nothing after the terminator is touched.
    The status of the append only tells whether [s2] was cut: it is 0 when
    [s2] is empty even if [s1] itself had been truncated by the copy. *)
Theorem safe_strcpy_then_strcat (d : list Z) (cap : Z) (s1 s2 : list Z) :
  0 < cap <= Z.of_nat (length d) ->
  Forall (fun c => c <> 0) s1 -> Forall (fun c => c <> 0) s2 ->
  let n := (length s1 `min` Z.to_nat (cap - 1))%nat in
  exists d1,
    snd (safe_strcpy (Some d) cap (Some (c_string s1))) = Some d1 /\
    safe_strcat (Some d1) cap (Some (c_string s2)) =
      (if Z.of_nat n + Z.of_nat (length s2) <? cap then 0 else 1,
       Some (take (Z.to_nat (cap - 1)) (s1 ++ s2) ++
             0 :: drop (S ((length s1 + length s2) `min` Z.to_nat (cap - 1))) d)).
Proof.
  intros Hcap Hs1 Hs2 n.
  rewrite (safe_strcpy_copy d cap s1 Hcap Hs1). fold n. simpl snd.
  eexists. split; [reflexivity|].
  assert (length (take n s1) = n) as Hlt by (rewrite length_take; unfold n; lia).
  assert (n < length d)%nat as Hnd by (unfold n; lia).
  rewrite (safe_strcat_append (take n s1) (drop (S n) d) cap s2);
    [|apply Forall_take, Hs1|exact Hs2|].
  2:{ rewrite length_app. simpl. rewrite length_drop, Hlt. unfold n. lia. }
  rewrite Hlt. f_equal. f_equal.
  set (m := (length s2 `min` Z.to_nat (cap - 1 - Z.of_nat n))%nat).
  rewrite app_assoc. f_equal.
  - rewrite take_app. unfold n. rewrite take_min_length. f_equal.
    unfold m. rewrite <- (take_min_length s2 (Z.to_nat (cap - 1) - length s1)).
    f_equal. unfold n. lia.
  - f_equal.
    rewrite drop_app_ge by (rewrite Hlt; lia). rewrite Hlt.
    replace (n + m + 1 - n)%nat with (S m) by lia. simpl.
    rewrite drop_drop. f_equal. unfold m, n. lia.
Qed.

Lemma safe_strcpy_then_strcat_witness :
  exists d1,
    snd (safe_strcpy (Some (replicate 16 0xAA)) 16 (Some (c_string hello_comma))) = Some d1 /\
    safe_strcat (Some d1) 16 (Some (c_string hello_world)) =
      (1, Some (take 15 (hello_comma ++ hello_world) ++ [0])).
Proof.
  destruct (safe_strcpy_then_strcat (replicate 16 0xAA) 16 hello_comma hello_world)
    as (d1 & H1 & H2).
  - simpl. lia.
  - repeat constructor; discriminate.
  - repeat constructor; discriminate.
  - exists d1. split; [exact H1|exact H2].
Defined.

(** * Secure clear and comparison *)

Lemma memclear_loop_spec (n : nat) :
  forall (i : nat) (mem : list Z),
    length (memclear_loop n i mem) = length mem /\
    forall k, memclear_loop n i mem !! k =
              if decide (i <= k < i + n /\ k < length mem)%nat then Some 0 else mem !! k.
Proof.
  induction n as [|n IH]; intros i mem; simpl.
  - split; [reflexivity|]. intros k. case_decide; [lia|reflexivity].
  - destruct (IH (S i) (<[i := 0]> mem)) as [Hlen Hlook].
    rewrite length_insert in Hlen, Hlook. split; [exact Hlen|].
    intros k. rewrite Hlook.
    destruct (decide (k = i)) as [->|Hk].
    + repeat case_decide; try lia; try reflexivity.
      * apply list_lookup_insert_eq. lia.
      * rewrite list_insert_ge by lia. reflexivity.
    + rewrite list_lookup_insert_ne by congruence.
      repeat case_decide; try lia; reflexivity.
Qed.

Lemma memclear_loop_prefix (mem : list Z) (n : nat) :
  (n <= length mem)%nat ->
  memclear_loop n 0 mem = replicate n 0 ++ drop n mem.
Proof.
  intros Hn. destruct (memclear_loop_spec n 0 mem) as [_ Hlook].
  apply list_eq. intros k. rewrite Hlook.
  destruct (decide (k < n)%nat) as [Hk|Hk].
  - rewrite lookup_app_l by (rewrite length_replicate; lia).
    rewrite lookup_replicate_2 by lia. case_decide; [reflexivity|lia].
  - rewrite lookup_app_r by (rewrite length_replicate; lia).
    rewrite length_replicate, lookup_drop. case_decide; [lia|]. f_equal. lia.
Qed.

(** X14: [secure_memclear] on a region of at least [size] bytes sets its
    first [size] bytes to zero and leaves every byte after them as it was;
    with a null pointer or size 0 it does nothing. *)
Theorem secure_memclear_contract :
  (forall size, secure_memclear None size = None) /\
  (forall mem, secure_memclear (Some mem) 0 = Some mem) /\
  (forall mem size,
     0 <= size <= Z.of_nat (length mem) ->
     secure_memclear (Some mem) size =
       Some (replicate (Z.to_nat size) 0 ++ drop (Z.to_nat size) mem)).
Proof.
  split; [reflexivity|]. split; [reflexivity|].
  intros mem size Hsize. unfold secure_memclear.
  destruct (size =? 0) eqn:Hz.
  - apply Z.eqb_eq in Hz. subst size. reflexivity.
  - rewrite memclear_loop_prefix by lia. reflexivity.
Qed.

Lemma secure_memclear_contract_witness :
  secure_memclear (Some [115; 101; 99; 114; 101; 116]) 4 = Some [0; 0; 0; 0; 101; 116].
Proof.
  destruct secure_memclear_contract as (_ & _ & H).
  apply (H [115; 101; 99; 114; 101; 116] 4). simpl. lia.
Defined.

Lemma memcmp_loop_sym (a b : list Z) (n : nat) :
  forall i r, memcmp_loop n i a b r = memcmp_loop n i b a r.
Proof.
  induction n as [|n IH]; intros i r; simpl; [reflexivity|].
  rewrite (Z.lxor_comm (byte_at a i)). apply IH.
Qed.

(** X15: the edge cases of [secure_memcmp]: a null pointer on either side
    gives false, even for size 0 and even when both are null; two non-null
    regions compared over 0 bytes are equal; and the result does not depend
    on the order of the two arguments. *)
Theorem secure_memcmp_edges :
  (forall ptr size, secure_memcmp None ptr size = false /\
                    secure_memcmp ptr None size = false) /\
  (forall a b, secure_memcmp (Some a) (Some b) 0 = true) /\
  (forall ptr1 ptr2 size, secure_memcmp ptr1 ptr2 size = secure_memcmp ptr2 ptr1 size).
Proof.
  split; [|split].
  - intros ptr size. split; [reflexivity|]. destruct ptr; reflexivity.
  - reflexivity.
  - intros [a|] [b|] size; try reflexivity.
    unfold secure_memcmp. rewrite memcmp_loop_sym. reflexivity.
Qed.

(** X16: after [secure_memclear] of the first [size] bytes, the region
    compares equal, under [secure_memcmp] over [size] bytes, to any region
    that starts with [size] zero bytes. *)
Theorem secure_memclear_then_memcmp (mem zeros : list Z) (size : Z) :
  Forall is_byte mem -> Forall is_byte zeros ->
  0 <= size <= Z.of_nat (length mem) ->
  take (Z.to_nat size) zeros = replicate (Z.to_nat size) 0 ->
  secure_memcmp (secure_memclear (Some mem) size) (Some zeros) size = true.
Proof.
  intros Hmem Hzeros Hsize Hz.
  assert (Z.to_nat size <= length zeros)%nat as Hlz.
  { apply (f_equal length) in Hz. rewrite length_take, length_replicate in Hz. lia. }
  assert (secure_memclear (Some mem) size
          = Some (replicate (Z.to_nat size) 0 ++ drop (Z.to_nat size) mem)) as ->.
  { unfold secure_memclear. destruct (size =? 0) eqn:Hs.
    - apply Z.eqb_eq in Hs. subst size. reflexivity.
    - rewrite memclear_loop_prefix by lia. reflexivity. }
  unfold secure_memcmp.
  rewrite memcmp_loop_spec; try assumption; try (unfold is_byte; lia).
  - rewrite Z.lor_0_l, !drop_0, Hz.
    rewrite take_app_length' by (rewrite length_replicate; reflexivity).
    apply Z.eqb_eq. apply or_of_xors_zero; reflexivity.
  - apply Forall_app. split; [apply Forall_replicate; unfold is_byte; lia|].
    apply Forall_drop, Hmem.
  - rewrite length_app, length_replicate. lia.
Qed.

Lemma secure_memclear_then_memcmp_witness :
  secure_memcmp (secure_memclear (Some [115; 101; 99]) 2) (Some [0; 0; 7]) 2 = true.
Proof.
  apply (secure_memclear_then_memcmp [115; 101; 99] [0; 0; 7] 2).
  - repeat constructor; unfold is_byte; lia.
  - repeat constructor; unfold is_byte; lia.
  - simpl. lia.
  - reflexivity.
Defined.

(** * Stack *)

Lemma stack_contents_length (s : Stack) :
  stack_wf s -> Z.of_nat (length (stack_contents s)) = stack_top s + 1.
Proof.
  intros [Hlen Htop]. unfold stack_contents. rewrite length_take, Hlen.
  unfold STACK_MAX_SIZE in *. lia.
Qed.

Lemma stack_push_ok (s : Stack) (v : Z) :
  stack_wf s -> stack_top s + 1 < STACK_MAX_SIZE ->
  stack_push s v = (mkStack (<[Z.to_nat (stack_top s + 1) := v]> (stack_data s))
                            (stack_top s + 1), true) /\
  stack_wf (fst (stack_push s v)) /\
  stack_contents (fst (stack_push s v)) = stack_contents s ++ [v].
Proof.
  intros [Hlen Htop] Hroom. unfold stack_push, stack_is_full.
  assert ((stack_top s =? STACK_MAX_SIZE - 1) = false) as -> by (apply Z.eqb_neq; lia).
  split; [reflexivity|]. simpl. split.
  - split; simpl; [rewrite length_insert; exact Hlen|lia].
  - unfold stack_contents. simpl.
    replace (Z.to_nat (stack_top s + 1 + 1)) with (S (Z.to_nat (stack_top s + 1))) by lia.
    rewrite (take_S_r _ _ v).
    + rewrite take_insert_ge by lia. reflexivity.
    + apply list_lookup_insert_eq. unfold STACK_MAX_SIZE in *. lia.
Qed.

Lemma stack_pop_ok (s : Stack) (l : list Z) (v : Z) :
  stack_wf s -> stack_contents s = l ++ [v] ->
  stack_peek s = Some v /\
  stack_pop s = (mkStack (stack_data s) (stack_top s - 1), Some v) /\
  stack_wf (fst (stack_pop s)) /\
  stack_contents (fst (stack_pop s)) = l.
Proof.
  intros Hwf Hc. pose proof (stack_contents_length s Hwf) as Hlen.
  destruct Hwf as [Hdata Htop].
  rewrite Hc, length_app in Hlen. simpl in Hlen.
  assert (elem_at (stack_data s) (stack_top s) = v) as Helem.
  { unfold elem_at.
    assert (stack_contents s !! Z.to_nat (stack_top s) = Some v) as Hv.
    { rewrite Hc. rewrite lookup_app_r by lia.
      replace (Z.to_nat (stack_top s) - length l)%nat with 0%nat by lia. reflexivity. }
    unfold stack_contents in Hv. rewrite lookup_take_lt in Hv by lia.
    rewrite Hv. reflexivity. }
  unfold stack_peek, stack_pop, stack_is_empty.
  assert ((stack_top s =? -1) = false) as -> by (apply Z.eqb_neq; lia).
  rewrite Helem. split; [reflexivity|]. split; [reflexivity|]. simpl. split.
  - split; simpl; [exact Hdata|lia].
  - unfold stack_contents in *. simpl.
    replace (Z.to_nat (stack_top s - 1 + 1)) with (length l) by lia.
    transitivity (take (length l) (take (Z.to_nat (stack_top s + 1)) (stack_data s))).
    + rewrite take_take. f_equal. lia.
    + rewrite Hc. apply take_app_length.
Qed.

(** X17: a well-formed stack behaves as the list of its elements.
    [stack_size] is the length of the list, [stack_is_empty] and
    [stack_is_full] say whether it has 0 or 128 elements; a push on a stack
    that is not full succeeds and adds the value at the end; a push on a
    full stack returns false and changes nothing; pop and peek on a non-empty
    stack return the last value pushed, pop removing it; on an empty stack
    both return false and change nothing. *)
Theorem stack_refines_list (s : Stack) :
  stack_wf s ->
  stack_size s = Z.of_nat (length (stack_contents s)) /\
  (stack_is_empty s = true <-> stack_contents s = []) /\
  (stack_is_full s = true <-> Z.of_nat (length (stack_contents s)) = STACK_MAX_SIZE) /\
  (forall v,
     if stack_is_full s then stack_push s v = (s, false)
     else snd (stack_push s v) = true /\
          stack_wf (fst (stack_push s v)) /\
          stack_contents (fst (stack_push s v)) = stack_contents s ++ [v]) /\
  (stack_contents s = [] -> stack_pop s = (s, None) /\ stack_peek s = None) /\
  (forall l v,
     stack_contents s = l ++ [v] ->
     stack_peek s = Some v /\
     snd (stack_pop s) = Some v /\
     stack_wf (fst (stack_pop s)) /\
     stack_contents (fst (stack_pop s)) = l).
Proof.
  intros Hwf. pose proof (stack_contents_length s Hwf) as Hlen.
  assert (stack_is_empty s = true <-> stack_contents s = []) as Hempty.
  { unfold stack_is_empty. rewrite Z.eqb_eq. split.
    - intros H. apply length_zero_iff_nil. lia.
    - intros H. rewrite H in Hlen. simpl in Hlen. lia. }
  split; [unfold stack_size; lia|]. split; [exact Hempty|].
  split; [unfold stack_is_full; rewrite Z.eqb_eq; lia|].
  split; [|split].
  - intros v. destruct (stack_is_full s) eqn:Hfull.
    + unfold stack_push. rewrite Hfull. reflexivity.
    + unfold stack_is_full in Hfull. apply Z.eqb_neq in Hfull.
      destruct (stack_push_ok s v Hwf) as (-> & Hwf' & Hc); [destruct Hwf; lia|].
      auto.
  - intros Hnil. apply Hempty in Hnil. unfold stack_pop, stack_peek.
    rewrite Hnil. auto.
  - intros l v Hc. destruct (stack_pop_ok s l v Hwf Hc) as (Hpeek & Hpop & Hwf' & Hc').
    rewrite Hpop in *. auto.
Qed.

Lemma stack_refines_list_witness :
  stack_contents (fst (stack_push (stack_init (mkStack (replicate 128 0) 5)) 10)) = [10].
Proof.
  destruct (stack_refines_list (stack_init (mkStack (replicate 128 0) 5)))
    as (_ & _ & _ & Hpush & _).
  - split; [reflexivity|]. simpl. unfold STACK_MAX_SIZE. lia.
  - specialize (Hpush 10). simpl in Hpush. destruct Hpush as (_ & _ & Hc). exact Hc.
Defined.

Lemma stack_push_all_spec (values : list Z) :
  forall s,
    stack_wf s ->
    Z.of_nat (length (stack_contents s) + length values) <= STACK_MAX_SIZE ->
    stack_wf (stack_push_all s values) /\
    stack_contents (stack_push_all s values) = stack_contents s ++ values.
Proof.
  induction values as [|v values IH]; intros s Hwf Hroom; simpl.
  - rewrite app_nil_r. auto.
  - pose proof (stack_contents_length s Hwf) as Hlen. simpl in Hroom.
    destruct (stack_push_ok s v Hwf ltac:(lia)) as (_ & Hwf' & Hc).
    destruct (IH (fst (stack_push s v)) Hwf') as [Hwf'' Hc''].
    + rewrite Hc, length_app. simpl. lia.
    + split; [exact Hwf''|]. rewrite Hc'', Hc, <- app_assoc. reflexivity.
Qed.

Lemma stack_drain_spec (fuel : nat) :
  forall s,
    stack_wf s -> (length (stack_contents s) <= fuel)%nat ->
    exists final,
      stack_drain fuel s = Some (reverse (stack_contents s), final) /\
      stack_wf final /\ stack_top final = -1 /\ stack_data final = stack_data s.
Proof.
  induction fuel as [|fuel IH]; intros s Hwf Hfuel.
  - assert (stack_contents s = []) as Hnil by (apply length_zero_iff_nil; lia).
    pose proof (stack_contents_length s Hwf) as Hlen. rewrite Hnil in *. simpl in Hlen.
    exists s. simpl. unfold stack_is_empty.
    assert ((stack_top s =? -1) = true) as -> by (apply Z.eqb_eq; lia).
    split; [reflexivity|]. split; [exact Hwf|]. split; [lia|reflexivity].
  - destruct (stack_contents s) as [|x c] eqn:Hc using rev_ind.
    + pose proof (stack_contents_length s Hwf) as Hlen. rewrite Hc in Hlen. simpl in Hlen.
      exists s. simpl. unfold stack_is_empty.
      assert ((stack_top s =? -1) = true) as -> by (apply Z.eqb_eq; lia).
      split; [reflexivity|]. split; [exact Hwf|]. split; [lia|reflexivity].
    + clear IHc.
      pose proof (stack_contents_length s Hwf) as Hlen.
      rewrite Hc in Hlen. rewrite length_app in Hlen, Hfuel. simpl in Hlen, Hfuel.
      destruct (stack_pop_ok s c x Hwf Hc) as (_ & Hpop & Hwf' & Hc').
      rewrite Hpop in Hwf', Hc'. simpl in Hwf', Hc'.
      destruct (IH _ Hwf' ltac:(rewrite Hc'; lia)) as (final & Hd & Hwff & Htop & Hdata).
      exists final. simpl. unfold stack_is_empty.
      assert ((stack_top s =? -1) = false) as -> by (apply Z.eqb_neq; lia).
      rewrite Hpop, Hd. simpl. rewrite Hc', reverse_snoc.
      split; [reflexivity|]. auto.
Qed.

(** X18: last in, first out.  Pushing the values of a list that fits on the
    stack and then popping until the stack is empty, as [test_stack] does,
    returns first what was pushed last and then what the stack held before,
    newest first, and leaves the stack empty; 128 iterations of the draining
    loop always suffice. *)
Theorem stack_lifo (s : Stack) (values : list Z) :
  stack_wf s ->
  Z.of_nat (length (stack_contents s) + length values) <= STACK_MAX_SIZE ->
  exists final,
    stack_drain (Z.to_nat STACK_MAX_SIZE) (stack_push_all s values)
      = Some (reverse values ++ reverse (stack_contents s), final) /\
    stack_is_empty final = true.
Proof.
  intros Hwf Hroom.
  destruct (stack_push_all_spec values s Hwf Hroom) as [Hwf' Hc].
  destruct (stack_drain_spec (Z.to_nat STACK_MAX_SIZE) _ Hwf') as (final & Hd & _ & Htop & _).
  - rewrite Hc, length_app. lia.
  - exists final. rewrite Hd, Hc, reverse_app. split; [reflexivity|].
    unfold stack_is_empty. rewrite Htop. reflexivity.
Qed.

Lemma stack_lifo_witness :
  exists final,
    stack_drain (Z.to_nat STACK_MAX_SIZE)
      (stack_push_all (stack_init (mkStack (replicate 128 0) 0)) [10; 20; 30; 40; 50])
      = Some ([50; 40; 30; 20; 10], final) /\
    stack_is_empty final = true.
Proof.
  destruct (stack_lifo (stack_init (mkStack (replicate 128 0) 0)) [10; 20; 30; 40; 50])
    as (final & Hd & He).
  - split; [reflexivity|]. simpl. unfold STACK_MAX_SIZE. lia.
  - simpl. unfold STACK_MAX_SIZE. lia.
  - exists final. split; [exact Hd|exact He].
Defined.

(** * Circular queue *)

Lemma queue_slots_distinct (a d : Z) :
  0 <= d < QUEUE_MAX_SIZE ->
  (a + d) `mod` QUEUE_MAX_SIZE = a `mod` QUEUE_MAX_SIZE -> d = 0.
Proof.
  unfold QUEUE_MAX_SIZE. intros Hd Heq.
  assert ((a + d - a) `mod` 64 = 0) as H.
  { rewrite Zminus_mod, Heq, Z.sub_diag. reflexivity. }
  replace (a + d - a) with d in H by lia.
  rewrite Z.mod_small in H by lia. exact H.
Qed.

Lemma queue_contents_length (q : Queue) :
  Z.of_nat (length (queue_contents q)) = Z.max 0 (queue_count q).
Proof. unfold queue_contents. rewrite length_fmap, length_seq. lia. Qed.

Lemma queue_enqueue_ok (q : Queue) (v : Z) :
  queue_wf q -> queue_count q < QUEUE_MAX_SIZE ->
  snd (queue_enqueue q v) = true /\
  queue_wf (fst (queue_enqueue q v)) /\
  queue_contents (fst (queue_enqueue q v)) = queue_contents q ++ [v].
Proof.
  intros (Hlen & Hfront & Hrear & Hcount & Hinv) Hroom.
  unfold queue_enqueue, queue_is_full.
  assert ((queue_count q =? QUEUE_MAX_SIZE) = false) as -> by (apply Z.eqb_neq; lia).
  rewrite Z.rem_mod_nonneg by (unfold QUEUE_MAX_SIZE; lia).
  pose proof (Z.mod_pos_bound (queue_rear q + 1) QUEUE_MAX_SIZE ltac:(reflexivity)) as Hr.
  simpl. split; [reflexivity|]. split.
  - unfold queue_wf. simpl. rewrite length_insert.
    split; [exact Hlen|]. split; [exact Hfront|]. split; [lia|]. split; [lia|].
    rewrite Hinv, Zplus_mod_idemp_l. f_equal. lia.
  - unfold queue_contents. simpl.
    replace (Z.to_nat (queue_count q + 1)) with (S (Z.to_nat (queue_count q))) by lia.
    rewrite seq_S, fmap_app. simpl. f_equal.
    + apply list_fmap_ext. intros i k Hk. apply lookup_seq in Hk as [-> Hi].
      unfold elem_at. rewrite list_lookup_insert_ne; [reflexivity|]. rewrite Hinv.
      pose proof (Z.mod_pos_bound (queue_front q + queue_count q) QUEUE_MAX_SIZE
                    ltac:(reflexivity)).
      pose proof (Z.mod_pos_bound (queue_front q + Z.of_nat (0 + i)) QUEUE_MAX_SIZE
                    ltac:(reflexivity)).
      intros Heq. apply Z2Nat.inj in Heq; try lia.
      replace (queue_front q + queue_count q)
        with (queue_front q + Z.of_nat (0 + i) + (queue_count q - Z.of_nat (0 + i)))
        in Heq by lia.
      apply queue_slots_distinct in Heq; lia.
    + f_equal. unfold elem_at. rewrite Z2Nat.id by lia.
      rewrite <- Hinv. rewrite list_lookup_insert_eq; [reflexivity|].
      rewrite Hlen. unfold QUEUE_MAX_SIZE in *. lia.
Qed.

Lemma queue_dequeue_ok (q : Queue) (v : Z) (l : list Z) :
  queue_wf q -> queue_contents q = v :: l ->
  queue_peek q = Some v /\
  snd (queue_dequeue q) = Some v /\
  queue_wf (fst (queue_dequeue q)) /\
  queue_contents (fst (queue_dequeue q)) = l.
Proof.
  intros (Hlen & Hfront & Hrear & Hcount & Hinv) Hc.
  pose proof (queue_contents_length q) as Hl. rewrite Hc in Hl. simpl in Hl.
  assert (1 <= queue_count q) as Hpos by lia.
  unfold queue_peek, queue_dequeue, queue_is_empty.
  assert ((queue_count q =? 0) = false) as -> by (apply Z.eqb_neq; lia).
  rewrite Z.rem_mod_nonneg by (unfold QUEUE_MAX_SIZE; lia).
  unfold queue_contents in Hc.
  replace (Z.to_nat (queue_count q)) with (S (Z.to_nat (queue_count q - 1))) in Hc by lia.
  simpl in Hc. injection Hc as Hv Hrest.
  rewrite Z.add_0_r, Z.mod_small in Hv by lia.
  simpl. rewrite Hv. split; [reflexivity|]. split; [reflexivity|]. split.
  - pose proof (Z.mod_pos_bound (queue_front q + 1) QUEUE_MAX_SIZE ltac:(reflexivity)).
    unfold queue_wf. simpl.
    split; [exact Hlen|]. split; [lia|]. split; [lia|]. split; [lia|].
    rewrite Zplus_mod_idemp_l, Hinv. f_equal. lia.
  - unfold queue_contents. simpl. rewrite <- Hrest, <- fmap_S_seq, <- list_fmap_compose.
    apply list_fmap_ext. intros i k _. simpl.
    rewrite Zplus_mod_idemp_l. do 2 f_equal. lia.
Qed.

(** X19: a well-formed circular queue behaves as the list of its elements,
    oldest first, wherever [front] stands in the buffer.  [queue_size] is the
    length of the list; an enqueue on a queue that is not full succeeds and
    adds the value at the end, wrapping [rear] around the buffer; an enqueue
    on a full queue returns false and changes nothing; dequeue and peek on a
    non-empty queue return the oldest value, dequeue removing it; on an empty
    queue both return false and change nothing. *)
Theorem queue_refines_list (q : Queue) :
  queue_wf q ->
  queue_size q = Z.of_nat (length (queue_contents q)) /\
  (queue_is_empty q = true <-> queue_contents q = []) /\
  (queue_is_full q = true <-> Z.of_nat (length (queue_contents q)) = QUEUE_MAX_SIZE) /\
  (forall v,
     if queue_is_full q then queue_enqueue q v = (q, false)
     else snd (queue_enqueue q v) = true /\
          queue_wf (fst (queue_enqueue q v)) /\
          queue_contents (fst (queue_enqueue q v)) = queue_contents q ++ [v]) /\
  (queue_contents q = [] -> queue_dequeue q = (q, None) /\ queue_peek q = None) /\
  (forall v l,
     queue_contents q = v :: l ->
     queue_peek q = Some v /\
     snd (queue_dequeue q) = Some v /\
     queue_wf (fst (queue_dequeue q)) /\
     queue_contents (fst (queue_dequeue q)) = l).
Proof.
  intros Hwf. pose proof (queue_contents_length q) as Hlen.
  pose proof Hwf as (_ & _ & _ & Hcount & _).
  assert (queue_is_empty q = true <-> queue_contents q = []) as Hempty.
  { unfold queue_is_empty. rewrite Z.eqb_eq. split.
    - intros H. apply length_zero_iff_nil. lia.
    - intros H. rewrite H in Hlen. simpl in Hlen. lia. }
  split; [unfold queue_size; lia|]. split; [exact Hempty|].
  split; [unfold queue_is_full; rewrite Z.eqb_eq; lia|].
  split; [|split].
  - intros v. destruct (queue_is_full q) eqn:Hfull.
    + unfold queue_enqueue. rewrite Hfull. reflexivity.
    + unfold queue_is_full in Hfull. apply Z.eqb_neq in Hfull.
      apply queue_enqueue_ok; [exact Hwf|lia].
  - intros Hnil. apply Hempty in Hnil. unfold queue_dequeue, queue_peek.
    rewrite Hnil. auto.
  - intros v l Hc. apply queue_dequeue_ok; assumption.
Qed.

Lemma queue_refines_list_witness :
  queue_contents (fst (queue_enqueue (mkQueue (replicate 64 0) 63 62 0) 7)) = [7].
Proof.
  destruct (queue_refines_list (mkQueue (replicate 64 0) 63 62 0))
    as (_ & _ & _ & Henq & _).
  - unfold queue_wf, QUEUE_MAX_SIZE. simpl. repeat split; lia.
  - specialize (Henq 7). simpl in Henq. destruct Henq as (_ & _ & Hc). exact Hc.
Defined.

Lemma queue_enqueue_all_spec (values : list Z) :
  forall q,
    queue_wf q ->
    Z.of_nat (length (queue_contents q) + length values) <= QUEUE_MAX_SIZE ->
    queue_wf (queue_enqueue_all q values) /\
    queue_contents (queue_enqueue_all q values) = queue_contents q ++ values.
Proof.
  induction values as [|v values IH]; intros q Hwf Hroom; simpl.
  - rewrite app_nil_r. auto.
  - pose proof (queue_contents_length q) as Hlen. simpl in Hroom.
    destruct (queue_enqueue_ok q v Hwf ltac:(lia)) as (_ & Hwf' & Hc).
    destruct (IH (fst (queue_enqueue q v)) Hwf') as [Hwf'' Hc''].
    + rewrite Hc, length_app. simpl. lia.
    + split; [exact Hwf''|]. rewrite Hc'', Hc, <- app_assoc. reflexivity.
Qed.

Lemma queue_drain_spec (fuel : nat) :
  forall q,
    queue_wf q -> (length (queue_contents q) <= fuel)%nat ->
    exists final,
      queue_drain fuel q = Some (queue_contents q, final) /\
      queue_wf final /\ queue_count final = 0.
Proof.
  induction fuel as [|fuel IH]; intros q Hwf Hfuel;
    pose proof (queue_contents_length q) as Hlen;
    pose proof Hwf as (_ & _ & _ & Hcount & _).
  - assert (queue_contents q = []) as Hnil by (apply length_zero_iff_nil; lia).
    rewrite Hnil in *. simpl in Hlen.
    exists q. simpl. unfold queue_is_empty.
    assert ((queue_count q =? 0) = true) as -> by (apply Z.eqb_eq; lia).
    split; [reflexivity|]. split; [exact Hwf|lia].
  - destruct (queue_contents q) as [|v l] eqn:Hc.
    + simpl in Hlen. exists q. simpl. unfold queue_is_empty.
      assert ((queue_count q =? 0) = true) as -> by (apply Z.eqb_eq; lia).
      split; [reflexivity|]. split; [exact Hwf|lia].
    + simpl in Hlen, Hfuel.
      destruct (queue_dequeue_ok q v l Hwf Hc) as (_ & Hv & Hwf' & Hc').
      destruct (IH _ Hwf' ltac:(rewrite Hc'; lia)) as (final & Hd & Hwff & Hzero).
      exists final. simpl. unfold queue_is_empty.
      assert ((queue_count q =? 0) = false) as -> by (apply Z.eqb_neq; lia).
      destruct (queue_dequeue q) as [q' value]. simpl in *. subst value.
      rewrite Hd, Hc'. simpl. auto.
Qed.

(** X20: first in, first out.  Enqueueing the values of a list that fits in
    the queue and then dequeueing until the queue is empty, as [test_queue]
    does, returns what the queue held before followed by the new values, in
    the order they were enqueued, and leaves the queue empty; 64 iterations
    of the draining loop always suffice. *)
Theorem queue_fifo (q : Queue) (values : list Z) :
  queue_wf q ->
  Z.of_nat (length (queue_contents q) + length values) <= QUEUE_MAX_SIZE ->
  exists final,
    queue_drain (Z.to_nat QUEUE_MAX_SIZE) (queue_enqueue_all q values)
      = Some (queue_contents q ++ values, final) /\
    queue_is_empty final = true.
Proof.
  intros Hwf Hroom.
  destruct (queue_enqueue_all_spec values q Hwf Hroom) as [Hwf' Hc].
  destruct (queue_drain_spec (Z.to_nat QUEUE_MAX_SIZE) _ Hwf') as (final & Hd & _ & Hzero).
  - rewrite Hc, length_app. lia.
  - exists final. rewrite Hd, Hc. split; [reflexivity|].
    unfold queue_is_empty. rewrite Hzero. reflexivity.
Qed.

Lemma queue_fifo_witness :
  exists final,
    queue_drain (Z.to_nat QUEUE_MAX_SIZE)
      (queue_enqueue_all (mkQueue (replicate 64 0) 62 61 0) [100; 200; 300; 400; 500])
      = Some ([100; 200; 300; 400; 500], final) /\
    queue_is_empty final = true.
Proof.
  destruct (queue_fifo (mkQueue (replicate 64 0) 62 61 0) [100; 200; 300; 400; 500])
    as (final & Hd & He).
  - unfold queue_wf, QUEUE_MAX_SIZE. simpl. repeat split; lia.
  - simpl. unfold QUEUE_MAX_SIZE. lia.
  - exists final. split; [exact Hd|exact He].
Defined.

(** * Frame and reuse properties *)

Lemma load32_store8_other (p p' : MemoryPool) (a v x : Z) :
  store8 p a v = Some p' ->
  0 <= x -> x + 3 < SIZE_MOD -> ~ (x <= a < x + 4) ->
  load32 p' x = load32 p x.
Proof.
  intros Hst Hx0 Hx3 Hout. unfold load32. rewrite !ptr_add_small by lia.
  rewrite !(load8_store8 _ _ _ _ _ Hst).
  repeat (case_decide; try lia). reflexivity.
Qed.

(** X21: the integrity check looks at the eight marker bytes only: a byte
    write anywhere else (payload, slack of the block, any other block)
    leaves the answer of [check_buffer_integrity] for that pointer and size
    exactly as it was. *)
Theorem check_buffer_integrity_frame (p p' : MemoryPool) (ptr size a v : Z) :
  GUARD_WIDTH <= ptr -> 0 <= size -> ptr + size + GUARD_WIDTH <= SIZE_MOD ->
  store8 p a v = Some p' ->
  ~ (ptr - GUARD_WIDTH <= a < ptr) -> ~ (ptr + size <= a < ptr + size + GUARD_WIDTH) ->
  check_buffer_integrity p' ptr size = check_buffer_integrity p ptr size.
Proof.
  intros Hptr Hsize Hfit Hst Hstart Hend. unfold check_buffer_integrity.
  destruct ((ptr =? NULL) || (size =? 0)); [reflexivity|].
  rewrite !ptr_add_small by (unfold GUARD_WIDTH in *; lia).
  rewrite (load32_store8_other p p' a v (ptr + - GUARD_WIDTH) Hst),
          (load32_store8_other p p' a v (ptr + size) Hst);
    unfold GUARD_WIDTH in *; try lia.
  reflexivity.
Qed.

Lemma check_buffer_integrity_frame_witness :
  exists p h p',
    create_guarded_buffer g_memory_pool 16 = Some (p, h) /\
    store8 p (h + 20) 0xFF = Some p' /\
    check_buffer_integrity p' h 16 = check_buffer_integrity p h 16.
Proof.
  destruct (create_guarded_buffer g_memory_pool 16) as [[p h]|] eqn:Hcreate;
    [|vm_compute in Hcreate; discriminate].
  assert (h = 65540) as -> by (vm_compute in Hcreate; congruence).
  destruct (store8 p (65540 + 20) 255) as [p'|] eqn:Hst.
  2:{ exfalso. revert Hst. vm_compute in Hcreate. injection Hcreate as <-.
      vm_compute. discriminate. }
  exists p, 65540, p'. split; [reflexivity|]. split; [exact Hst|].
  apply (check_buffer_integrity_frame p p' 65540 16 (65540 + 20) 255);
    try (unfold GUARD_WIDTH; rewrite ?SIZE_MOD_eq; lia). exact Hst.
Defined.

Lemma alloc_scan_flags (l1 l2 : list MemoryBlock) :
  in_use <$> l1 = in_use <$> l2 -> forall i, alloc_scan l1 i = alloc_scan l2 i.
Proof.
  revert l2. induction l1 as [|x l1 IH]; intros [|y l2] H i; simpl in *;
    try discriminate; [reflexivity|].
  injection H as Hxy H. rewrite Hxy, (IH l2 H). reflexivity.
Qed.

(** X22: first fit reuses a block at once: after a successful allocation is
    released again, the next allocation of any valid size returns the very
    same address, and the block it gets is zero-filled. *)
Theorem pool_alloc_reuses_freed_block (p p1 : MemoryPool) (size size' ptr : Z) :
  pool_wf p -> pool_inv p ->
  pool_alloc p size = (p1, ptr) -> ptr <> NULL ->
  0 < size' <= POOL_BLOCK_SIZE ->
  snd (pool_alloc (fst (pool_free p1 ptr)) size') = ptr /\
  forall j, 0 <= j < POOL_BLOCK_SIZE ->
    load8 (fst (pool_alloc (fst (pool_free p1 ptr)) size')) (ptr + j) = Some 0.
Proof.
  intros Hwf Hinv Halloc Hptr Hsize'.
  destruct (pool_alloc_success _ _ _ _ Halloc Hptr) as (i & b & Hs & Hb & Hfree & -> & ->).
  pose proof (lookup_lt_Some _ _ _ Hb) as Hi.
  destruct (take_block_inv p i b Hwf Hinv Hb Hfree) as [Hinv1 _].
  assert (blocks (take_block p i) !! i = Some (mkBlock zero_data true)) as Hb1.
  { simpl. apply list_lookup_insert_eq, Hi. }
  destruct (pool_free_in_use (take_block p i) (block_data_addr i) i _
              (take_block_wf p i Hwf) Hinv1 Hb1 eq_refl)
    as (-> & _); [unfold POOL_BLOCK_SIZE; lia|].
  simpl fst.
  assert (alloc_scan (blocks (release_block (take_block p i) i)) 0 = Some i) as Hscan.
  { rewrite <- Hs. apply alloc_scan_flags. simpl.
    rewrite list_insert_insert_eq, list_fmap_insert. simpl.
    apply list_insert_id. rewrite list_lookup_fmap, Hb. simpl. rewrite Hfree. reflexivity. }
  unfold pool_alloc, pool_alloc_exit.
  assert (((size' =? 0) || (size' >? POOL_BLOCK_SIZE)) = false) as ->.
  { apply orb_false_iff. split; [apply Z.eqb_neq; lia|].
    rewrite Z.gtb_ltb. apply Z.ltb_ge. lia. }
  rewrite Hscan. simpl. split; [reflexivity|].
  intros j Hj. apply take_block_load8; [|rewrite <- (wf_blocks _ Hwf); exact Hi|exact Hj].
  simpl. rewrite !length_insert. exact Hi.
Qed.

Lemma pool_alloc_reuses_freed_block_witness :
  snd (pool_alloc (fst (pool_free (take_block g_memory_pool 0) (block_data_addr 0))) 64)
  = block_data_addr 0.
Proof.
  destruct (pool_alloc_reuses_freed_block g_memory_pool (take_block g_memory_pool 0) 8 64
              (block_data_addr 0) g_memory_pool_wf g_memory_pool_inv eq_refl
              (block_data_addr_not_null 0)) as [H _].
  - unfold POOL_BLOCK_SIZE. lia.
  - exact H.
Defined.

(** * Linked list over a node pool *)

Lemma used_scan_Some (used : list bool) (i k : nat) :
  used_scan used i = Some k -> (i <= k)%nat /\ used !! (k - i)%nat = Some false.
Proof.
  revert i. induction used as [|u used IH]; intros i H; simpl in H; [discriminate|].
  destruct u; simpl in H.
  - destruct (IH _ H) as [Hle Hk]. split; [lia|].
    replace (k - i)%nat with (S (k - S i)) by lia. exact Hk.
  - injection H as <-. rewrite Nat.sub_diag. split; [lia|reflexivity].
Qed.

Lemma used_scan_None (used : list bool) (i : nat) :
  used_scan used i = None <-> forall j, (j < length used)%nat -> used !! j = Some true.
Proof.
  revert i. induction used as [|u used IH]; intros i; simpl.
  - split; [intros _ j Hj; lia|reflexivity].
  - destruct u; simpl.
    + rewrite IH. split.
      * intros H [|j] Hj; [reflexivity|]. apply H. lia.
      * intros H j Hj. apply (H (S j)). lia.
    + split; [discriminate|]. intros H. specialize (H 0%nat ltac:(lia)). discriminate.
Qed.

Lemma is_chain_lookup (pool : list Node) (start : option nat) (cs : list nat) (c : nat) :
  is_chain pool start cs -> c ∈ cs -> is_Some (pool !! c).
Proof.
  revert start. induction cs as [|x cs IH]; intros start Hch Hc.
  - apply elem_of_nil in Hc. contradiction.
  - destruct Hch as (_ & n & Hn & Hrest). apply elem_of_cons in Hc as [->|Hc]; eauto.
Qed.

Lemma is_chain_insert (pool : list Node) (start : option nat) (cs : list nat)
      (c : nat) (n : Node) :
  c ∉ cs -> is_chain pool start cs -> is_chain (<[c := n]> pool) start cs.
Proof.
  revert start. induction cs as [|x cs IH]; intros start Hc Hch; [exact Hch|].
  apply not_elem_of_cons in Hc as [Hne Hc].
  destruct Hch as (Hstart & m & Hm & Hrest). split; [exact Hstart|].
  exists m. split; [|apply IH; assumption].
  rewrite list_lookup_insert_ne by congruence. exact Hm.
Qed.

Lemma chain_values_insert (pool : list Node) (cs : list nat) (c : nat) (n : Node) :
  c ∉ cs -> chain_values (<[c := n]> pool) cs = chain_values pool cs.
Proof.
  intros Hc. apply list_fmap_ext. intros i x Hx. unfold node_at.
  rewrite list_lookup_insert_ne; [reflexivity|].
  intros ->. apply Hc. eapply list_elem_of_lookup_2; exact Hx.
Qed.


Lemma list_wf_index (ll : LinkedList) (cs : list nat) (c : nat) :
  list_wf ll cs -> c ∈ cs -> (c < Z.to_nat NODE_POOL_SIZE)%nat.
Proof.
  intros Hwf Hc. rewrite <- (lwf_used _ _ Hwf).
  apply (lwf_flags _ _ Hwf) in Hc. eapply lookup_lt_Some; exact Hc.
Qed.

Lemma list_wf_length (ll : LinkedList) (cs : list nat) :
  list_wf ll cs -> (length cs <= Z.to_nat NODE_POOL_SIZE)%nat.
Proof.
  intros Hwf.
  rewrite <- (length_seq (Z.to_nat NODE_POOL_SIZE) 0).
  apply submseteq_length, NoDup_submseteq; [apply (lwf_nodup _ _ Hwf)|].
  intros c Hc. apply elem_of_seq. pose proof (list_wf_index _ _ _ Hwf Hc). lia.
Qed.

(** The pool has a free node exactly when the list is shorter than it. *)
Lemma used_scan_full (ll : LinkedList) (cs : list nat) :
  list_wf ll cs ->
  (used_scan (ll_used ll) 0 = None <-> length cs = Z.to_nat NODE_POOL_SIZE).
Proof.
  intros Hwf. rewrite used_scan_None. split.
  - intros Hall. apply Nat.le_antisymm; [apply (list_wf_length _ _ Hwf)|].
    rewrite <- (length_seq (Z.to_nat NODE_POOL_SIZE) 0).
    apply submseteq_length, NoDup_submseteq; [apply NoDup_seq|].
    intros j Hj. apply elem_of_seq in Hj. apply (lwf_flags _ _ Hwf), Hall.
    rewrite (lwf_used _ _ Hwf). lia.
  - intros Hlen j Hj. apply (lwf_flags _ _ Hwf).
    assert (cs ≡ₚ seq 0 (Z.to_nat NODE_POOL_SIZE)) as Hperm.
    { apply submseteq_length_Permutation; [|rewrite length_seq; lia].
      apply NoDup_submseteq; [apply (lwf_nodup _ _ Hwf)|].
      intros c Hc. apply elem_of_seq. pose proof (list_wf_index _ _ _ Hwf Hc). lia. }
    rewrite Hperm. apply elem_of_seq. rewrite (lwf_used _ _ Hwf) in Hj. lia.
Qed.

Lemma free_node_in_pool (ll : LinkedList) (c : nat) :
  (c < Z.to_nat NODE_POOL_SIZE)%nat ->
  free_node ll c = mkList (ll_pool ll) (<[c := false]> (ll_used ll)) (ll_head ll) (ll_size ll).
Proof.
  intros Hc. unfold free_node.
  assert (((0 <=? Z.of_nat c) && (Z.of_nat c <? NODE_POOL_SIZE)) = true) as ->;
    [|reflexivity].
  apply andb_true_iff. split; [apply Z.leb_le; lia|].
  apply Z.ltb_lt. unfold NODE_POOL_SIZE in *. lia.
Qed.

Lemma list_insert_front_ok (ll : LinkedList) (cs : list nat) (v : Z) :
  list_wf ll cs -> (length cs < Z.to_nat NODE_POOL_SIZE)%nat ->
  exists i,
    snd (list_insert_front ll v) = true /\
    list_wf (fst (list_insert_front ll v)) (i :: cs) /\
    chain_values (ll_pool (fst (list_insert_front ll v))) (i :: cs)
    = v :: chain_values (ll_pool ll) cs.
Proof.
  intros Hwf Hroom. unfold list_insert_front, allocate_node.
  destruct (used_scan (ll_used ll) 0) as [i|] eqn:Hscan.
  2:{ apply (used_scan_full _ _ Hwf) in Hscan. lia. }
  apply used_scan_Some in Hscan as [_ Hfree]. rewrite Nat.sub_0_r in Hfree.
  pose proof (lookup_lt_Some _ _ _ Hfree) as Hi.
  assert (i ∉ cs) as Hnotin.
  { intros Hin. apply (lwf_flags _ _ Hwf) in Hin. congruence. }
  exists i. simpl. split; [reflexivity|]. split.
  - destruct Hwf as [Hpool Hused Hchain Hnodup Hflags Hsize]. split; simpl.
    + rewrite length_insert. exact Hpool.
    + rewrite length_insert. exact Hused.
    + split; [reflexivity|]. eexists. split.
      * apply list_lookup_insert_eq. lia.
      * simpl. apply is_chain_insert; assumption.
    + apply NoDup_cons. auto.
    + intros j. rewrite elem_of_cons. destruct (decide (i = j)) as [->|Hne].
      * rewrite list_lookup_insert_eq by lia. tauto.
      * rewrite list_lookup_insert_ne by exact Hne. rewrite Hflags.
        split; [auto|]. intros [->|H]; [contradiction|exact H].
    + rewrite Hsize. simpl length. lia.
  - unfold chain_values. simpl. f_equal.
    + unfold node_at. rewrite list_lookup_insert_eq; [reflexivity|].
      rewrite (lwf_pool _ _ Hwf), <- (lwf_used _ _ Hwf). exact Hi.
    + apply chain_values_insert, Hnotin.
Qed.

Lemma list_unlink_head (ll : LinkedList) (c : nat) (cs : list nat) :
  list_wf ll (c :: cs) ->
  let n := node_at (ll_pool ll) c in
  let list2 := free_node (mkList (ll_pool ll) (ll_used ll) (node_next n) (ll_size ll)) c in
  list_wf (mkList (ll_pool list2) (ll_used list2) (ll_head list2) (ll_size list2 - 1)) cs /\
  ll_pool list2 = ll_pool ll /\ ll_head ll = Some c.
Proof.
  intros Hwf n list2. pose proof (list_wf_index _ _ c Hwf ltac:(apply elem_of_cons; auto)) as Hc.
  unfold list2. rewrite free_node_in_pool by exact Hc. simpl.
  destruct Hwf as [Hpool Hused (Hhead & m & Hm & Hchain) Hnodup Hflags Hsize].
  apply NoDup_cons in Hnodup as [Hnotin Hnodup].
  assert (n = m) as -> by (unfold n, node_at; rewrite Hm; reflexivity).
  split; [|auto]. split; simpl; auto.
  - rewrite length_insert. exact Hused.
  - intros j. destruct (decide (c = j)) as [->|Hne].
    + rewrite list_lookup_insert_eq by lia. split; [discriminate|contradiction].
    + rewrite list_lookup_insert_ne by exact Hne. rewrite Hflags, elem_of_cons.
      split; [intros [->|H]; [contradiction|exact H]|auto].
  - rewrite Hsize. simpl length. lia.
Qed.

Lemma list_init_represents (ll : LinkedList) :
  length (ll_pool ll) = Z.to_nat NODE_POOL_SIZE -> list_represents (list_init ll) [].
Proof.
  intros Hpool. exists []. split; [|reflexivity].
  split; [exact Hpool|reflexivity|reflexivity|apply NoDup_nil_2| |reflexivity].
  intros i. rewrite elem_of_nil. split; [|contradiction].
  unfold list_init, ll_used. intros H. apply lookup_replicate in H as [H _]. discriminate.
Qed.

(** X23: front insertion and removal on a well-formed list.  [list_init]
    gives the empty list.  [list_insert_front] puts the value in front and
    returns true as long as fewer than 32 values are stored; with 32 stored
    it returns false and changes nothing.  [list_remove_front] returns the
    first value and leaves the rest, freeing the node; on the empty list it
    returns false and changes nothing.  [list_size] is the number of values
    stored. *)
Theorem list_front_operations (ll : LinkedList) (vs : list Z) :
  list_represents ll vs ->
  list_size ll = Z.of_nat (length vs) /\
  Z.of_nat (length vs) <= NODE_POOL_SIZE /\
  (forall v,
     if decide (Z.of_nat (length vs) < NODE_POOL_SIZE)
     then snd (list_insert_front ll v) = true /\
          list_represents (fst (list_insert_front ll v)) (v :: vs)
     else list_insert_front ll v = (ll, false)) /\
  (vs = [] -> list_remove_front ll = (ll, None)) /\
  (forall v vs',
     vs = v :: vs' ->
     snd (list_remove_front ll) = Some v /\
     list_represents (fst (list_remove_front ll)) vs') /\
  (length (ll_pool ll) = Z.to_nat NODE_POOL_SIZE -> list_represents (list_init ll) []).
Proof.
  intros (cs & Hwf & Hvs).
  assert (length vs = length cs) as Hlen by (rewrite <- Hvs; apply length_fmap).
  pose proof (list_wf_length _ _ Hwf) as Hle.
  split; [unfold list_size; rewrite (lwf_size _ _ Hwf), Hlen; reflexivity|].
  split; [unfold NODE_POOL_SIZE in *; lia|].
  split; [|split; [|split; [|apply list_init_represents]]].
  - intros v. case_decide as Hroom.
    + destruct (list_insert_front_ok ll cs v Hwf) as (i & Hret & Hwf' & Hvals).
      { unfold NODE_POOL_SIZE in *. lia. }
      split; [exact Hret|]. exists (i :: cs). rewrite Hvals, Hvs. auto.
    + unfold list_insert_front, allocate_node.
      rewrite (proj2 (used_scan_full _ _ Hwf)); [reflexivity|].
      unfold NODE_POOL_SIZE in *. lia.
  - intros ->. destruct cs as [|c cs]; [|discriminate].
    unfold list_remove_front. rewrite (lwf_chain _ _ Hwf). reflexivity.
  - intros v vs' ->. destruct cs as [|c cs]; [discriminate|].
    injection Hvs as Hv Hvs'.
    destruct (list_unlink_head ll c cs Hwf) as (Hwf' & Hpool & Hhead).
    unfold list_remove_front. rewrite Hhead. simpl. split; [rewrite Hv; reflexivity|].
    exists cs. split; [exact Hwf'|]. simpl. rewrite Hpool. exact Hvs'.
Qed.

Lemma list_front_operations_witness :
  list_represents
    (fst (list_insert_front
            (list_init (mkList (replicate 32 (mkNode 0 None)) (replicate 32 true) (Some 3%nat) 7))
            1000))
    [1000].
Proof.
  destruct (list_front_operations
              (list_init (mkList (replicate 32 (mkNode 0 None)) (replicate 32 true) (Some 3%nat) 7))
              []) as (_ & _ & Hins & _).
  - apply list_init_represents. reflexivity.
  - specialize (Hins 1000). simpl in Hins. destruct Hins as [_ H]. exact H.
Defined.











(** * Compile-time primality test *)

Lemma is_prime_helper_spec (N : Z) (d : nat) :
  0 < N -> (1 <= d)%nat ->
  (is_prime_helper N d = true <->
   forall k, 1 < k <= Z.of_nat d -> ~ Z.divide k N).
Proof.
  intros HN. induction d as [|d IH]; intros Hd; [lia|].
  cbn [is_prime_helper].
  destruct (Z.of_nat (S d) =? 1) eqn:H1.
  - apply Z.eqb_eq in H1. split; [|reflexivity]. intros _ k Hk. lia.
  - apply Z.eqb_neq in H1. rewrite andb_true_iff, negb_true_iff, Z.eqb_neq.
    rewrite Z.rem_mod_nonneg by lia.
    rewrite Z.mod_divide by lia. rewrite IH by lia. split.
    + intros [Hlast Hrest] k Hk.
      destruct (decide (k = Z.of_nat (S d))) as [->|Hne]; [exact Hlast|].
      apply Hrest. lia.
    + intros Hall. split; [apply Hall; lia|]. intros k Hk. apply Hall. lia.
Qed.

(** X26: for every [N > 0], the compile-time test [is_prime<N>()] is true
    exactly when [N] is a prime number: [N > 1] and no [n] with [1 < n < N]
    divides [N]. *)
Theorem is_prime_correct (N : Z) :
  0 < N -> (is_prime N = true <-> Z.prime N).
Proof.
  intros HN. unfold Z.prime, is_prime.
  destruct (N =? 1) eqn:H1.
  - apply Z.eqb_eq in H1. split; [discriminate|]. intros [H _]. lia.
  - apply Z.eqb_neq in H1. destruct (N =? 2) eqn:H2.
    + apply Z.eqb_eq in H2. subst N. split; [|reflexivity].
      intros _. split; [lia|]. intros n Hn. lia.
    + apply Z.eqb_neq in H2. rewrite is_prime_helper_spec by lia.
      rewrite Z2Nat.id by lia. split.
      * intros Hall. split; [lia|]. intros n Hn. apply Hall. lia.
      * intros [_ Hall] k Hk. apply Hall. lia.
Qed.

Lemma is_prime_correct_witness : is_prime 17 = true <-> Z.prime 17.
Proof. apply is_prime_correct. lia. Defined.
